(** * The property expression engine of FreeCAD (App/PropertyExpressionEngine.cpp)

    A shallow embedding of the engine that binds expressions to the
    properties of a document object, and of the part of the boost graph
    library it drives: the binding store, the construction of the dependency
    graph, cycle detection, the evaluation order, [setValue], [execute] and
    the maintenance handlers.

    The methods are state transformers that may throw. The document around
    the engine (which paths resolve, their canonical forms, what an
    expression depends on) is a parameter and does not change while the
    engine runs; only the values of the properties do, through [execute].
    Integers that count nodes are natural numbers: an [int] does not
    overflow on the number of paths of a document. The store is a finite
    map; a loop over it follows [map_to_list], and nothing proved depends on
    the order that gives. *)

From stdpp Require Import gmap strings list fin_maps relations.
From Stdlib Require Import ZArith.

(** ** Directed graphs and depth-first search

    [DiGraph] is [boost::adjacency_list<listS, vecS, directedS>]: vertices
    are the integers below [num_vertices]; the out-edges of a vertex are
    kept in insertion order and parallel edges are allowed. *)

Module Graph.

Record DiGraph : Type := mkDiGraph {
  num_vertices : nat;
  edge_list : list (nat * nat)
}.

(** [DiGraph(n)]: [n] vertices and no edge. *)
Definition new_graph (n : nat) : DiGraph := mkDiGraph n [].

(** [add_edge(u, v, g)]: with a [vecS] vertex container the vertex set
    grows so that both endpoints exist. *)
Definition add_edge (u v : nat) (g : DiGraph) : DiGraph :=
  mkDiGraph (num_vertices g `max` S (u `max` v)) (edge_list g ++ [(u, v)]).

Definition out_edges (g : DiGraph) (u : nat) : list nat :=
  (filter (λ e : nat * nat, e.1 = u) (edge_list g)).*2.

Definition edge (g : DiGraph) (u v : nat) : Prop := (u, v) ∈ edge_list g.

Definition wf_graph (g : DiGraph) : Prop :=
  ∀ u v, edge g u v → u < num_vertices g ∧ v < num_vertices g.

Definition acyclic (g : DiGraph) : Prop := ∀ u, ¬ tc (edge g) u u.

Inductive color : Type := White | Gray | Black.

(** The colour map of the search together with what its visitors observe:
    the vertices in the order they finish and the back edges met, both
    most recent first. *)
Record dfs_state : Type := mkDfs {
  gray : gset nat;
  finished : list nat;
  back_edges : list (nat * nat)
}.

Definition dfs_init : dfs_state := mkDfs ∅ [] [].

Definition get_color (st : dfs_state) (v : nat) : color :=
  if decide (v ∈ gray st) then Gray
  else if decide (v ∈ finished st) then Black
  else White.

Definition discover_vertex (u : nat) (st : dfs_state) : dfs_state :=
  mkDfs ({[u]} ∪ gray st) (finished st) (back_edges st).

Definition back_edge (u v : nat) (st : dfs_state) : dfs_state :=
  mkDfs (gray st) (finished st) ((u, v) :: back_edges st).

Definition finish_vertex (u : nat) (st : dfs_state) : dfs_state :=
  mkDfs (gray st ∖ {[u]}) (u :: finished st) (back_edges st).

(** One visit of the search. The recursion depth is bounded by the number
    of white vertices, which [fuel] over-approximates. *)
Definition examine_edge (visit : nat → dfs_state → dfs_state) (u : nat)
    (s : dfs_state) (v : nat) : dfs_state :=
  match get_color s v with
  | White => visit v s
  | Gray => back_edge u v s
  | Black => s
  end.

Fixpoint dfs_visit (fuel : nat) (g : DiGraph) (u : nat) (st : dfs_state)
  : dfs_state :=
  match fuel with
  | 0 => st
  | S fuel' =>
      finish_vertex u
        (foldl (examine_edge (dfs_visit fuel' g) u) (discover_vertex u st)
           (out_edges g u))
  end.

Definition dfs_start (g : DiGraph) (st : dfs_state) (u : nat) : dfs_state :=
  match get_color st u with
  | White => dfs_visit (num_vertices g) g u st
  | _ => st
  end.

(** [depth_first_search(g, visitor(vis))]: every vertex, in index order, is
    the root of a visit if it is still white. *)
Definition depth_first_search (g : DiGraph) : dfs_state :=
  foldl (dfs_start g) dfs_init (seq 0 (num_vertices g)).

(** [cycle_detector]: [has_cycle] is set by any back edge, and [src] is
    overwritten with the source of each, so the last one met stays. *)
Definition cycle_detector (st : dfs_state) : bool * Z :=
  match back_edges st with
  | [] => (false, (-1)%Z)
  | (u, _) :: _ => (true, Z.of_nat u)
  end.

(** [topological_sort(g, back_inserter(c))]: vertices are emitted as they
    finish; a back edge raises [not_a_dag]. *)
Definition topological_sort (g : DiGraph) : option (list nat) :=
  let st := depth_first_search g in
  match back_edges st with
  | [] => Some (reverse (finished st))
  | _ => None
  end.

(** *** Correctness of the search *)

Section dfs_facts.
Context (g : DiGraph) (Hwf : wf_graph g).

Definition whites (st : dfs_state) : gset nat :=
  set_seq 0 (num_vertices g) ∖ (gray st ∪ list_to_set (finished st)).

(** [ordered B l]: in the finishing list [l] (most recent first) no vertex
    occurs twice and every edge leaving a vertex either leads to a vertex
    that finished earlier or was reported as a back edge in [B]. *)
Fixpoint ordered (B : list (nat * nat)) (l : list nat) : Prop :=
  match l with
  | [] => True
  | x :: rest =>
      (x ∉ rest) ∧ (∀ v, edge g x v → v ∈ rest ∨ (x, v) ∈ B) ∧ ordered B rest
  end.

Definition back_sound (B : list (nat * nat)) : Prop :=
  ∀ x v, (x, v) ∈ B → edge g x v ∧ tc (edge g) x x.

Record dfs_inv (st : dfs_state) : Prop := mkInv {
  inv_disj : ∀ x, x ∈ gray st → x ∉ finished st;
  inv_ordered : ordered (back_edges st) (finished st);
  inv_back : back_sound (back_edges st)
}.

Record dfs_ext (st st' : dfs_state) : Prop := mkExt {
  ext_gray : gray st' = gray st;
  ext_fin : ∀ x, x ∈ finished st → x ∈ finished st';
  ext_back : ∀ e, e ∈ back_edges st → e ∈ back_edges st'
}.

(** What one visit guarantees when the fuel covers the white vertices. *)
Definition visit_spec (fuel : nat) : Prop :=
  ∀ u st,
    u < num_vertices g → get_color st u = White →
    size (whites st) ≤ fuel → dfs_inv st →
    (∀ x, x ∈ gray st → rtc (edge g) x u) →
    dfs_inv (dfs_visit fuel g u st) ∧ dfs_ext st (dfs_visit fuel g u st) ∧
    u ∈ finished (dfs_visit fuel g u st).

Lemma elem_of_out_edges u v : v ∈ out_edges g u ↔ edge g u v.
Proof.
  unfold out_edges, edge. rewrite list_elem_of_fmap. split.
  - intros [[a b] [-> Hin]]. apply list_elem_of_filter in Hin as [Ha Hin].
    simpl in *. by subst.
  - intros H. exists (u, v). split; [done|]. by apply list_elem_of_filter.
Qed.

Lemma dfs_ext_refl st : dfs_ext st st.
Proof. by split. Qed.

Lemma dfs_ext_trans s1 s2 s3 : dfs_ext s1 s2 → dfs_ext s2 s3 → dfs_ext s1 s3.
Proof.
  intros [Hg1 Hf1 Hb1] [Hg2 Hf2 Hb2]. split; [congruence|auto|auto].
Qed.

Lemma ordered_mono B B' l :
  (∀ e, e ∈ B → e ∈ B') → ordered B l → ordered B' l.
Proof.
  intros HB. induction l as [|x rest IH]; simpl; [done|].
  intros (Hx & He & Hr). split_and!; [done| |by apply IH].
  intros v Hv. destruct (He v Hv); auto.
Qed.

Lemma whites_ext s s' : dfs_ext s s' → whites s' ⊆ whites s.
Proof.
  intros [Hg Hf _]. unfold whites. rewrite Hg.
  intros x. rewrite !elem_of_difference, !elem_of_union, !elem_of_list_to_set.
  intros [Hx Hn]. split; [done|]. intros [?|?]; apply Hn; auto.
Qed.

Lemma white_in_whites st u :
  u < num_vertices g → get_color st u = White → u ∈ whites st.
Proof.
  unfold get_color, whites. intros Hu Hc.
  repeat case_decide; try discriminate.
  rewrite elem_of_difference, elem_of_union, elem_of_list_to_set, elem_of_set_seq.
  split; [lia|]. by intros [?|?].
Qed.

Lemma whites_discover st u :
  u < num_vertices g → get_color st u = White →
  size (whites (discover_vertex u st)) < size (whites st).
Proof.
  intros Hu Hc. apply subset_size.
  pose proof (white_in_whites st u Hu Hc) as Hin.
  assert (u ∉ whites (discover_vertex u st)) as Hout.
  { unfold whites, discover_vertex; simpl.
    rewrite elem_of_difference, !elem_of_union, elem_of_singleton. naive_solver. }
  split.
  - unfold whites, discover_vertex; simpl. intros x.
    rewrite !elem_of_difference, !elem_of_union. naive_solver.
  - intros Hsub. apply Hout, Hsub, Hin.
Qed.

Lemma examine_fold fuel u (IH : visit_spec fuel) vs :
  ∀ s,
    (∀ v, v ∈ vs → edge g u v) → u ∈ gray s →
    size (whites s) ≤ fuel → dfs_inv s →
    (∀ x, x ∈ gray s → rtc (edge g) x u) →
    dfs_inv (foldl (examine_edge (dfs_visit fuel g) u) s vs) ∧
    dfs_ext s (foldl (examine_edge (dfs_visit fuel g) u) s vs) ∧
    ∀ v, v ∈ vs →
      v ∈ finished (foldl (examine_edge (dfs_visit fuel g) u) s vs) ∨
      (u, v) ∈ back_edges (foldl (examine_edge (dfs_visit fuel g) u) s vs).
Proof.
  induction vs as [|v vs IHvs]; intros s Hvs Hu Hsz Hinv Hreach; simpl.
  { split_and!; [done|apply dfs_ext_refl|]. intros v Hv. by apply not_elem_of_nil in Hv. }
  assert (edge g u v) as Huv by (apply Hvs; left).
  assert (dfs_inv (examine_edge (dfs_visit fuel g) u s v) ∧
          dfs_ext s (examine_edge (dfs_visit fuel g) u s v) ∧
          (v ∈ finished (examine_edge (dfs_visit fuel g) u s v) ∨
           (u, v) ∈ back_edges (examine_edge (dfs_visit fuel g) u s v)))
    as (Hinv1 & Hext1 & Hv1).
  { unfold examine_edge. destruct (get_color s v) eqn:Hc.
    - destruct (IH v s) as (Hi & He & Hf); try done.
      + by apply (Hwf u v).
      + intros x Hx. eapply rtc_r; [by apply Hreach|done].
      + auto.
    - assert (v ∈ gray s) as Hg.
      { unfold get_color in Hc. repeat case_decide; done. }
      split_and!.
      + destruct Hinv as [Hd Ho Hb]. split; simpl; [done| |].
        * eapply ordered_mono; [|done]. intros e He. by right.
        * intros x w [[= -> ->]|Hin]%elem_of_cons; [|by apply Hb].
          split; [done|]. eapply tc_rtc_r; [by apply tc_once|by apply Hreach].
      + split; simpl; [done|done|]. intros e He. by right.
      + right. simpl. by left.
    - split_and!; [done|apply dfs_ext_refl|].
      left. unfold get_color in Hc. repeat case_decide; done. }
  destruct (IHvs (examine_edge (dfs_visit fuel g) u s v)) as (Hinv2 & Hext2 & Hvs2).
  - intros w Hw. apply Hvs. by right.
  - by rewrite (ext_gray _ _ Hext1).
  - etrans; [apply subseteq_size, whites_ext, Hext1|done].
  - done.
  - rewrite (ext_gray _ _ Hext1). done.
  - split_and!; [done|by eapply dfs_ext_trans|].
    intros w [->|Hw]%elem_of_cons; [|by apply Hvs2].
    destruct Hv1 as [Hf|Hb]; [left; by apply (ext_fin _ _ Hext2)|right; by apply (ext_back _ _ Hext2)].
Qed.

Lemma dfs_visit_spec fuel : visit_spec fuel.
Proof.
  induction fuel as [|fuel IH]; intros u st Hu Hc Hsz Hinv Hreach.
  { pose proof (white_in_whites st u Hu Hc) as Hin.
    assert (size (whites st) ≠ 0) by (apply size_non_empty_iff; set_solver). lia. }
  simpl.
  assert ((u ∉ gray st) ∧ (u ∉ finished st)) as [Hng Hnf].
  { unfold get_color in Hc. repeat case_decide; done. }
  destruct (examine_fold fuel u IH (out_edges g u) (discover_vertex u st))
    as (Hinv2 & Hext2 & Hout).
  - intros v. by rewrite elem_of_out_edges.
  - simpl. set_solver.
  - pose proof (whites_discover st u Hu Hc). lia.
  - destruct Hinv as [Hd Ho Hb]. split; simpl; [|done|done].
    intros x [->%elem_of_singleton|Hx]%elem_of_union; [done|by apply Hd].
  - simpl. intros x [->%elem_of_singleton|Hx]%elem_of_union; [done|by apply Hreach].
  - set (st2 := foldl _ _ _) in *.
    assert (gray st2 = {[u]} ∪ gray st) as Hg2 by apply (ext_gray _ _ Hext2).
    destruct Hinv2 as [Hd2 Ho2 Hb2]. split_and!.
    + split; simpl; [| |done].
      * intros x [Hx Hnu]%elem_of_difference. rewrite not_elem_of_cons.
        split; [set_solver|by apply Hd2].
      * split_and!; [apply Hd2; set_solver| |done].
        intros v Hv. apply Hout. by apply elem_of_out_edges.
    + split; simpl.
      * rewrite Hg2. set_solver.
      * intros x Hx. right. by apply (ext_fin _ _ Hext2).
      * intros e He. by apply (ext_back _ _ Hext2).
    + simpl. by left.
Qed.

Lemma dfs_init_inv : dfs_inv dfs_init.
Proof. split; simpl; [set_solver|done|]. intros x v Hx. by apply not_elem_of_nil in Hx. Qed.

Lemma dfs_roots vs :
  ∀ s,
    (∀ v, v ∈ vs → v < num_vertices g) → dfs_inv s → gray s = ∅ →
    dfs_inv (foldl (dfs_start g) s vs) ∧ gray (foldl (dfs_start g) s vs) = ∅ ∧
    (∀ x, x ∈ finished s → x ∈ finished (foldl (dfs_start g) s vs)) ∧
    ∀ v, v ∈ vs → v ∈ finished (foldl (dfs_start g) s vs).
Proof.
  induction vs as [|v vs IHvs]; intros s Hvs Hinv Hg; simpl.
  { split_and!; try done. intros v Hv. by apply not_elem_of_nil in Hv. }
  assert (dfs_inv (dfs_start g s v) ∧ dfs_ext s (dfs_start g s v) ∧
          v ∈ finished (dfs_start g s v)) as (Hinv1 & Hext1 & Hv1).
  { unfold dfs_start. destruct (get_color s v) eqn:Hc.
    - apply dfs_visit_spec; try done.
      + apply Hvs. by left.
      + etrans; [apply subseteq_size|].
        * unfold whites. apply subseteq_difference_l. reflexivity.
        * by rewrite size_set_seq.
      + rewrite Hg. set_solver.
    - unfold get_color in Hc. repeat case_decide; try done. set_solver.
    - split_and!; [done|apply dfs_ext_refl|].
      unfold get_color in Hc. repeat case_decide; done. }
  destruct (IHvs (dfs_start g s v)) as (Hinv2 & Hg2 & Hf2 & Hvs2).
  - intros w Hw. apply Hvs. by right.
  - done.
  - by rewrite (ext_gray _ _ Hext1).
  - split_and!; [done|done| |].
    + intros x Hx. by apply Hf2, (ext_fin _ _ Hext1).
    + intros w [->|Hw]%elem_of_cons; [by apply Hf2|by apply Hvs2].
Qed.

Lemma depth_first_search_inv : dfs_inv (depth_first_search g).
Proof.
  destruct (dfs_roots (seq 0 (num_vertices g)) dfs_init) as (H & _); try done.
  - intros v Hv%elem_of_seq. lia.
  - apply dfs_init_inv.
Qed.

Lemma depth_first_search_all v :
  v < num_vertices g → v ∈ finished (depth_first_search g).
Proof.
  intros Hv.
  destruct (dfs_roots (seq 0 (num_vertices g)) dfs_init) as (_ & _ & _ & H); try done.
  - intros w Hw%elem_of_seq. lia.
  - apply dfs_init_inv.
  - apply H, elem_of_seq. lia.
Qed.

Lemma ordered_NoDup B l : ordered B l → NoDup l.
Proof.
  induction l as [|x rest IH]; simpl; [constructor|].
  intros (Hx & _ & Hr). constructor; auto.
Qed.

Lemma ordered_edge l : ∀ l1 x l2 v,
  ordered [] l → l = l1 ++ x :: l2 → edge g x v → v ∈ l2.
Proof.
  induction l as [|a rest IH]; intros l1 x l2 v Ho Hl Hv.
  { by destruct l1. }
  destruct Ho as (Ha & He & Hr). destruct l1 as [|b l1]; simplify_eq/=.
  - destruct (He v Hv) as [?|Hb]; [done|]. by apply not_elem_of_nil in Hb.
  - by eapply IH.
Qed.

Lemma ordered_closed l x y : ordered [] l → x ∈ l → tc (edge g) x y → y ∈ l.
Proof.
  intros Ho Hx Htc. induction Htc as [x y Hxy|x y z Hxy _ IH].
  - apply list_elem_of_split in Hx as (l1 & l2 & ->).
    rewrite elem_of_app. right. right. by eapply ordered_edge.
  - apply IH. apply list_elem_of_split in Hx as (l1 & l2 & ->).
    rewrite elem_of_app. right. right. by eapply ordered_edge.
Qed.

Lemma ordered_acyclic l x : ordered [] l → x ∈ l → ¬ tc (edge g) x x.
Proof.
  induction l as [|a rest IH]; intros Ho Hx Htc.
  { by apply not_elem_of_nil in Hx. }
  pose proof Ho as (Ha & He & Hr).
  apply elem_of_cons in Hx as [->|Hx]; [|by eapply IH].
  apply Ha. apply tc_rtc in Htc as Hrtc.
  inversion Htc as [? ? Hay|? v ? Hav Hva]; subst.
  - destruct (He a Hay) as [?|Hb]; [done|by apply not_elem_of_nil in Hb].
  - destruct (He v Hav) as [Hv|Hb]; [|by apply not_elem_of_nil in Hb].
    by apply (ordered_closed rest v a).
Qed.

(** No back edge was met exactly when the graph has no cycle. *)
Lemma cycle_detector_sound :
  back_edges (depth_first_search g) = [] → acyclic g.
Proof.
  intros Hb u Htc.
  pose proof depth_first_search_inv as [_ Ho _]. rewrite Hb in Ho.
  assert (u < num_vertices g) as Hu.
  { inversion Htc as [? ? He|? v ? He _]; subst; by apply Hwf in He as []. }
  eapply ordered_acyclic; [done|by apply depth_first_search_all|done].
Qed.

Lemma cycle_detector_complete :
  acyclic g → back_edges (depth_first_search g) = [].
Proof.
  intros Hac. pose proof depth_first_search_inv as [_ _ Hb].
  destruct (back_edges (depth_first_search g)) as [|[x v] B]; [done|].
  destruct (Hb x v) as [_ Htc]; [by left|]. by apply Hac in Htc.
Qed.

Lemma cycle_detector_src u w B :
  back_edges (depth_first_search g) = (u, w) :: B → edge g u w.
Proof.
  intros HB. pose proof depth_first_search_inv as [_ _ Hb].
  apply Hb. rewrite HB. by left.
Qed.

Lemma topological_sort_acyclic :
  acyclic g → topological_sort g = Some (reverse (finished (depth_first_search g))).
Proof.
  intros Hac. unfold topological_sort. by rewrite cycle_detector_complete.
Qed.

Lemma topological_sort_spec c :
  topological_sort g = Some c →
  NoDup c ∧ (∀ v, v < num_vertices g → v ∈ c) ∧
  ∀ l1 u l2 v, c = l1 ++ u :: l2 → edge g u v → v ∈ l1.
Proof.
  unfold topological_sort. destruct (back_edges _) eqn:Hb; [|done].
  intros [= <-]. pose proof depth_first_search_inv as [_ Ho _]. rewrite Hb in Ho.
  split_and!.
  - rewrite reverse_Permutation. by eapply ordered_NoDup.
  - intros v Hv. rewrite elem_of_reverse. by apply depth_first_search_all.
  - intros l1 u l2 v Hc Huv.
    apply (f_equal reverse) in Hc. rewrite reverse_involutive in Hc.
    rewrite reverse_app, reverse_cons, <- app_assoc in Hc. simpl in Hc.
    rewrite <- elem_of_reverse. by eapply ordered_edge.
Qed.

End dfs_facts.

End Graph.

(** ** Exceptions and the collaborators of the engine *)

(** What a call can raise: [Base::RuntimeError] with its message (all the
    engine throws itself), an exception of a collaborator (property access,
    evaluation, parser, reader), boost's [not_a_dag], and the dereference
    of a null pointer. *)
Inductive exn : Type :=
  | RuntimeError (msg : string)
  | HostError (msg : string)
  | NotADag
  | NullPointer.

Definition result (A : Type) : Type := exn + A.

Definition result_bind {A B : Type} (r : result A) (k : A → result B)
  : result B :=
  match r with
  | inl e => inl e
  | inr a => k a
  end.

(** A loop over a container whose body may throw. *)
Fixpoint result_foldl {A B : Type} (f : B → A → result B) (b : B)
    (l : list A) : result B :=
  match l with
  | [] => inr b
  | a :: l' => result_bind (f b a) (λ b', result_foldl f b' l')
  end.

Definition string_empty (s : string) : bool :=
  match s with
  | EmptyString => true
  | String _ _ => false
  end.

(** [std::map::find] on the iteration sequence of a map. *)
Fixpoint assoc_find {K V : Type} `{EqDecision K} (k : K) (l : list (K * V))
  : option V :=
  match l with
  | [] => None
  | (k', v) :: l' => if decide (k = k') then Some v else assoc_find k l'
  end.

(** Modelled from the spec: [Base::XMLReader] (not under src/) restricted to
    the elements of the persisted representation. [EngineElement count]
    is [<ExpressionEngine count="N">] with [count] the integer read through
    [getAttributeAsFloat]; [ExpressionElement] is one [<Expression/>] child
    with its attributes decoded, the comment being optional. *)
Inductive XMLElement : Type :=
  | EngineElement (count : Z)
  | ExpressionElement (path expression : string) (comment : option string)
  | OtherElement (name : string).

(** Modelled from the spec: the reader is what is left of its input. *)
Definition XMLReader : Type := list XMLElement.

(** Modelled from the spec: [readElement(name)] skips to the next start
    element called [name] and fails at the end of the input. *)
Fixpoint readEngineElement (r : XMLReader) : result (Z * XMLReader) :=
  match r with
  | [] => inl (HostError "end of document")
  | EngineElement n :: r' => inr (n, r')
  | _ :: r' => readEngineElement r'
  end.

(** Modelled from the spec: the same for an [<Expression/>] element. *)
Fixpoint readExpressionElement (r : XMLReader)
  : result (string * string * option string * XMLReader) :=
  match r with
  | [] => inl (HostError "end of document")
  | ExpressionElement p e c :: r' => inr (p, e, c, r')
  | _ :: r' => readExpressionElement r'
  end.

Section Engine.

(** [Path] is [App::ObjectIdentifier], [Obj] a property container
    ([App::DocumentObject] when [isDocumentObject] holds), [Property] an
    [App::Property], [Expr] an [App::Expression] object compared by
    identity as [boost::shared_ptr] does, [Value] a [boost::any], and
    [Host] the values held by the properties of the document. *)
Context {Path Obj Property Expr Value Host : Type}.
Context `{Countable Path} `{EqDecision Obj} `{EqDecision Expr}.

(** [ExpressionDeps]: object → property name → identifiers, in iteration
    order. *)
Definition ExpressionDeps : Type := list (Obj * list (string * list Path)).

(** The interfaces the engine consumes; none of them is under src/. *)
Record Collaborators : Type := mkCollaborators {
  (* the engine as an App::Property *)
  getContainer : option Obj;
  isDocumentObject : Obj → bool;
  (* App::ObjectIdentifier *)
  oid_getProperty : Path → option (Property * Z);
  oid_canonicalPath : Path → Path;
  oid_resolveErrorString : Path → string;
  oid_toString : Path → string;
  oid_getDocumentObject : Path → option Obj;
  oid_parse : option Obj → string → result Path;
  oid_default : Path;
  (* App::Property *)
  prop_getContainer : Property → option Obj;
  prop_isExpressionEngine : Property → bool;
  prop_testStatusOutput : Property → bool;
  prop_getType : Property → Z;
  Prop_Output : Z;
  prop_getPathValue : Property → Path → result unit;
  prop_setPathValue : Property → Path → Value → Host → result Host;
  (* App::DocumentObject *)
  getInListEx : Obj → list Obj;
  getNameInDocument : Obj → option string;
  getDocumentName : Obj → string;
  (* App::Expression *)
  getDeps : Expr → ExpressionDeps;
  getDepObjects : Expr → list (option Obj);
  expr_copy : Expr → Expr;
  expr_eval : Expr → Host → result Value;
  expr_parse : option Obj → string → result Expr
}.

Variable W : Collaborators.

(** [freecad_dynamic_cast<DocumentObject>(c)]. *)
Definition dynamic_cast (c : option Obj) : option Obj :=
  match c with
  | Some o => if isDocumentObject W o then Some o else None
  | None => None
  end.

Definition objName (obj : option Obj) : string :=
  match obj with
  | Some o =>
      match getNameInDocument W o with
      | Some name => getDocumentName W o +:+ "#" +:+ name
      | None => "?"
      end
  | None => "?"
  end.

(** A stored binding. Its expression is never null: [setValue] stores only
    what it was given under [if (expr)], and the parser returns an
    expression or throws. *)
Record ExpressionInfo : Type := mkExpressionInfo {
  expression : Expr;
  comment : string
}.

(** The constructor [ExpressionInfo(expression, comment)]: a null comment
    leaves the string empty. *)
Definition newExpressionInfo (e : Expr) (c : option string) : ExpressionInfo :=
  mkExpressionInfo e (default "" c).

(** Calls the engine makes on the document, in the order it makes them. *)
Inductive Event : Type :=
  | AtomicChangeBegin
  | AtomicChangeEnd
  | AboutToSetValue
  | HasSetValue
  | ExpressionChanged (p : Path)
  | AddBackLink (o parent : Obj)
  | RemoveBackLink (o parent : Obj)
  | SetPathValue (p : Path) (v : Value).

Record EngineState : Type := mkEngineState {
  expressions : gmap Path ExpressionInfo;
  restoredExpressions : gmap Path ExpressionInfo;
  running : bool;
  validator : option (Path → Expr → string);
  host : Host;
  trace : list Event
}.

Definition set_expressions (m : gmap Path ExpressionInfo) (st : EngineState)
  : EngineState :=
  mkEngineState m (restoredExpressions st) (running st) (validator st)
    (host st) (trace st).

Definition set_restoredExpressions (m : gmap Path ExpressionInfo)
    (st : EngineState) : EngineState :=
  mkEngineState (expressions st) m (running st) (validator st) (host st)
    (trace st).

Definition set_running (b : bool) (st : EngineState) : EngineState :=
  mkEngineState (expressions st) (restoredExpressions st) b (validator st)
    (host st) (trace st).

Definition set_validator (f : option (Path → Expr → string))
    (st : EngineState) : EngineState :=
  mkEngineState (expressions st) (restoredExpressions st) (running st) f
    (host st) (trace st).

Definition set_host (h : Host) (st : EngineState) : EngineState :=
  mkEngineState (expressions st) (restoredExpressions st) (running st)
    (validator st) h (trace st).

Definition emit (ev : Event) (st : EngineState) : EngineState :=
  mkEngineState (expressions st) (restoredExpressions st) (running st)
    (validator st) (host st) (trace st ++ [ev]).

(** The engine as constructed: nothing bound, not running, no validator. *)
Definition newEngine (h : Host) : EngineState :=
  mkEngineState ∅ ∅ false None h [].

(** *** Methods as state transformers that may throw *)

Definition M (A : Type) : Type := EngineState → result A * EngineState.

Definition ret {A : Type} (a : A) : M A := λ st, (inr a, st).

Definition bind {A B : Type} (m : M A) (k : A → M B) : M B :=
  λ st, match m st with
        | (inl e, st') => (inl e, st')
        | (inr a, st') => k a st'
        end.

Definition throw {A : Type} (e : exn) : M A := λ st, (inl e, st).

Definition lift {A : Type} (r : result A) : M A := λ st, (r, st).

Definition get : M EngineState := λ st, (inr st, st).

Definition modify (f : EngineState → EngineState) : M unit :=
  λ st, (inr tt, f st).

(** A scope guarded by an object whose destructor runs on every exit. *)
Definition scoped {A : Type} (enter leave : EngineState → EngineState)
    (body : M A) : M A :=
  λ st, let '(r, st') := body (enter st) in (r, leave st').

Fixpoint forM {A : Type} (l : list A) (f : A → M unit) : M unit :=
  match l with
  | [] => ret tt
  | a :: l' => bind (f a) (λ _, forM l' f)
  end.

Notation "'let*' x ':=' m 'in' k" := (bind m (λ x, k))
  (at level 10, x name, m at level 100, k at level 200, only parsing).
Notation "m ';;' k" := (bind m (λ _, k))
  (at level 100, k at level 200, right associativity, only parsing).

(** The owner the back-links point to: [dynamic_cast<App::DocumentObject*>
    (getContainer())]. *)
Definition docObj : option Obj := dynamic_cast (getContainer W).

(** *** canonicalPath (lines 249-273) *)

Definition canonicalPath (p : Path) : result Path :=
  match docObj with
  | None =>
      inl (RuntimeError
             "PropertyExpressionEngine must be owned by a DocumentObject.")
  | Some _ =>
      match oid_getProperty W p with
      | None => inl (RuntimeError (oid_resolveErrorString W p))
      | Some (prop, ptype) =>
          if bool_decide (ptype ≠ 0%Z)
             || bool_decide (prop_getContainer W prop ≠ getContainer W)
          then inr p
          else if prop_isExpressionEngine W prop then inr p
          else inr (oid_canonicalPath W p)
      end
  end.

(** *** buildGraphStructures (lines 210-241) *)

(** [nodes], [revNodes] and [edges]. *)
Definition GraphStructures : Type :=
  gmap Path nat * gmap nat Path * list (nat * nat).

(** The body of the innermost loop: one identifier of one dependency. *)
Definition addDependency (path : Path)
    (acc : gmap Path nat * list (nat * nat)) (oid : Path)
  : gmap Path nat * list (nat * nat) :=
  let cPath := oid_canonicalPath W oid in
  let nodes :=
    match acc.1 !! cPath with
    | None => <[cPath := size acc.1]> acc.1
    | Some _ => acc.1
    end in
  (nodes, acc.2 ++ [(default 0 (nodes !! path), default 0 (nodes !! cPath))]).

(** The loop over the identifiers filed under one property name; the
    entries with an empty name are skipped. *)
Definition addPropertyDeps (path : Path)
    (acc : gmap Path nat * list (nat * nat)) (info : string * list Path)
  : gmap Path nat * list (nat * nat) :=
  if string_empty info.1 then acc else foldl (addDependency path) acc info.2.

Definition addObjectDeps (path : Path)
    (acc : gmap Path nat * list (nat * nat))
    (dep : Obj * list (string * list Path))
  : gmap Path nat * list (nat * nat) :=
  foldl (addPropertyDeps path) acc dep.2.

Definition buildGraphStructures (path : Path) (expr : Expr)
    (gs : GraphStructures) : GraphStructures :=
  let '(nodes, revNodes, edges) := gs in
  let '(nodes1, revNodes1) :=
    match nodes !! path with
    | None =>
        let s := size nodes in (<[path := s]> nodes, <[s := path]> revNodes)
    | Some i => (nodes, <[i := path]> revNodes)
    end in
  let '(nodes2, edges2) :=
    foldl (addObjectDeps path) (nodes1, edges) (getDeps W expr) in
  (nodes2, revNodes1, edges2).

(** *** buildGraph (lines 469-506) *)

Definition is_output (prop : Property) : bool :=
  prop_testStatusOutput W prop
  || bool_decide (Z.land (prop_getType W prop) (Prop_Output W) ≠ 0%Z).

(** The body of the loop over the expressions, with the output filter. *)
Definition buildGraphStep (output : Z) (gs : GraphStructures)
    (it : Path * ExpressionInfo) : result GraphStructures :=
  if bool_decide (0 ≤ output)%Z then
    match oid_getProperty W it.1 with
    | None => inl (RuntimeError "Path does not resolve to a property.")
    | Some (prop, _) =>
        if bool_decide (is_output prop ≠ bool_decide (0 < output)%Z)
        then inr gs
        else inr (buildGraphStructures it.1 (expression it.2) gs)
    end
  else inr (buildGraphStructures it.1 (expression it.2) gs).

Definition makeGraph (revNodes : gmap nat Path) (edges : list (nat * nat))
  : Graph.DiGraph :=
  foldl (λ g e, Graph.add_edge e.1 e.2 g) (Graph.new_graph (size revNodes))
    edges.

Definition cyclicMessage (revNodes : gmap nat Path) (src : Z) : string :=
  oid_toString W (default (oid_default W) (revNodes !! Z.to_nat src))
  +:+ " reference creates a cyclic dependency.".

(** Both callers pass a fresh [revNodes] and a fresh graph, which are the
    results here. *)
Definition buildGraph (exprs : gmap Path ExpressionInfo) (output : Z)
  : result (gmap nat Path * Graph.DiGraph) :=
  result_bind (result_foldl (buildGraphStep output) (∅, ∅, []) (map_to_list exprs))
    (λ gs,
       let '(_, revNodes, edges) := gs in
       let g := makeGraph revNodes edges in
       let '(has_cycle, src) := Graph.cycle_detector (Graph.depth_first_search g) in
       if has_cycle then inl (RuntimeError (cyclicMessage revNodes src))
       else inr (revNodes, g)).

(** Modelled from the spec: the default of the [output] parameter, declared
    in PropertyExpressionEngine.h (not under src/); -1 selects every
    binding. *)
Definition default_output : Z := (-1)%Z.

(** *** computeEvaluationOrder (lines 514-532) *)

Definition computeEvaluationOrder (output : Z) (st : EngineState)
  : result (list Path) :=
  result_bind (buildGraph (expressions st) output)
    (λ '(revNodes, g),
       match Graph.topological_sort g with
       | None => inl NotADag
       | Some c => inr (omap (λ i, revNodes !! i) c)
       end).

(** *** validateExpression (lines 680-725) *)

(** [inList.count(docObj)] for a possibly null [docObj]. *)
Definition inListCount (inList : list Obj) (d : option Obj) : bool :=
  match d with
  | Some o => bool_decide (o ∈ inList)
  | None => false
  end.

(** The loop over the objects the expression depends on: the first one
    found in the in-list of the owner of the path is reported. *)
Fixpoint cyclicReference (inList : list Obj) (deps : list (option Obj))
  : option string :=
  match deps with
  | [] => None
  | d :: deps' =>
      if inListCount inList d then Some ("cyclic reference to " +:+ objName d)
      else cyclicReference inList deps'
  end.

(** [newExpressions[usePath].expression = exprClone]: an entry already
    there keeps its comment. *)
Definition withExpression (exprs : gmap Path ExpressionInfo) (usePath : Path)
    (e : Expr) : gmap Path ExpressionInfo :=
  <[usePath :=
      mkExpressionInfo e
        (match exprs !! usePath with
         | Some info => comment info
         | None => ""
         end)]> exprs.

Definition validateExpression (st : EngineState) (path : Path) (expr : Expr)
  : result string :=
  result_bind (canonicalPath path) (λ usePath,
    let error :=
      match validator st with
      | Some f => f usePath expr
      | None => ""
      end in
    if negb (string_empty error) then inr error
    else
      match oid_getDocumentObject W usePath with
      | None => inl NullPointer
      | Some pathDocObj =>
          match cyclicReference (getInListEx W pathDocObj) (getDepObjects W expr) with
          | Some msg => inr msg
          | None =>
              let newExpressions :=
                withExpression (expressions st) usePath (expr_copy W expr) in
              match buildGraph newExpressions default_output with
              | inl (RuntimeError msg) => inr msg
              | inl e => inl e
              | inr _ => inr ""
              end
          end
      end).

(** *** setValue (lines 368-441) *)

Definition removeBackLinks (parent : Obj) (e : Expr) : M unit :=
  forM (getDepObjects W e) (λ d,
    match d with
    | Some o => if bool_decide (o ≠ parent) then modify (emit (RemoveBackLink o parent))
                else ret tt
    | None => ret tt
    end).

Definition addBackLinks (parent : Obj) (e : Expr) : M unit :=
  forM (getDepObjects W e) (λ d,
    match d with
    | Some o => if bool_decide (o ≠ parent) then modify (emit (AddBackLink o parent))
                else ret tt
    | None => ret tt
    end).

(** The scope of an [AtomicPropertyChange] signaller around [body]. *)
Definition atomicChange {A : Type} (body : M A) : M A :=
  scoped (emit AtomicChangeBegin) (emit AtomicChangeEnd) body.

(** [it != expressions.end() && expr == it->second.expression]. *)
Definition sameExpression (expr : option Expr) (it : option ExpressionInfo)
  : bool :=
  match expr, it with
  | Some e, Some info => bool_decide (e = expression info)
  | _, _ => false
  end.

Definition setValue (path : Path) (expr : option Expr)
    (comment : option string) : M unit :=
  let* usePath := lift (canonicalPath path) in
  let* prop := lift (match oid_getProperty W usePath with
                     | Some (prop, _) => inr prop
                     | None => inl NullPointer
                     end) in
  lift (prop_getPathValue W prop usePath) ;;
  let* st := get in
  let it := expressions st !! usePath in
  if sameExpression expr it then ret tt
  else
    match expr with
    | Some e =>
        let* error := lift (validateExpression st usePath e) in
        if negb (string_empty error) then throw (RuntimeError error)
        else
          atomicChange (
            let parent := dynamic_cast (getContainer W) in
            match parent, it with
            | Some par, Some info => removeBackLinks par (expression info)
            | _, _ => ret tt
            end ;;
            modify (λ s, set_expressions
                           (<[usePath := newExpressionInfo e comment]> (expressions s)) s) ;;
            match parent with
            | Some par => addBackLinks par e
            | None => ret tt
            end ;;
            modify (emit (ExpressionChanged usePath)))
    | None =>
        atomicChange (
          match dynamic_cast (getContainer W), it with
          | Some par, Some info => removeBackLinks par (expression info)
          | _, _ => ret tt
          end ;;
          modify (λ s, set_expressions (delete usePath (expressions s)) s) ;;
          modify (emit (ExpressionChanged usePath)))
    end.

(** [setValidator], declared in the header. *)
Definition setValidator (f : option (Path → Expr → string)) : M unit :=
  modify (set_validator f).

(** *** getPathValue (lines 348-359) *)

Definition getPathValue (path : Path) (st : EngineState)
  : result (option ExpressionInfo) :=
  result_bind (canonicalPath path) (λ usePath, inr (expressions st !! usePath)).

(** *** execute (lines 539-596) *)

Definition executeStep (owner : Obj) (it : Path) : M unit :=
  match oid_getProperty W it with
  | None => throw (RuntimeError "Path does not resolve to a property.")
  | Some (prop, _) =>
      if bool_decide (dynamic_cast (prop_getContainer W prop) ≠ Some owner)
      then throw (RuntimeError "Invalid property owner.")
      else
        let* st := get in
        let* e := lift (match expressions st !! it with
                        | Some info => inr (expression info)
                        | None => inl NullPointer
                        end) in
        let* v := lift (expr_eval W e (host st)) in
        let* h := lift (prop_setPathValue W prop it v (host st)) in
        modify (λ s, emit (SetPathValue it v) (set_host h s))
  end.

Definition execute (output : Z) : M unit :=
  match docObj with
  | None =>
      throw (RuntimeError
               "PropertyExpressionEngine must be owned by a DocumentObject.")
  | Some owner =>
      let* st := get in
      if running st then ret tt
      else
        scoped (set_running true) (set_running false) (
          let* st := get in
          let* evaluationOrder := lift (computeEvaluationOrder output st) in
          forM evaluationOrder (executeStep owner))
  end.

(** *** getDocumentObjectDeps, getPathsToDocumentObject (lines 603-640) *)

Definition getDocumentObjectDeps (st : EngineState) : list Obj :=
  match docObj with
  | None => []
  | Some owner =>
      flat_map (λ v : Path * ExpressionInfo,
                  omap (λ d : option Obj,
                          match d with
                          | Some o => if bool_decide (o ≠ owner) then Some o else None
                          | None => None
                          end)
                       (getDepObjects W (expression v.2)))
        (map_to_list (expressions st))
  end.

Definition getPathsToDocumentObject (obj : Obj) (st : EngineState)
  : list Path :=
  match docObj with
  | None => []
  | Some owner =>
      if bool_decide (owner = obj) then []
      else
        flat_map (λ v : Path * ExpressionInfo,
                    match assoc_find obj (getDeps W (expression v.2)) with
                    | None => []
                    | Some props => flat_map snd props
                    end)
          (map_to_list (expressions st))
  end.

(** *** breakDependency (lines 789-801) *)

Definition breakDependency (objs : list Obj) : M unit :=
  let* st0 := get in
  let depSet := getDocumentObjectDeps st0 in
  forM objs (λ obj,
    if bool_decide (obj ∈ depSet) then
      let* st := get in
      forM (getPathsToDocumentObject obj st) (λ id, setValue id None None)
    else ret tt).

(** *** renameExpressions (lines 732-757) *)

Definition renameStep (canonicalPaths : gmap Path Path)
    (newExpressions : gmap Path ExpressionInfo) (i : Path * ExpressionInfo)
  : gmap Path ExpressionInfo :=
  match canonicalPaths !! i.1 with
  | Some j => <[j := i.2]> newExpressions
  | None => <[i.1 := i.2]> newExpressions
  end.

(** [paths] is the iteration sequence of the [std::map] passed in. *)
Definition renameExpressions (paths : list (Path * Path)) : M unit :=
  let* canonicalPaths :=
    lift (result_foldl
            (λ (m : gmap Path Path) (i : Path * Path),
               result_bind (canonicalPath i.1) (λ c, inr (<[c := i.2]> m)))
            ∅ paths) in
  let* st := get in
  let newExpressions :=
    foldl (renameStep canonicalPaths) ∅ (map_to_list (expressions st)) in
  modify (emit AboutToSetValue) ;;
  modify (set_expressions newExpressions) ;;
  forM (map_to_list newExpressions) (λ i, modify (emit (ExpressionChanged i.1))) ;;
  modify (emit HasSetValue).

(** *** Restore and onDocumentRestored (lines 180-199, 334-340) *)

Fixpoint restoreLoop (count : nat) (reader : XMLReader) : M XMLReader :=
  match count with
  | 0 => ret reader
  | S count' =>
      let owner := dynamic_cast (getContainer W) in
      let* el := lift (readExpressionElement reader) in
      let '(p, e, c, reader') := el in
      let* path := lift (oid_parse W owner p) in
      let* expression := lift (expr_parse W owner e) in
      modify (λ s, set_restoredExpressions
                     (<[path := newExpressionInfo expression c]> (restoredExpressions s)) s) ;;
      restoreLoop count' reader'
  end.

(** The closing [readEndElement] reads nothing the engine uses. *)
Definition Restore (reader : XMLReader) : M XMLReader :=
  let* el := lift (readEngineElement reader) in
  let '(count, reader1) := el in
  modify (set_restoredExpressions ∅) ;;
  restoreLoop (Z.to_nat count) reader1.

Definition onDocumentRestored : M unit :=
  atomicChange (
    let* st := get in
    forM (map_to_list (restoredExpressions st)) (λ it,
      setValue it.1 (Some (expression it.2))
        (if negb (string_empty (comment it.2)) then Some (comment it.2) else None))).

(** ** The vocabulary of the statements *)

(** [evs] appended to the calls made so far. *)
Definition emits (evs : list Event) (st : EngineState) : EngineState :=
  mkEngineState (expressions st) (restoredExpressions st) (running st)
    (validator st) (host st) (trace st ++ evs).

(** The back-link calls made for the objects an expression depends on. *)
Definition backLinkEvents (mk : Obj → Obj → Event) (parent : option Obj)
    (e : option Expr) : list Event :=
  match parent, e with
  | Some par, Some e =>
      omap (λ d : option Obj,
              match d with
              | Some o => if bool_decide (o ≠ par) then Some (mk o par) else None
              | None => None
              end) (getDepObjects W e)
  | _, _ => []
  end.

(** The state [setValue] leaves when it installs [e] at [usePath]. *)
Definition installed (st : EngineState) (usePath : Path) (e : Expr)
    (c : option string) : EngineState :=
  mkEngineState (<[usePath := newExpressionInfo e c]> (expressions st))
    (restoredExpressions st) (running st) (validator st) (host st)
    (trace st ++ [AtomicChangeBegin]
       ++ backLinkEvents RemoveBackLink docObj (expression <$> expressions st !! usePath)
       ++ backLinkEvents AddBackLink docObj (Some e)
       ++ [ExpressionChanged usePath; AtomicChangeEnd]).

(** The state [setValue] leaves when it erases the entry of [usePath]. *)
Definition erased (st : EngineState) (usePath : Path) : EngineState :=
  mkEngineState (delete usePath (expressions st))
    (restoredExpressions st) (running st) (validator st) (host st)
    (trace st ++ [AtomicChangeBegin]
       ++ backLinkEvents RemoveBackLink docObj (expression <$> expressions st !! usePath)
       ++ [ExpressionChanged usePath; AtomicChangeEnd]).

(** The guard of line 374: the property of the path exists and reading the
    value at the path does not throw. *)
Definition readable (usePath : Path) : Prop :=
  ∃ prop ptype, oid_getProperty W usePath = Some (prop, ptype) ∧
                prop_getPathValue W prop usePath = inr tt.

(** The identifiers [buildGraphStructures] reaches in the grouping
    object → property → identifiers: those filed under a non-empty
    property name. *)
Definition depIdentifiers (e : Expr) : list Path :=
  flat_map (λ dep : Obj * list (string * list Path),
              flat_map (λ info : string * list Path,
                          if string_empty info.1 then [] else info.2) dep.2)
    (getDeps W e).

Definition canonicalDeps (e : Expr) : list Path :=
  oid_canonicalPath W <$> depIdentifiers e.

(** [nodes] numbers its keys injectively with the integers below its size. *)
Definition nodes_ok (nodes : gmap Path nat) : Prop :=
  ∀ p i, nodes !! p = Some i → i < size nodes ∧ ∀ q, nodes !! q = Some i → q = p.

(** Whether the output filter of [buildGraph] lets a binding through. *)
Definition selected (output : Z) (it : Path * ExpressionInfo) : bool :=
  if bool_decide (0 ≤ output)%Z then
    match oid_getProperty W it.1 with
    | None => false
    | Some (prop, _) => bool_decide (is_output prop = bool_decide (0 < output)%Z)
    end
  else true.

(** The dependency edges of a list of bindings: from the bound path to each
    canonical dependency path of its expression. *)
Definition depL (L : list (Path * ExpressionInfo)) (p q : Path) : Prop :=
  ∃ info, (p, info) ∈ L ∧ q ∈ canonicalDeps (expression info).

(** The dependency graph over the bindings of a store. *)
Definition dep_edge (m : gmap Path ExpressionInfo) (p q : Path) : Prop :=
  ∃ info, m !! p = Some info ∧ q ∈ canonicalDeps (expression info).

Definition acyclic_store (m : gmap Path ExpressionInfo) : Prop :=
  ∀ p, ¬ tc (dep_edge m) p p.

(** What the structures hold once the bindings [L] have been added. *)
Record graph_inv (L : list (Path * ExpressionInfo)) (nodes : gmap Path nat)
    (revNodes : gmap nat Path) (edges : list (nat * nat)) : Prop := mkGraphInv {
  gi_nodes : nodes_ok nodes;
  gi_rev : ∀ i p, revNodes !! i = Some p ↔ nodes !! p = Some i ∧ p ∈ L.*1;
  gi_out : ∀ p, p ∈ L.*1 → is_Some (nodes !! p);
  gi_sound : ∀ i j, (i, j) ∈ edges →
    ∃ p q, depL L p q ∧ nodes !! p = Some i ∧ nodes !! q = Some j;
  gi_complete : ∀ p q, depL L p q →
    ∃ i j, nodes !! p = Some i ∧ nodes !! q = Some j ∧ (i, j) ∈ edges
}.

(** The states the engine reaches from its construction through calls of
    [setValue], whatever they return, interleaved with anything that leaves
    the bindings alone (a new validator, values written to the document,
    restored bindings being staged). *)
Inductive reachable : EngineState → Prop :=
  | reachable_new h : reachable (newEngine h)
  | reachable_setValue st path expr c r st' :
      reachable st → setValue path expr c st = (r, st') → reachable st'
  | reachable_frame st st' :
      reachable st → expressions st' = expressions st → reachable st'.

(** The writes of [execute], as calls on the document. *)
Definition writeEvents (ws : list (Path * Value)) : list Event :=
  (λ w, SetPathValue w.1 w.2) <$> ws.

(** One [<Expression/>] element as [Restore] stages it. *)
Definition parseEntry (x : string * string * option string)
  : result (Path * ExpressionInfo) :=
  result_bind (oid_parse W (dynamic_cast (getContainer W)) x.1.1) (λ path,
    result_bind (expr_parse W (dynamic_cast (getContainer W)) x.1.2) (λ e,
      inr (path, newExpressionInfo e x.2))).

Definition toElement (x : string * string * option string) : XMLElement :=
  ExpressionElement x.1.1 x.1.2 x.2.

Definition stage (m : gmap Path ExpressionInfo) (parsed : list (Path * ExpressionInfo))
  : gmap Path ExpressionInfo :=
  foldl (λ m x, <[x.1 := x.2]> m) m parsed.

(** ** Properties of the engine *)

(** Runs the plumbing of a method: sequencing, lifting, reading the state,
    returning and throwing. *)
Ltac unfold_M := unfold bind, lift, get, ret, throw.

Lemma string_empty_true s : string_empty s = true ↔ s = "".
Proof. destruct s; simpl; split; congruence. Qed.

Lemma string_empty_false s : string_empty s = false ↔ s ≠ "".
Proof. destruct s; simpl; split; congruence. Qed.

Lemma emits_nil st : emits [] st = st.
Proof. destruct st; unfold emits; simpl. by rewrite app_nil_r. Qed.

Lemma removeBackLinks_spec par e st :
  removeBackLinks par e st
  = (inr tt, emits (backLinkEvents RemoveBackLink (Some par) (Some e)) st).
Proof.
  unfold removeBackLinks, backLinkEvents.
  induction (getDepObjects W e) as [|d ds IH] in st |- *; simpl.
  { by rewrite emits_nil. }
  unfold bind. destruct d as [o|]; [case_bool_decide|]; simpl; rewrite IH;
    destruct st; unfold emits, emit; simpl; by rewrite <- ?app_assoc.
Qed.

Lemma addBackLinks_spec par e st :
  addBackLinks par e st
  = (inr tt, emits (backLinkEvents AddBackLink (Some par) (Some e)) st).
Proof.
  unfold addBackLinks, backLinkEvents.
  induction (getDepObjects W e) as [|d ds IH] in st |- *; simpl.
  { by rewrite emits_nil. }
  unfold bind. destruct d as [o|]; [case_bool_decide|]; simpl; rewrite IH;
    destruct st; unfold emits, emit; simpl; by rewrite <- ?app_assoc.
Qed.

(** What a call of [setValue] can do. *)
Lemma setValue_inv path expr c st r st' :
  setValue path expr c st = (r, st') →
  (∃ err, r = inl err ∧ st' = st) ∨
  (r = inr tt ∧ ∃ usePath,
     canonicalPath path = inr usePath ∧ readable usePath ∧
     ((sameExpression expr (expressions st !! usePath) = true ∧ st' = st) ∨
      (sameExpression expr (expressions st !! usePath) = false ∧
       ∃ e, expr = Some e ∧ validateExpression st usePath e = inr "" ∧
            st' = installed st usePath e c) ∨
      (expr = None ∧ st' = erased st usePath))).
Proof.
  unfold setValue; unfold_M.
  destruct (canonicalPath path) as [err|usePath] eqn:Hc.
  { intros [= <- <-]. left. eauto. }
  destruct (oid_getProperty W usePath) as [[prop ptype]|] eqn:Hp;
    [|intros [= <- <-]; left; eauto].
  destruct (prop_getPathValue W prop usePath) as [err|[]] eqn:Hr.
  { intros [= <- <-]. left. eauto. }
  assert (readable usePath) as Hread by (by exists prop, ptype).
  destruct (sameExpression expr (expressions st !! usePath)) eqn:Hs.
  { intros [= <- <-]. right. split; [done|]. exists usePath. auto. }
  destruct expr as [e|].
  - destruct (validateExpression st usePath e) as [err|error] eqn:Hv.
    { intros [= <- <-]. left. eauto. }
    destruct (string_empty error) eqn:He; simpl.
    2:{ intros [= <- <-]. left. eauto. }
    apply string_empty_true in He as ->.
    unfold atomicChange, scoped, bind, modify.
    intros Heq. right.
    unfold docObj in *.
    destruct (dynamic_cast (getContainer W)) as [par|] eqn:Hpar.
    + destruct (expressions st !! usePath) as [info|] eqn:Hit.
      * rewrite removeBackLinks_spec in Heq. rewrite addBackLinks_spec in Heq.
        injection Heq as <- <-. split; [done|]. exists usePath.
        split_and!; [done|done|]. right. left. split; [by rewrite ?Hit|]. exists e.
        split_and!; [done|done|].
        unfold installed, docObj. rewrite Hpar, Hit. destruct st; simpl.
        unfold emits, emit, set_expressions; simpl.
        f_equal. by rewrite <- !app_assoc.
      * simpl in Heq. rewrite addBackLinks_spec in Heq.
        injection Heq as <- <-. split; [done|]. exists usePath.
        split_and!; [done|done|]. right. left. split; [by rewrite ?Hit|]. exists e.
        split_and!; [done|done|].
        unfold installed, docObj. rewrite Hpar, Hit. destruct st; simpl.
        unfold emits, emit, set_expressions; simpl.
        f_equal. by rewrite <- !app_assoc.
    + simpl in Heq. injection Heq as <- <-. split; [done|]. exists usePath.
      split_and!; [done|done|]. right. left. split; [by rewrite ?Hit|]. exists e.
      split_and!; [done|done|].
      unfold installed, docObj. rewrite Hpar. destruct st; simpl.
      unfold emits, emit, set_expressions; simpl.
      f_equal. destruct (_ !! _); simpl; by rewrite <- ?app_assoc.
  - unfold atomicChange, scoped, bind, modify. intros Heq. right.
    unfold docObj in *.
    destruct (dynamic_cast (getContainer W)) as [par|] eqn:Hpar.
    + destruct (expressions st !! usePath) as [info|] eqn:Hit.
      * rewrite removeBackLinks_spec in Heq.
        injection Heq as <- <-. split; [done|]. exists usePath.
        split_and!; [done|done|]. right. right. split; [done|].
        unfold erased, docObj. rewrite Hpar, Hit. destruct st; simpl.
        unfold emits, emit, set_expressions; simpl.
        f_equal. by rewrite <- !app_assoc.
      * simpl in Heq. injection Heq as <- <-. split; [done|]. exists usePath.
        split_and!; [done|done|]. right. right. split; [done|].
        unfold erased, docObj. rewrite Hpar, Hit. destruct st; simpl.
        unfold emits, emit, set_expressions; simpl.
        f_equal. by rewrite <- !app_assoc.
    + simpl in Heq. injection Heq as <- <-. split; [done|]. exists usePath.
      split_and!; [done|done|]. right. right. split; [done|].
      unfold erased, docObj. rewrite Hpar. destruct st; simpl.
      unfold emits, emit, set_expressions; simpl.
      f_equal. destruct (_ !! _); simpl; by rewrite <- ?app_assoc.
Qed.

Lemma setValue_same path expr c st usePath :
  canonicalPath path = inr usePath → readable usePath →
  sameExpression expr (expressions st !! usePath) = true →
  setValue path expr c st = (inr tt, st).
Proof.
  intros Hc (prop & ptype & Hp & Hr) Hs.
  unfold setValue; unfold_M. by rewrite Hc, Hp, Hr, Hs.
Qed.

Lemma setValue_invalid path e c st usePath msg :
  canonicalPath path = inr usePath → readable usePath →
  sameExpression (Some e) (expressions st !! usePath) = false →
  validateExpression st usePath e = inr msg → msg ≠ "" →
  setValue path (Some e) c st = (inl (RuntimeError msg), st).
Proof.
  intros Hc (prop & ptype & Hp & Hr) Hs Hv Hmsg.
  unfold setValue; unfold_M. rewrite Hc, Hp, Hr, Hs, Hv.
  apply string_empty_false in Hmsg. by rewrite Hmsg.
Qed.

Lemma setValue_unreadable path expr c st usePath :
  canonicalPath path = inr usePath → ¬ readable usePath →
  ∃ err, setValue path expr c st = (inl err, st).
Proof.
  intros Hc Hn. unfold setValue; unfold_M. rewrite Hc.
  destruct (oid_getProperty W usePath) as [[prop ptype]|] eqn:Hp; [|eauto].
  destruct (prop_getPathValue W prop usePath) as [err|[]] eqn:Hr; [eauto|].
  destruct Hn. by exists prop, ptype.
Qed.

Lemma setValue_failed path expr c st err st' :
  setValue path expr c st = (inl err, st') → st' = st.
Proof.
  intros [(? & _ & ->)|([=] & _)]%setValue_inv. done.
Qed.

Lemma validateExpression_canonical st path usePath e :
  canonicalPath path = inr usePath → canonicalPath usePath = inr usePath →
  validateExpression st usePath e = validateExpression st path e.
Proof. intros Hc Hi. unfold validateExpression. by rewrite Hc, Hi. Qed.

(** *** The re-entrancy guard of [execute] *)

(** C4. A call of [execute] made while the engine is executing returns
    success at once and leaves the whole state as it was: nothing is
    evaluated and nothing is written. A call made while it is not executing
    leaves [running] false however it ends, by return or by exception. *)
Theorem execute_reentrancy (output : Z) (st : EngineState) :
  (is_Some docObj → running st = true → execute output st = (inr tt, st)) ∧
  (running st = false → running (execute output st).2 = false).
Proof.
  unfold execute. split.
  - intros [owner ->] Hr. unfold bind, get, ret. by rewrite Hr.
  - intros Hr. destruct docObj as [owner|]; [|done].
    unfold bind, get, ret, scoped. rewrite Hr.
    unfold lift. destruct (computeEvaluationOrder _ _) as [err|order]; [done|].
    by destruct (forM order _ _).
Qed.

(** *** Lookup *)

(** C10. [getPathValue] raises when the engine is not owned by a document
    object or when the path does not resolve to a property; it answers
    "no binding" only for a path that was canonicalized and has no entry. *)
Theorem getPathValue_not_total (path : Path) (st : EngineState) :
  (docObj = None ∨ oid_getProperty W path = None →
   ∃ msg, getPathValue path st = inl (RuntimeError msg)) ∧
  (getPathValue path st = inr None →
   is_Some docObj ∧ is_Some (oid_getProperty W path) ∧
   ∃ usePath, canonicalPath path = inr usePath ∧ expressions st !! usePath = None).
Proof.
  unfold getPathValue, canonicalPath. split.
  - intros [->| Hp]; [eauto|]. destruct docObj; rewrite ?Hp; simpl; eauto.
  - destruct docObj as [owner|]; [|done].
    destruct (oid_getProperty W path) as [[prop ptype]|]; [|done].
    intros Hl. split_and!; [done|done|].
    repeat case_match; simpl in Hl; eexists; split; try done; congruence.
Qed.

(** *** Setting the expression already stored *)

(** C7, as amended. When the canonical form of the path has a binding and
    the expression passed is the very object stored there, [setValue] leaves
    the whole state untouched; it returns normally if the property accepts
    the read of line 374 and raises otherwise. *)
Theorem setValue_identical (path usePath : Path) (info : ExpressionInfo)
    (c : option string) (st : EngineState) :
  canonicalPath path = inr usePath →
  expressions st !! usePath = Some info →
  (setValue path (Some (expression info)) c st).2 = st ∧
  (readable usePath → (setValue path (Some (expression info)) c st).1 = inr tt) ∧
  (¬ readable usePath →
   ∃ err, (setValue path (Some (expression info)) c st).1 = inl err).
Proof.
  intros Hc Hit.
  assert (sameExpression (Some (expression info)) (expressions st !! usePath) = true)
    as Hs by (rewrite Hit; simpl; by apply bool_decide_eq_true).
  split_and!.
  - destruct (setValue path _ c st) as [r st'] eqn:Hset. simpl.
    apply setValue_inv in Hset as [(? & _ & ->)|(_ & up & Hc' & _ & Hcase)]; [done|].
    assert (up = usePath) as -> by congruence.
    destruct Hcase as [[_ ->]|[[? _]|[[=] _]]]; [done|congruence].
  - intros Hr. by rewrite (setValue_same _ _ _ _ usePath).
  - intros Hr. destruct (setValue_unreadable path (Some (expression info)) c st usePath)
      as [err ->]; eauto.
Qed.

(** *** Validation failures *)

(** C2, as amended. When the canonical path passes the read of line 374
    and the expression is not the object already stored there, a non-empty
    diagnostic of [validateExpression] makes [setValue] raise it and leave
    the whole state (bindings, back-links, notifications) as it was. *)
Theorem setValue_validation_failed (path usePath : Path) (e : Expr)
    (c : option string) (st : EngineState) (msg : string) :
  canonicalPath path = inr usePath → canonicalPath usePath = inr usePath →
  readable usePath →
  sameExpression (Some e) (expressions st !! usePath) = false →
  validateExpression st path e = inr msg → msg ≠ "" →
  setValue path (Some e) c st = (inl (RuntimeError msg), st).
Proof.
  intros Hc Hi Hr Hs Hv Hmsg. eapply setValue_invalid; try done.
  by rewrite (validateExpression_canonical st path).
Qed.

(** *** Renaming the keys of the store *)

Lemma forM_emit {A : Type} (l : list A) (ev : A → Event) st :
  forM l (λ a, modify (emit (ev a))) st = (inr tt, emits (ev <$> l) st).
Proof.
  induction l as [|a l IH] in st |- *; simpl.
  { unfold ret. by rewrite emits_nil. }
  unfold bind, modify. rewrite IH. destruct st; unfold emits, emit; simpl.
  by rewrite <- app_assoc.
Qed.

(** The store after the loop of [renameExpressions], key by key. *)
Lemma rename_fold (f : Path → Path) (l : list (Path * ExpressionInfo)) :
  ∀ acc : gmap Path ExpressionInfo,
    NoDup (f <$> l.*1) →
    (∀ k v, (k, v) ∈ l → foldl (λ m i, <[f i.1 := i.2]> m) acc l !! f k = Some v) ∧
    (∀ k', k' ∉ f <$> l.*1 → foldl (λ m i, <[f i.1 := i.2]> m) acc l !! k' = acc !! k').
Proof.
  induction l as [|[k0 v0] l IH]; intros acc Hnd; simpl.
  { split; [|done]. intros k v Hin. by apply not_elem_of_nil in Hin. }
  simpl in Hnd. apply NoDup_cons in Hnd as [Hk0 Hnd].
  destruct (IH (<[f k0 := v0]> acc) Hnd) as [IH1 IH2]. split.
  - intros k v [[= -> ->]|Hin]%elem_of_cons; [|by apply IH1].
    rewrite IH2 by done. by rewrite lookup_insert_eq.
  - intros k' Hk'. simpl in Hk'. rewrite not_elem_of_cons in Hk'.
    destruct Hk' as [Hne Hk']. rewrite IH2 by done. by rewrite lookup_insert_ne.
Qed.

Lemma elem_of_keys {V : Type} (l : list (Path * V)) (k : Path) :
  k ∈ l.*1 → ∃ v, (k, v) ∈ l.
Proof.
  intros ([k' v] & -> & Hin)%list_elem_of_fmap. by exists v.
Qed.

Lemma renameStep_single (a b : Path) (m : gmap Path ExpressionInfo)
    (i : Path * ExpressionInfo) :
  renameStep {[a := b]} m i = <[(if decide (i.1 = a) then b else i.1) := i.2]> m.
Proof.
  unfold renameStep. case_decide as Hia.
  - by rewrite Hia, lookup_singleton_eq.
  - by rewrite lookup_singleton_ne.
Qed.

Lemma rename_single (a b : Path) (m : gmap Path ExpressionInfo) :
  m !! b = None →
  foldl (renameStep {[a := b]}) ∅ (map_to_list m)
  = match m !! a with
    | Some info => <[b := info]> (delete a m)
    | None => m
    end.
Proof.
  intros Hb.
  set (f := λ k : Path, if decide (k = a) then b else k).
  assert (foldl (renameStep {[a := b]}) ∅ (map_to_list m)
          = foldl (λ m i, <[f i.1 := i.2]> m) ∅ (map_to_list m)) as ->.
  { generalize (∅ : gmap Path ExpressionInfo).
    induction (map_to_list m) as [|i l IH]; intros acc; simpl; [done|].
    by rewrite renameStep_single, IH. }
  assert (NoDup (f <$> (map_to_list m).*1)) as Hnd.
  { apply NoDup_fmap_2_strong; [|apply NoDup_fst_map_to_list].
    intros x y [vx Hx%elem_of_map_to_list]%elem_of_keys
      [vy Hy%elem_of_map_to_list]%elem_of_keys.
    unfold f. repeat case_decide; congruence. }
  destruct (rename_fold f (map_to_list m) ∅ Hnd) as [H1 H2].
  apply map_eq. intros k'.
  destruct (decide (k' ∈ f <$> (map_to_list m).*1)) as [Hin|Hout].
  - apply list_elem_of_fmap in Hin as (k & -> & [v Hkv]%elem_of_keys).
    rewrite (H1 k v Hkv). apply elem_of_map_to_list in Hkv.
    unfold f. case_decide as Hka.
    + subst k. rewrite Hkv. by rewrite lookup_insert_eq.
    + destruct (m !! a) as [info|] eqn:Ha; [|done].
      rewrite lookup_insert_ne by congruence. by rewrite lookup_delete_ne.
  - rewrite (H2 k' Hout), lookup_empty.
    assert (∀ k v, m !! k = Some v → f k ≠ k') as Hno.
    { intros k v Hkv Hfk. apply Hout, list_elem_of_fmap. exists k. split; [done|].
      apply list_elem_of_fmap. exists (k, v). split; [done|].
      by apply elem_of_map_to_list. }
    destruct (m !! a) as [info|] eqn:Ha.
    + assert (k' ≠ b) as Hkb.
      { intros ->. apply (Hno a info Ha). unfold f. by rewrite decide_True. }
      rewrite lookup_insert_ne by done.
      destruct (decide (k' = a)) as [->|Hka]; [by rewrite lookup_delete_eq|].
      rewrite lookup_delete_ne by done.
      destruct (m !! k') as [v|] eqn:Hk'; [|done].
      exfalso. apply (Hno k' v Hk'). unfold f. by rewrite decide_False.
    + destruct (m !! k') as [v|] eqn:Hk'; [|done].
      exfalso. apply (Hno k' v Hk'). unfold f. rewrite decide_False; congruence.
Qed.

Lemma renameExpressions_single (a b : Path) (st : EngineState) :
  canonicalPath a = inr a →
  ∃ st', renameExpressions [(a, b)] st = (inr tt, st') ∧
         expressions st' = foldl (renameStep {[a := b]}) ∅ (map_to_list (expressions st)) ∧
         restoredExpressions st' = restoredExpressions st ∧
         running st' = running st ∧ validator st' = validator st ∧
         host st' = host st.
Proof.
  intros Ha. unfold renameExpressions, bind, lift, get; simpl.
  rewrite Ha; simpl. rewrite forM_emit. unfold modify. eexists. split; [done|].
  by rewrite insert_empty.
Qed.

(** C6. Renaming [a] to [b] and then [b] back to [a], for canonical paths
    [a] and [b] with [b] not bound, gives back the store: the same keys,
    each with the expression and the comment it had. *)
Theorem renameExpressions_round_trip (a b : Path) (st : EngineState) :
  canonicalPath a = inr a → canonicalPath b = inr b →
  expressions st !! b = None →
  ∃ st1 st2,
    renameExpressions [(a, b)] st = (inr tt, st1) ∧
    renameExpressions [(b, a)] st1 = (inr tt, st2) ∧
    expressions st2 = expressions st.
Proof.
  intros Ha Hb Hnb.
  destruct (renameExpressions_single a b st Ha) as (st1 & Hr1 & He1 & _).
  destruct (renameExpressions_single b a st1 Hb) as (st2 & Hr2 & He2 & _).
  exists st1, st2. split_and!; [done|done|].
  rewrite He2, He1. rewrite (rename_single a b) by done.
  destruct (expressions st !! a) as [info|] eqn:Hia.
  - assert (a ≠ b) as Hab by congruence.
    rewrite rename_single.
    + rewrite lookup_insert_eq, delete_insert_eq, delete_delete.
      rewrite (delete_id (expressions st) b) by done.
      by rewrite insert_delete_eq, insert_id.
    + rewrite lookup_insert_ne by done. by rewrite lookup_delete_eq.
  - rewrite rename_single by done. by rewrite Hnb.
Qed.

(** *** The graph structures *)

Lemma foldl_flat_map {A B C : Type} (f : C → B → C) (g : A → list B)
    (l : list A) (acc : C) :
  foldl f acc (flat_map g l) = foldl (λ acc x, foldl f acc (g x)) acc l.
Proof.
  induction l as [|a l IH] in acc |- *; simpl; [done|].
  by rewrite foldl_app, IH.
Qed.

Lemma foldl_pointwise {A B : Type} (f g : B → A → B) (l : list A) (acc : B) :
  (∀ b a, f b a = g b a) → foldl f acc l = foldl g acc l.
Proof.
  intros Hfg. induction l as [|a l IH] in acc |- *; simpl; [done|].
  by rewrite Hfg, IH.
Qed.

Lemma addObjectDeps_flat path acc e :
  foldl (addObjectDeps path) acc (getDeps W e)
  = foldl (addDependency path) acc (depIdentifiers e).
Proof.
  unfold depIdentifiers. rewrite foldl_flat_map.
  apply foldl_pointwise. intros acc' dep. unfold addObjectDeps.
  rewrite foldl_flat_map. apply foldl_pointwise. intros acc'' info.
  unfold addPropertyDeps. by destruct (string_empty info.1).
Qed.

Lemma nodes_ok_empty : nodes_ok ∅.
Proof. intros p i Hp. by rewrite lookup_empty in Hp. Qed.

Lemma nodes_ok_insert nodes p :
  nodes_ok nodes → nodes !! p = None → nodes_ok (<[p := size nodes]> nodes).
Proof.
  intros Hok Hp q i. rewrite map_size_insert_None by done.
  rewrite lookup_insert. case_decide as Hq.
  - intros [= <-]. split; [lia|]. intros q'. rewrite lookup_insert.
    case_decide; [congruence|]. intros Hq'. apply Hok in Hq' as [? _]. lia.
  - intros Hi. destruct (Hok q i Hi) as [Hlt Hinj]. split; [lia|].
    intros q'. rewrite lookup_insert. case_decide; [|by apply Hinj].
    intros [= <-]. lia.
Qed.

Lemma addDependency_fold path oids :
  ∀ nodes edges i,
    nodes !! path = Some i →
    nodes ⊆ (foldl (addDependency path) (nodes, edges) oids).1 ∧
    (nodes_ok nodes → nodes_ok (foldl (addDependency path) (nodes, edges) oids).1) ∧
    (∀ q, is_Some ((foldl (addDependency path) (nodes, edges) oids).1 !! q)
          ↔ is_Some (nodes !! q) ∨ q ∈ oid_canonicalPath W <$> oids) ∧
    (foldl (addDependency path) (nodes, edges) oids).2
    = edges ++ ((λ c, (i, default 0 ((foldl (addDependency path) (nodes, edges) oids).1 !! c)))
                  <$> (oid_canonicalPath W <$> oids)).
Proof.
  induction oids as [|oid oids IH]; intros nodes edges i Hi; simpl.
  { split_and!; [done|done| |by rewrite app_nil_r].
    intros q. split; [auto|]. intros [?|Hq]; [done|]. by apply not_elem_of_nil in Hq. }
  set (c := oid_canonicalPath W oid).
  set (nodes1 := match nodes !! c with
                 | None => <[c := size nodes]> nodes
                 | Some _ => nodes
                 end).
  assert (nodes ⊆ nodes1) as Hsub.
  { unfold nodes1. destruct (nodes !! c) eqn:Hc; [done|]. by apply insert_subseteq. }
  assert (is_Some (nodes1 !! c)) as [j Hj].
  { unfold nodes1. destruct (nodes !! c) eqn:Hc; [by rewrite Hc|].
    rewrite lookup_insert_eq. eauto. }
  assert (nodes1 !! path = Some i) as Hi1 by (by eapply lookup_weaken).
  assert (addDependency path (nodes, edges) oid = (nodes1, edges ++ [(i, j)])) as ->.
  { unfold addDependency. simpl. fold c. fold nodes1. by rewrite Hi1, Hj. }
  destruct (IH nodes1 (edges ++ [(i, j)]) i Hi1) as (Hs & Hok & Hdom & He).
  split_and!.
  - by etrans.
  - intros Hn. apply Hok. unfold nodes1. destruct (nodes !! c) eqn:Hc; [done|].
    by apply nodes_ok_insert.
  - intros q. rewrite Hdom, elem_of_cons. unfold nodes1.
    destruct (nodes !! c) eqn:Hc.
    + split; [intros [?|?]; auto|]. intros [?|[->|?]]; auto; try (left; by rewrite Hc).
    + rewrite lookup_insert. case_decide as Hq.
      * subst q. split; auto.
      * split; [intros [?|?]; auto|]. intros [?|[Hqc|?]]; auto; try by destruct Hq.
  - rewrite He, <- app_assoc. simpl. do 3 f_equal.
    by rewrite (lookup_weaken _ _ _ _ Hj Hs).
Qed.

(** What [buildGraphStructures] returns. *)
Lemma buildGraphStructures_spec (path : Path) (expr : Expr)
    (nodes : gmap Path nat) (revNodes : gmap nat Path)
    (edges : list (nat * nat)) :
  ∃ nodes' i,
    buildGraphStructures path expr (nodes, revNodes, edges)
    = (nodes', <[i := path]> revNodes,
       edges ++ ((λ c, (i, default 0 (nodes' !! c))) <$> canonicalDeps expr)) ∧
    nodes' !! path = Some i ∧ nodes ⊆ nodes' ∧
    (nodes_ok nodes → nodes_ok nodes') ∧
    (∀ c, c ∈ canonicalDeps expr → is_Some (nodes' !! c)) ∧
    (∀ q, is_Some (nodes' !! q)
          ↔ is_Some (nodes !! q) ∨ q = path ∨ q ∈ canonicalDeps expr) ∧
    (∀ expr', depIdentifiers expr' = depIdentifiers expr →
              buildGraphStructures path expr' (nodes, revNodes, edges)
              = buildGraphStructures path expr (nodes, revNodes, edges)).
Proof.
  unfold buildGraphStructures.
  set (nodes1 := match nodes !! path with
                 | None => <[path := size nodes]> nodes
                 | Some _ => nodes
                 end).
  set (i := match nodes !! path with
            | None => size nodes
            | Some i => i
            end).
  assert (nodes1 !! path = Some i) as Hi.
  { unfold nodes1, i. destruct (nodes !! path) eqn:Hp; [done|].
    by rewrite lookup_insert_eq. }
  assert (nodes ⊆ nodes1) as Hsub.
  { unfold nodes1. destruct (nodes !! path) eqn:Hp; [done|]. by apply insert_subseteq. }
  assert (∀ e,
    (let '(nodes1, revNodes1) :=
       match nodes !! path with
       | None => (<[path := size nodes]> nodes, <[size nodes := path]> revNodes)
       | Some i => (nodes, <[i := path]> revNodes)
       end in
     let '(nodes2, edges2) := foldl (addObjectDeps path) (nodes1, edges) (getDeps W e) in
     (nodes2, revNodes1, edges2))
    = ((foldl (addDependency path) (nodes1, edges) (depIdentifiers e)).1,
       <[i := path]> revNodes,
       (foldl (addDependency path) (nodes1, edges) (depIdentifiers e)).2)) as Hform.
  { intros e. unfold nodes1, i. destruct (nodes !! path);
      rewrite addObjectDeps_flat; by destruct (foldl _ _ _). }
  destruct (addDependency_fold path (depIdentifiers expr) nodes1 edges i Hi)
    as (Hs & Hok & Hdom & He).
  exists (foldl (addDependency path) (nodes1, edges) (depIdentifiers expr)).1, i.
  split_and!.
  - rewrite Hform. by rewrite He at 1.
  - by eapply lookup_weaken.
  - by etrans.
  - intros Hn. apply Hok. unfold nodes1. destruct (nodes !! path) eqn:Hp; [done|].
    by apply nodes_ok_insert.
  - intros c Hc. apply Hdom. by right.
  - intros q. rewrite Hdom. unfold canonicalDeps, nodes1.
    destruct (nodes !! path) eqn:Hp.
    + split; [intros [?|?]; auto|]. intros [?|[->|?]]; auto; try (left; by rewrite Hp).
    + rewrite lookup_insert. case_decide as Hq.
      * subst q. split; auto.
      * split; [intros [?|?]; auto|]. intros [?|[Hqp|?]]; auto; try by destruct Hq.
  - intros expr' Heq. by rewrite !Hform, Heq.
Qed.

Lemma depIdentifiers_empty_names (e : Expr) :
  (∀ dep info, dep ∈ getDeps W e → info ∈ dep.2 → info.1 = "") →
  depIdentifiers e = [].
Proof.
  unfold depIdentifiers. induction (getDeps W e) as [|dep deps IH]; intros Hall;
    simpl; [done|].
  rewrite IH by (intros d i Hd; apply Hall; by right). rewrite app_nil_r.
  assert (∀ info, info ∈ dep.2 → info.1 = "") as Hdep
    by (intros i; apply Hall; by left).
  induction dep.2 as [|info infos IHi]; simpl; [done|].
  rewrite (Hdep info) by (by left). simpl. apply IHi. intros i Hi. apply Hdep. by right.
Qed.

(** C8. For a binding passed to [buildGraphStructures]: the identifiers
    filed under an empty property name give neither an edge nor a node (an
    expression that differs only in them gives the same structures, and one
    that has only them adds the node of its path and no edge); every other
    identifier is canonicalized and then given a node; and the edges
    appended run, in order, from the node of the bound path to the node of
    each canonicalized dependency. *)
Theorem buildGraphStructures_edges (path : Path) (expr : Expr)
    (nodes : gmap Path nat) (revNodes : gmap nat Path)
    (edges : list (nat * nat)) :
  ∃ nodes' i,
    buildGraphStructures path expr (nodes, revNodes, edges)
    = (nodes', <[i := path]> revNodes,
       edges ++ ((λ c, (i, default 0 (nodes' !! c))) <$> canonicalDeps expr)) ∧
    nodes' !! path = Some i ∧
    (∀ c, c ∈ canonicalDeps expr → is_Some (nodes' !! c)) ∧
    (∀ q, is_Some (nodes' !! q)
          ↔ is_Some (nodes !! q) ∨ q = path ∨ q ∈ canonicalDeps expr) ∧
    (∀ expr', depIdentifiers expr' = depIdentifiers expr →
              buildGraphStructures path expr' (nodes, revNodes, edges)
              = buildGraphStructures path expr (nodes, revNodes, edges)) ∧
    ((∀ dep info, dep ∈ getDeps W expr → info ∈ dep.2 → info.1 = "") →
     canonicalDeps expr = []).
Proof.
  destruct (buildGraphStructures_spec path expr nodes revNodes edges)
    as (nodes' & i & Heq & Hi & _ & _ & Hdeps & Hdom & Hsame).
  exists nodes', i. split_and!; try done.
  intros Hall. unfold canonicalDeps. by rewrite depIdentifiers_empty_names.
Qed.

(** *** The dependency graph of a set of bindings *)

Lemma tc_mono {A : Type} (R1 R2 : relation A) (x y : A) :
  (∀ a b, R1 a b → R2 a b) → tc R1 x y → tc R2 x y.
Proof.
  intros Hsub Htc. induction Htc as [x y Hxy|x z y Hxz _ IH].
  - by apply tc_once, Hsub.
  - eapply tc_l; [by apply Hsub|done].
Qed.

Lemma graph_inv_empty : graph_inv [] ∅ ∅ [].
Proof.
  split.
  - apply nodes_ok_empty.
  - intros i p. rewrite lookup_empty. split; [done|]. intros [_ Hp].
    by apply not_elem_of_nil in Hp.
  - intros p Hp. by apply not_elem_of_nil in Hp.
  - intros i j Hij. by apply not_elem_of_nil in Hij.
  - intros p q (info & Hin & _). by apply not_elem_of_nil in Hin.
Qed.

Lemma depL_app L p info a b :
  depL (L ++ [(p, info)]) a b ↔
  depL L a b ∨ (a = p ∧ b ∈ canonicalDeps (expression info)).
Proof.
  unfold depL. split.
  - intros (i & [Hin|Hin]%elem_of_app & Hb); [left; eauto|].
    apply list_elem_of_singleton in Hin as [= -> ->]. by right.
  - intros [(i & Hin & Hb)|[-> Hb]].
    + exists i. split; [|done]. apply elem_of_app. by left.
    + exists info. split; [|done]. apply elem_of_app. right. by left.
Qed.

Lemma graph_inv_step L nodes revNodes edges p info nodes' revNodes' edges' :
  graph_inv L nodes revNodes edges →
  buildGraphStructures p (expression info) (nodes, revNodes, edges)
  = (nodes', revNodes', edges') →
  graph_inv (L ++ [(p, info)]) nodes' revNodes' edges'.
Proof.
  intros [Hok Hrev Hout Hsound Hcomplete] Hb.
  destruct (buildGraphStructures_spec p (expression info) nodes revNodes edges)
    as (n' & i & Heq & Hi & Hsub & Hk & Hdeps & Hdom & _).
  rewrite Hb in Heq. injection Heq as <- -> ->.
  assert (nodes_ok nodes') as Hok' by (by apply Hk).
  assert (∀ q j, nodes !! q = Some j → nodes' !! q = Some j) as Hmono.
  { intros q j Hq. by eapply lookup_weaken. }
  split.
  - done.
  - intros i' p'. rewrite fmap_app, elem_of_app. simpl.
    rewrite list_elem_of_singleton, lookup_insert. case_decide as Hii.
    + subst i'. split.
      * intros [= <-]. auto.
      * intros [Hp' _]. f_equal. symmetry. by apply (Hok' p i Hi).
    + rewrite Hrev. split.
      * intros [Hp' Hin]. auto.
      * intros [Hp' [Hin| ->]]; [|congruence]. split; [|done].
        destruct (Hout p' Hin) as [j Hj]. rewrite Hj.
        apply Hmono in Hj. congruence.
  - intros p'. rewrite fmap_app, elem_of_app. simpl.
    rewrite list_elem_of_singleton. intros [Hin| ->]; [|eauto].
    destruct (Hout p' Hin) as [j Hj]. eauto.
  - intros a b [Hab|Hab]%elem_of_app.
    + destruct (Hsound a b Hab) as (x & y & Hxy & Hx & Hy).
      exists x, y. split_and!; [apply depL_app; by left|auto|auto].
    + apply list_elem_of_fmap in Hab as (c & [= -> ->] & Hc).
      destruct (Hdeps c Hc) as [j Hj]. rewrite Hj. simpl.
      exists p, c. split_and!; [apply depL_app; by right|done|done].
  - intros a b [Hab|[-> Hb']]%depL_app.
    + destruct (Hcomplete a b Hab) as (x & y & Hx & Hy & Hxy).
      exists x, y. split_and!; [auto|auto|]. apply elem_of_app. by left.
    + destruct (Hdeps b Hb') as [j Hj]. exists i, j. split_and!; [done|done|].
      apply elem_of_app. right. apply list_elem_of_fmap. exists b.
      by rewrite Hj.
Qed.

Lemma buildGraphStep_cases output gs it gs' :
  buildGraphStep output gs it = inr gs' →
  (selected output it = true ∧
   gs' = buildGraphStructures it.1 (expression it.2) gs) ∨
  (selected output it = false ∧ gs' = gs).
Proof.
  unfold buildGraphStep, selected. case_bool_decide as Hout.
  - destruct (oid_getProperty W it.1) as [[prop ptype]|]; [|done].
    case_bool_decide as Hsel; intros [= <-].
    + right. split; [|done]. by apply bool_decide_eq_false.
    + left. split; [|done]. apply bool_decide_eq_true.
      by destruct (is_output prop), (bool_decide (0 < output)%Z).
  - intros [= <-]. by left.
Qed.

Lemma buildGraph_loop output l :
  ∀ L nodes revNodes edges gs',
    graph_inv L nodes revNodes edges →
    result_foldl (buildGraphStep output) (nodes, revNodes, edges) l = inr gs' →
    graph_inv (L ++ filter (λ it, selected output it = true) l) gs'.1.1 gs'.1.2 gs'.2.
Proof.
  induction l as [|[p info] l IH]; intros L nodes revNodes edges gs' Hinv; simpl.
  { intros [= <-]. by rewrite app_nil_r. }
  destruct (buildGraphStep output (nodes, revNodes, edges) (p, info))
    as [err|gs1] eqn:Hstep; [done|]. simpl.
  rewrite filter_cons.
  apply buildGraphStep_cases in Hstep as [[Hsel ->]|[Hsel ->]].
  - rewrite decide_True by done. intros Hl.
    destruct (buildGraphStructures _ _ _) as [[n1 r1] e1] eqn:Hb. simpl in Hb.
    replace (L ++ (p, info) :: filter (λ it, selected output it = true) l)
      with ((L ++ [(p, info)]) ++ filter (λ it, selected output it = true) l)
      by (by rewrite <- app_assoc).
    eapply IH; [|done]. by eapply graph_inv_step.
  - rewrite decide_False by congruence. by apply IH.
Qed.

(** Without a filter the loop never throws. *)
Lemma buildGraph_loop_total output l gs :
  (output < 0)%Z → ∃ gs', result_foldl (buildGraphStep output) gs l = inr gs'.
Proof.
  intros Hout. induction l as [|it l IH] in gs |- *; simpl; [eauto|].
  unfold buildGraphStep at 1. rewrite bool_decide_false by lia. simpl. apply IH.
Qed.

Lemma makeGraph_fold edges :
  ∀ g, Graph.wf_graph g →
       Graph.edge_list (foldl (λ g e, Graph.add_edge e.1 e.2 g) g edges)
       = Graph.edge_list g ++ edges ∧
       Graph.wf_graph (foldl (λ g e, Graph.add_edge e.1 e.2 g) g edges).
Proof.
  induction edges as [|[u v] edges IH]; intros g Hwf; simpl.
  { by rewrite app_nil_r. }
  destruct (IH (Graph.add_edge u v g)) as [He Hw].
  - intros a b. unfold Graph.edge, Graph.add_edge. simpl.
    intros [Hab|Hab]%elem_of_app.
    + apply Hwf in Hab. lia.
    + apply list_elem_of_singleton in Hab as [= -> ->]. lia.
  - split; [|done]. rewrite He. simpl. by rewrite <- app_assoc.
Qed.

Lemma makeGraph_edges revNodes edges :
  Graph.edge_list (makeGraph revNodes edges) = edges.
Proof.
  unfold makeGraph. destruct (makeGraph_fold edges (Graph.new_graph (size revNodes)))
    as [-> _]; [|done].
  intros a b Hab. by apply not_elem_of_nil in Hab.
Qed.

Lemma makeGraph_wf revNodes edges : Graph.wf_graph (makeGraph revNodes edges).
Proof.
  unfold makeGraph. destruct (makeGraph_fold edges (Graph.new_graph (size revNodes)))
    as [_ Hw]; [|done].
  intros a b Hab. by apply not_elem_of_nil in Hab.
Qed.

(** Paths of the index graph and paths of the dependency graph correspond. *)
Lemma graph_inv_tc_paths L nodes revNodes edges i j :
  graph_inv L nodes revNodes edges →
  tc (Graph.edge (makeGraph revNodes edges)) i j →
  ∃ p q, nodes !! p = Some i ∧ nodes !! q = Some j ∧ tc (depL L) p q.
Proof.
  intros Hinv Htc. induction Htc as [i j Hij|i k j Hik _ IH].
  - unfold Graph.edge in Hij. rewrite makeGraph_edges in Hij.
    destruct (gi_sound _ _ _ _ Hinv i j Hij) as (p & q & Hpq & Hp & Hq).
    exists p, q. split_and!; [done|done|by apply tc_once].
  - unfold Graph.edge in Hik. rewrite makeGraph_edges in Hik.
    destruct (gi_sound _ _ _ _ Hinv i k Hik) as (p & q & Hpq & Hp & Hq).
    destruct IH as (q' & r & Hq' & Hr & Hqr).
    assert (q' = q) as -> by (by apply (gi_nodes _ _ _ _ Hinv q k Hq)).
    exists p, r. split_and!; [done|done|]. by eapply tc_l.
Qed.

Lemma graph_inv_tc_indices L nodes revNodes edges p q :
  graph_inv L nodes revNodes edges →
  tc (depL L) p q →
  ∃ i j, nodes !! p = Some i ∧ nodes !! q = Some j ∧
         tc (Graph.edge (makeGraph revNodes edges)) i j.
Proof.
  intros Hinv Htc. induction Htc as [p q Hpq|p r q Hpr _ IH].
  - destruct (gi_complete _ _ _ _ Hinv p q Hpq) as (i & j & Hi & Hj & Hij).
    exists i, j. split_and!; [done|done|]. apply tc_once.
    unfold Graph.edge. by rewrite makeGraph_edges.
  - destruct (gi_complete _ _ _ _ Hinv p r Hpr) as (i & k & Hi & Hk & Hik).
    destruct IH as (k' & j & Hk' & Hj & Hkj).
    assert (k' = k) as -> by congruence.
    exists i, j. split_and!; [done|done|]. eapply tc_l; [|done].
    unfold Graph.edge. by rewrite makeGraph_edges.
Qed.

Lemma append_nonempty (s1 s2 : string) : s2 ≠ "" → s1 +:+ s2 ≠ "".
Proof. destruct s1; simpl; [done|discriminate]. Qed.

Lemma cyclicMessage_nonempty revNodes src : cyclicMessage revNodes src ≠ "".
Proof. unfold cyclicMessage. by apply append_nonempty. Qed.

(** [buildGraph] returns exactly when the selected bindings resolve and
    their dependency graph has no cycle; what it returns is that graph,
    numbered by [revNodes] on the bound paths. *)
Lemma buildGraph_inr exprs output revNodes g :
  buildGraph exprs output = inr (revNodes, g) →
  ∃ nodes edges,
    graph_inv (filter (λ it, selected output it = true) (map_to_list exprs))
      nodes revNodes edges ∧
    g = makeGraph revNodes edges ∧ Graph.acyclic g.
Proof.
  unfold buildGraph.
  destruct (result_foldl _ _ _) as [err|[[nodes rev] edges]] eqn:Hloop; [done|].
  simpl. destruct (Graph.cycle_detector _) as [has_cycle src] eqn:Hcd.
  destruct has_cycle; [done|]. intros [= <- <-].
  exists nodes, edges. split_and!; [|done|].
  - by apply (buildGraph_loop output _ [] ∅ ∅ [] _ graph_inv_empty Hloop).
  - apply Graph.cycle_detector_sound; [apply makeGraph_wf|].
    unfold Graph.cycle_detector in Hcd.
    destruct (Graph.back_edges _) as [|[u v] B]; [done|discriminate].
Qed.

Lemma buildGraph_acyclic exprs output :
  (output < 0)%Z → acyclic_store exprs →
  ∃ revNodes g, buildGraph exprs output = inr (revNodes, g).
Proof.
  intros Hout Hac. unfold buildGraph.
  destruct (buildGraph_loop_total output (map_to_list exprs) (∅, ∅, []) Hout)
    as [[[nodes rev] edges] Hloop].
  rewrite Hloop. simpl.
  pose proof (buildGraph_loop output _ [] ∅ ∅ [] _ graph_inv_empty Hloop) as Hinv.
  simpl in Hinv.
  assert (Graph.acyclic (makeGraph rev edges)) as Hg.
  { intros i Hi. destruct (graph_inv_tc_paths _ _ _ _ i i Hinv Hi) as (p & q & Hp & Hq & Hpq).
    assert (q = p) as -> by (by apply (gi_nodes _ _ _ _ Hinv p i Hp)).
    apply (Hac p). eapply tc_mono; [|done].
    intros a b (info & [_ Hin]%list_elem_of_filter & Hb). exists info.
    split; [|done]. by apply elem_of_map_to_list. }
  apply (Graph.cycle_detector_complete _ (makeGraph_wf _ _)) in Hg.
  unfold Graph.cycle_detector. rewrite Hg. eauto.
Qed.

Lemma buildGraph_inl exprs output err :
  (output < 0)%Z → buildGraph exprs output = inl err →
  ∃ msg, err = RuntimeError msg ∧ msg ≠ "".
Proof.
  intros Hout. unfold buildGraph.
  destruct (buildGraph_loop_total output (map_to_list exprs) (∅, ∅, []) Hout)
    as [[[nodes rev] edges] Hloop].
  rewrite Hloop. simpl. destruct (Graph.cycle_detector _) as [[] src]; [|done].
  intros [= <-]. eexists. split; [done|]. apply cyclicMessage_nonempty.
Qed.

Lemma buildGraph_store_acyclic exprs revNodes g :
  buildGraph exprs default_output = inr (revNodes, g) → acyclic_store exprs.
Proof.
  intros (nodes & edges & Hinv & -> & Hac)%buildGraph_inr p Hp.
  assert (tc (depL (filter (λ it, selected default_output it = true)
                      (map_to_list exprs))) p p) as Hp'.
  { eapply tc_mono; [|done]. intros a b (info & Ha & Hb). exists info.
    split; [|done]. apply list_elem_of_filter. split; [done|].
    by apply elem_of_map_to_list. }
  destruct (graph_inv_tc_indices _ _ _ _ p p Hinv Hp') as (i & j & Hi & Hj & Hij).
  assert (j = i) as -> by congruence. by apply (Hac i).
Qed.

(** *** Acyclicity of the bindings *)

Lemma acyclic_store_empty : acyclic_store ∅.
Proof.
  intros p Hp. assert (∀ a b, tc (dep_edge ∅) a b → False) as Hno; [|by eapply Hno].
  intros a b Hab. destruct Hab as [? ? (info & Hl & _)|? ? ? (info & Hl & _) _];
    by rewrite lookup_empty in Hl.
Qed.

Lemma acyclic_store_delete m p : acyclic_store m → acyclic_store (delete p m).
Proof.
  intros Hac q Hq. apply (Hac q). eapply tc_mono; [|done].
  intros a b (info & Hl & Hb). exists info. split; [|done].
  apply lookup_delete_Some in Hl as [_ Hl]. done.
Qed.

Lemma acyclic_store_same_deps m m' :
  (∀ p info', m' !! p = Some info' →
     ∃ info, m !! p = Some info ∧
             canonicalDeps (expression info) = canonicalDeps (expression info')) →
  acyclic_store m → acyclic_store m'.
Proof.
  intros Hsame Hac q Hq. apply (Hac q). eapply tc_mono; [|done].
  intros a b (info' & Hl & Hb). destruct (Hsame a info' Hl) as (info & Hl' & Heq).
  exists info. split; [done|]. by rewrite Heq.
Qed.

Section contracts.

(** What the collaborators promise: canonicalizing a canonical path gives
    it back, and a copy of an expression has the dependencies of the
    original. *)
Hypothesis canonicalPath_idem :
  ∀ p q, canonicalPath p = inr q → canonicalPath q = inr q.
Hypothesis getDeps_copy : ∀ e, getDeps W (expr_copy W e) = getDeps W e.

Lemma canonicalDeps_copy e : canonicalDeps (expr_copy W e) = canonicalDeps e.
Proof. unfold canonicalDeps, depIdentifiers. by rewrite getDeps_copy. Qed.

Lemma validateExpression_ok st usePath e c :
  canonicalPath usePath = inr usePath →
  validateExpression st usePath e = inr "" →
  acyclic_store (<[usePath := newExpressionInfo e c]> (expressions st)).
Proof.
  intros Hc. unfold validateExpression. rewrite Hc. simpl.
  destruct (string_empty _) eqn:He; simpl; [|intros [= Hv]; by rewrite Hv in He].
  destruct (oid_getDocumentObject W usePath) as [pathDocObj|]; [|done].
  destruct (cyclicReference _ _) as [msg|] eqn:Hcr.
  { intros [= ->]. revert Hcr. generalize (getDepObjects W e).
    induction l as [|d l IH]; simpl; [done|]. by destruct (inListCount _ d). }
  destruct (buildGraph _ _) as [[]|[rev g]] eqn:Hb; try done.
  { intros [= ->]. apply buildGraph_inl in Hb as (msg & [= <-] & Hmsg); done. }
  intros _. apply buildGraph_store_acyclic in Hb.
  eapply acyclic_store_same_deps; [|done]. intros p info'. unfold withExpression.
  rewrite !lookup_insert. case_decide as Hp.
  - intros [= <-]. eexists. split; [done|]. simpl. apply canonicalDeps_copy.
  - intros Hl. by exists info'.
Qed.

Lemma reachable_acyclic st : reachable st → acyclic_store (expressions st).
Proof.
  induction 1 as [h|st path expr c r st' Hreach IH Hset|st st' Hreach IH Heq].
  - apply acyclic_store_empty.
  - apply setValue_inv in Hset as [(? & _ & ->)|(_ & usePath & Hc & _ & Hcase)]; [done|].
    destruct Hcase as [[_ ->]|[(_ & e & -> & Hv & ->)|[-> ->]]]; [done| |].
    + simpl. eapply validateExpression_ok; [by eapply canonicalPath_idem|done].
    + simpl. by apply acyclic_store_delete.
  - by rewrite Heq.
Qed.

(** C1. The dependency graph over the bindings of any state reached
    through calls of [setValue] has no cycle, and a call of [setValue] with
    an expression whose installation would close a cycle raises and leaves
    the state, hence the bindings, as it was. *)
Theorem setValue_keeps_acyclic (st : EngineState) :
  reachable st →
  acyclic_store (expressions st) ∧
  ∀ path usePath e c,
    canonicalPath path = inr usePath →
    ¬ acyclic_store (<[usePath := newExpressionInfo e c]> (expressions st)) →
    ∃ err, setValue path (Some e) c st = (inl err, st).
Proof.
  intros Hreach. pose proof (reachable_acyclic st Hreach) as Hac.
  split; [done|]. intros path usePath e c Hc Hcyc.
  destruct (setValue path (Some e) c st) as [r st'] eqn:Hset.
  apply setValue_inv in Hset as [(err & -> & ->)|(_ & up & Hc' & _ & Hcase)]; [eauto|].
  assert (up = usePath) as -> by congruence.
  destruct Hcyc.
  destruct Hcase as [[Hs _]|[(_ & e' & [= <-] & Hv & _)|[[=] _]]].
  - destruct (expressions st !! usePath) as [info|] eqn:Hit; [|done].
    simpl in Hs. apply bool_decide_eq_true in Hs as ->.
    eapply acyclic_store_same_deps; [|done]. intros p info'.
    rewrite lookup_insert. case_decide as Hp.
    + subst p. intros [= <-]. by exists info.
    + intros Hl. by exists info'.
  - eapply validateExpression_ok; [by eapply canonicalPath_idem|done].
Qed.

End contracts.

(** *** The evaluation order *)

Lemma omap_app_inv {A B : Type} (f : A → option B) (c : list A) :
  ∀ l1 u l2, omap f c = l1 ++ u :: l2 →
    ∃ c1 i c2, c = c1 ++ i :: c2 ∧ omap f c1 = l1 ∧ f i = Some u ∧ omap f c2 = l2.
Proof.
  induction c as [|a c IH]; intros l1 u l2; simpl.
  { by destruct l1. }
  destruct (f a) as [x|] eqn:Hfa.
  - destruct l1 as [|y l1]; simpl.
    + intros [= -> <-]. exists [], a, c. by rewrite Hfa.
    + intros [= -> Hc]. destruct (IH l1 u l2 Hc) as (c1 & i & c2 & -> & <- & Hi & <-).
      exists (a :: c1), i, c2. simpl. by rewrite Hfa.
  - intros Hc. destruct (IH l1 u l2 Hc) as (c1 & i & c2 & -> & <- & Hi & <-).
    exists (a :: c1), i, c2. simpl. by rewrite Hfa.
Qed.

Lemma NoDup_omap_inj {A B : Type} (f : A → option B) (l : list A) :
  (∀ i j x, f i = Some x → f j = Some x → i = j) → NoDup l → NoDup (omap f l).
Proof.
  intros Hinj. induction 1 as [|a l Ha Hnd IH]; simpl; [constructor|].
  destruct (f a) as [x|] eqn:Hfa; [|done]. constructor; [|done].
  intros (j & Hj & Hfj)%list_elem_of_omap. by rewrite (Hinj a j x) in Ha.
Qed.

(** The order [computeEvaluationOrder] returns: bound paths let through by
    the filter, none twice, every one that has a dependency, and each after
    the bound paths it depends on. *)
Lemma computeEvaluationOrder_spec output st order :
  computeEvaluationOrder output st = inr order →
  NoDup order ∧
  (∀ p, p ∈ order →
        p ∈ (filter (λ it, selected output it = true) (map_to_list (expressions st))).*1) ∧
  (∀ u v, depL (filter (λ it, selected output it = true)
                  (map_to_list (expressions st))) u v → u ∈ order) ∧
  (∀ l1 u l2 v,
     order = l1 ++ u :: l2 →
     depL (filter (λ it, selected output it = true)
             (map_to_list (expressions st))) u v →
     v ∈ (filter (λ it, selected output it = true) (map_to_list (expressions st))).*1 →
     v ∈ l1).
Proof.
  unfold computeEvaluationOrder.
  destruct (buildGraph _ _) as [err|[rev g]] eqn:Hb; [done|]. simpl.
  apply buildGraph_inr in Hb as (nodes & edges & Hinv & -> & Hac).
  destruct (Graph.topological_sort _) as [c|] eqn:Hts; [|done].
  intros [= <-].
  destruct (Graph.topological_sort_spec _ (makeGraph_wf rev edges) c Hts)
    as (Hnd & Hall & Hord).
  set (L := filter _ _) in *.
  split_and!.
  - apply NoDup_omap_inj; [|done]. intros i j x Hi Hj.
    apply (gi_rev _ _ _ _ Hinv) in Hi as [Hi _].
    apply (gi_rev _ _ _ _ Hinv) in Hj as [Hj _]. congruence.
  - intros p (i & _ & Hi)%list_elem_of_omap.
    by apply (gi_rev _ _ _ _ Hinv) in Hi as [_ Hp].
  - intros u v Huv.
    destruct (gi_complete _ _ _ _ Hinv u v Huv) as (i & j & Hi & Hj & Hij).
    apply list_elem_of_omap. exists i. split.
    + apply Hall. apply (makeGraph_wf rev edges i j).
      unfold Graph.edge. by rewrite makeGraph_edges.
    + apply (gi_rev _ _ _ _ Hinv). split; [done|].
      destruct Huv as (info & Hin & _). apply list_elem_of_fmap. by exists (u, info).
  - intros l1 u l2 v Ho Huv Hv.
    apply omap_app_inv in Ho as (c1 & i & c2 & -> & <- & Hi & _).
    apply (gi_rev _ _ _ _ Hinv) in Hi as [Hi _].
    destruct (gi_complete _ _ _ _ Hinv u v Huv) as (i' & j & Hi' & Hj & Hij).
    assert (i' = i) as -> by congruence.
    apply list_elem_of_omap. exists j. split.
    + eapply Hord; [done|]. unfold Graph.edge. by rewrite makeGraph_edges.
    + by apply (gi_rev _ _ _ _ Hinv).
Qed.

Lemma computeEvaluationOrder_acyclic st :
  acyclic_store (expressions st) →
  ∃ order, computeEvaluationOrder default_output st = inr order.
Proof.
  intros Hac. unfold computeEvaluationOrder.
  destruct (buildGraph_acyclic (expressions st) default_output) as (rev & g & Hb);
    [done|done|].
  rewrite Hb. simpl. apply buildGraph_inr in Hb as (nodes & edges & _ & -> & Hg).
  rewrite (Graph.topological_sort_acyclic _ (makeGraph_wf _ _) Hg). eauto.
Qed.

(** *** execute *)

Lemma executeStep_inv owner p st r st' :
  executeStep owner p st = (r, st') →
  (∃ err, r = inl err ∧ st' = st) ∨
  (r = inr tt ∧ ∃ v h,
     st' = mkEngineState (expressions st) (restoredExpressions st) (running st)
             (validator st) h (trace st ++ [SetPathValue p v])).
Proof.
  unfold executeStep.
  destruct (oid_getProperty W p) as [[prop ptype]|]; [|intros [= <- <-]; eauto].
  case_bool_decide; [intros [= <- <-]; eauto|].
  unfold bind, get, lift, modify.
  destruct (expressions st !! p) as [info|]; [|intros [= <- <-]; eauto].
  destruct (expr_eval W (expression info) (host st)) as [err|v];
    [intros [= <- <-]; eauto|].
  destruct (prop_setPathValue W prop p v (host st)) as [err|h];
    [intros [= <- <-]; eauto|].
  intros [= <- <-]. right. split; [done|]. by exists v, h.
Qed.

Lemma execute_loop owner order :
  ∀ st r st',
    forM order (executeStep owner) st = (r, st') →
    ∃ ws rest,
      order = ws.*1 ++ rest ∧
      trace st' = trace st ++ writeEvents ws ∧
      expressions st' = expressions st ∧
      (r = inr tt → rest = []).
Proof.
  induction order as [|p order IH]; intros st r st'; simpl.
  { intros [= <- <-]. exists [], []. simpl. by rewrite app_nil_r. }
  unfold bind. destruct (executeStep owner p st) as [r1 st1] eqn:Hstep.
  apply executeStep_inv in Hstep as [(err & -> & ->)|(-> & v & h & ->)].
  - intros [= <- <-]. exists [], (p :: order). by rewrite app_nil_r.
  - intros Hloop. apply IH in Hloop as (ws & rest & -> & Ht & He & Hr).
    exists ((p, v) :: ws), rest. simpl in *. split_and!; [done| |done|done].
    rewrite Ht. by rewrite <- app_assoc.
Qed.

(** What [execute] writes, under any output filter: bound paths let through
    by the filter, none twice, each after the bound paths let through that
    its expression depends on. *)
Lemma execute_order_filtered output st r st' :
  execute output st = (r, st') →
  ∃ ws,
    trace st' = trace st ++ writeEvents ws ∧ NoDup ws.*1 ∧
    (∀ p, p ∈ ws.*1 →
          p ∈ (filter (λ it, selected output it = true)
                 (map_to_list (expressions st))).*1) ∧
    ∀ l1 u l2 v,
      ws.*1 = l1 ++ u :: l2 →
      depL (filter (λ it, selected output it = true)
              (map_to_list (expressions st))) u v →
      v ∈ (filter (λ it, selected output it = true) (map_to_list (expressions st))).*1 →
      v ∈ l1.
Proof.
  assert (∃ ws : list (Path * Value),
            trace st = trace st ++ writeEvents ws ∧ NoDup ws.*1 ∧
            (∀ p, p ∈ ws.*1 →
                  p ∈ (filter (λ it, selected output it = true)
                         (map_to_list (expressions st))).*1) ∧
            ∀ l1 u l2 v,
              ws.*1 = l1 ++ u :: l2 →
              depL (filter (λ it, selected output it = true)
                      (map_to_list (expressions st))) u v →
              v ∈ (filter (λ it, selected output it = true)
                     (map_to_list (expressions st))).*1 →
              v ∈ l1) as Hnone.
  { exists []. simpl. rewrite app_nil_r. split_and!; [done|constructor| |].
    - intros p Hp. by apply not_elem_of_nil in Hp.
    - intros l1 u l2 v Hl. by destruct l1. }
  unfold execute. destruct docObj as [owner|]; [|by intros [= <- <-]].
  unfold bind, get, ret, scoped, lift.
  destruct (running st) eqn:Hrun; [by intros [= <- <-]|].
  destruct (computeEvaluationOrder output (set_running true st)) as [err|order] eqn:Horder.
  { intros [= <- <-]. by destruct st. }
  destruct (forM order (executeStep owner) (set_running true st)) as [r1 st1] eqn:Hloop.
  intros [= <- <-].
  apply execute_loop in Hloop as (ws & rest & -> & Ht & He & _).
  apply computeEvaluationOrder_spec in Horder as (Hnd & Hin & _ & Hord).
  simpl in *. exists ws. split_and!.
  - done.
  - by apply NoDup_app in Hnd as [? _].
  - intros p Hp. apply Hin, elem_of_app. by left.
  - intros l1 u l2 v Hl. apply (Hord l1 u (l2 ++ rest)).
    rewrite Hl. by rewrite <- app_assoc.
Qed.

(** What [execute] does guarantee without a filter: it writes bound paths
    only, none twice, and each one only after every bound path its
    expression depends on has been written. When the bindings have no cycle
    and the engine is owned and not already executing, the order is computed
    without error, it schedules every binding that has a dependency, and the
    run writes the paths of the order, all of them unless a step throws.
    That every bound path is written does not hold. *)
Theorem execute_order (st : EngineState) (r : result unit) (st' : EngineState) :
  execute default_output st = (r, st') →
  ∃ ws,
    trace st' = trace st ++ writeEvents ws ∧ NoDup ws.*1 ∧
    (∀ p, p ∈ ws.*1 → is_Some (expressions st !! p)) ∧
    (∀ l1 u l2 v,
       ws.*1 = l1 ++ u :: l2 →
       dep_edge (expressions st) u v → is_Some (expressions st !! v) →
       v ∈ l1) ∧
    (acyclic_store (expressions st) → is_Some docObj → running st = false →
     ∃ order rest,
       computeEvaluationOrder default_output st = inr order ∧
       order = ws.*1 ++ rest ∧ (r = inr tt → rest = []) ∧
       ∀ u v, dep_edge (expressions st) u v → u ∈ order).
Proof.
  intros Hex.
  assert (∀ p, p ∈ (filter (λ it, selected default_output it = true)
                      (map_to_list (expressions st))).*1
               ↔ is_Some (expressions st !! p)) as Hkeys.
  { intros p. split.
    - intros [info [_ Hin]%list_elem_of_filter]%elem_of_keys.
      apply elem_of_map_to_list in Hin. eauto.
    - intros [info Hin]. apply list_elem_of_fmap. exists (p, info). split; [done|].
      apply list_elem_of_filter. split; [done|]. by apply elem_of_map_to_list. }
  assert (∀ u v, dep_edge (expressions st) u v →
                 depL (filter (λ it, selected default_output it = true)
                         (map_to_list (expressions st))) u v) as Hdep.
  { intros u v (info & Hu & Hv). exists info. split; [|done].
    apply list_elem_of_filter. split; [done|]. by apply elem_of_map_to_list. }
  destruct (execute_order_filtered _ _ _ _ Hex) as (ws & Ht & Hnd & Hin & Hord).
  exists ws. split_and!; [done|done| | |].
  - intros p Hp. by apply Hkeys, Hin.
  - intros l1 u l2 v Hl Huv Hv. eapply Hord; [done|by apply Hdep|by apply Hkeys].
  - intros Hac [owner Howner] Hrun.
    destruct (computeEvaluationOrder_acyclic st Hac) as [order Horder].
    revert Hex. unfold execute. rewrite Howner. unfold bind, get, ret, scoped, lift.
    rewrite Hrun.
    assert (computeEvaluationOrder default_output (set_running true st) = inr order)
      as -> by (by destruct st).
    destruct (forM order (executeStep owner) (set_running true st)) as [r1 st1] eqn:Hloop.
    intros [= <- <-].
    apply execute_loop in Hloop as (ws' & rest & -> & Ht' & He & Hr).
    simpl in Ht, Ht'. rewrite Ht' in Ht. apply app_inv_head in Ht.
    assert (ws' = ws) as ->.
    { unfold writeEvents in Ht. eapply list_fmap_eq_inj; [|done].
      intros [p1 v1] [p2 v2] [= -> ->]. done. }
    exists (ws.*1 ++ rest), rest. split_and!; [done|done|done|].
    intros u v Huv.
    apply computeEvaluationOrder_spec in Horder as (_ & _ & Hsched & _).
    eapply Hsched. by apply Hdep.
Qed.

(** *** breakDependency *)

Lemma getPathsToDocumentObject_store obj st st' :
  expressions st' = expressions st →
  getPathsToDocumentObject obj st' = getPathsToDocumentObject obj st.
Proof. intros Heq. unfold getPathsToDocumentObject. by rewrite Heq. Qed.

Lemma setValue_null_store id st r st' :
  (∀ up, canonicalPath id = inr up → expressions st !! up = None) →
  setValue id None None st = (r, st') → expressions st' = expressions st.
Proof.
  intros Hfree [(? & _ & ->)|(_ & up & Hc & _ & Hcase)]%setValue_inv; [done|].
  destruct Hcase as [[_ ->]|[(_ & e & [=] & _)|[_ ->]]]; [done|].
  simpl. apply delete_id. by apply Hfree.
Qed.

(** What [breakDependency] does to the store when no identifier inside the
    expressions is itself bound: nothing. The identifiers handed to
    [setValue] are the ones found inside the expressions, not the keys of
    the bindings that hold them. *)
Lemma breakDependency_store objs st r st' :
  (∀ obj id up, id ∈ getPathsToDocumentObject obj st →
                canonicalPath id = inr up → expressions st !! up = None) →
  breakDependency objs st = (r, st') → expressions st' = expressions st.
Proof.
  intros Hfree. unfold breakDependency, bind, get.
  generalize (getDocumentObjectDeps st). intros depSet.
  assert (∀ s, expressions s = expressions st →
               ∀ r' s', forM objs (λ obj,
                          if bool_decide (obj ∈ depSet)
                          then λ st0, forM (getPathsToDocumentObject obj st0)
                                        (λ id, setValue id None None) st0
                          else ret ()) s = (r', s') →
               expressions s' = expressions st) as Hloop; [|by apply Hloop].
  induction objs as [|obj objs IH]; intros s Hs r' s'; simpl.
  { by intros [= _ <-]. }
  unfold bind at 1.
  destruct (bool_decide (obj ∈ depSet)); [|by apply IH].
  assert (∀ ids s1, expressions s1 = expressions st →
                    (∀ id, id ∈ ids → id ∈ getPathsToDocumentObject obj st) →
                    ∀ r1 s2, forM ids (λ id, setValue id None None) s1 = (r1, s2) →
                    expressions s2 = expressions st) as Hinner.
  { induction ids as [|id ids IHids]; intros s1 Hs1 Hids r1 s2; simpl.
    { by intros [= _ <-]. }
    unfold bind. destruct (setValue id None None s1) as [r2 s3] eqn:Hset.
    assert (expressions s3 = expressions st) as Hs3.
    { rewrite <- Hs1. eapply setValue_null_store; [|done]. intros up Hup.
      rewrite Hs1. eapply Hfree; [|done]. apply Hids. by left. }
    destruct r2 as [err|[]]; [by intros [= _ <-]|].
    apply IHids; [done|]. intros id' Hid'. apply Hids. by right. }
  destruct (forM (getPathsToDocumentObject obj s) _ s) as [r1 s1] eqn:Hin.
  assert (expressions s1 = expressions st) as Hs1.
  { eapply Hinner; [exact Hs| |exact Hin]. intros id.
    by rewrite (getPathsToDocumentObject_store obj st s). }
  destruct r1 as [err|[]]; [by intros [= _ <-]|]. by apply IH.
Qed.

(** *** Restore and onDocumentRestored *)

Lemma restoreLoop_frame n :
  ∀ reader st r st',
    restoreLoop n reader st = (r, st') →
    expressions st' = expressions st ∧ running st' = running st ∧
    validator st' = validator st ∧ host st' = host st ∧ trace st' = trace st.
Proof.
  induction n as [|n IH]; intros reader st r st'; simpl.
  { by intros [= _ <-]. }
  unfold bind, lift, modify.
  destruct (readExpressionElement reader) as [err|[[[p e] c] reader']];
    [by intros [= _ <-]|].
  destruct (oid_parse W _ p) as [err|path]; [by intros [= _ <-]|].
  destruct (expr_parse W _ e) as [err|expression]; [by intros [= _ <-]|].
  intros Hl. by apply IH in Hl.
Qed.

Lemma restoreLoop_entries es :
  ∀ parsed rest st,
    Forall2 (λ x y, parseEntry x = inr y) es parsed →
    restoreLoop (length es) ((toElement <$> es) ++ rest) st
    = (inr rest, set_restoredExpressions (stage (restoredExpressions st) parsed) st).
Proof.
  induction es as [|[[p e] c] es IH]; intros parsed rest st Hp.
  { apply Forall2_nil_inv_l in Hp as ->. simpl. unfold ret. by destruct st. }
  apply Forall2_cons_inv_l in Hp as ([path info] & parsed' & Hx & Hp & ->).
  simpl. unfold bind, lift, modify. unfold parseEntry in Hx. simpl in Hx.
  destruct (oid_parse W _ p) as [err|path']; [done|]. simpl in Hx.
  destruct (expr_parse W _ e) as [err|e']; [done|]. simpl in Hx.
  injection Hx as -> <-. rewrite (IH parsed' rest _ Hp). by destruct st.
Qed.

Lemma stage_keeps parsed :
  ∀ (m : gmap Path ExpressionInfo) p info,
    p ∉ parsed.*1 → m !! p = Some info → stage m parsed !! p = Some info.
Proof.
  induction parsed as [|[p1 i1] parsed IH]; intros m p info Hp Hm; simpl; [done|].
  simpl in Hp. apply not_elem_of_cons in Hp as [Hne Hp].
  apply IH; [done|]. by rewrite lookup_insert_ne.
Qed.

Lemma stage_lookup parsed :
  ∀ m : gmap Path ExpressionInfo,
    NoDup parsed.*1 → (∀ p, p ∈ parsed.*1 → m !! p = None) →
    size (stage m parsed) = size m + length parsed ∧
    ∀ p info, (p, info) ∈ parsed → stage m parsed !! p = Some info.
Proof.
  induction parsed as [|[p0 i0] parsed IH]; intros m Hnd Hfree; simpl.
  { split; [lia|]. intros p info Hin. by apply not_elem_of_nil in Hin. }
  simpl in Hnd. apply NoDup_cons in Hnd as [Hp0 Hnd].
  destruct (IH (<[p0 := i0]> m) Hnd) as [Hsz Hl].
  { intros p Hp. rewrite lookup_insert_ne by (by intros <-).
    apply Hfree. by right. }
  split.
  - rewrite Hsz, map_size_insert_None; [lia|]. apply Hfree. by left.
  - intros p info [[= -> ->]|Hin]%elem_of_cons; [|by apply Hl].
    apply stage_keeps; [done|]. by rewrite lookup_insert_eq.
Qed.

Lemma drain_loop (l : list (Path * ExpressionInfo)) :
  ∀ st r st',
    forM l (λ it, setValue it.1 (Some (expression it.2))
                    (if negb (string_empty (comment it.2))
                     then Some (comment it.2) else None)) st = (r, st') →
    restoredExpressions st' = restoredExpressions st ∧
    (reachable st → reachable st') ∧
    (∀ up, is_Some (expressions st !! up) → is_Some (expressions st' !! up)) ∧
    (r = inr tt →
     ∀ it, it ∈ l → ∃ up, canonicalPath it.1 = inr up ∧ is_Some (expressions st' !! up)).
Proof.
  induction l as [|it l IH]; intros st r st'; simpl.
  { intros [= <- <-]. split_and!; try done. intros _ it Hit.
    by apply not_elem_of_nil in Hit. }
  unfold bind. destruct (setValue it.1 _ _ st) as [r1 s1] eqn:Hset.
  assert (reachable st → reachable s1) as Hreach.
  { intros Hr. by eapply reachable_setValue. }
  apply setValue_inv in Hset as [(err & -> & ->)|(-> & up & Hc & _ & Hcase)].
  { intros [= <- <-]. by split_and!. }
  intros Hloop. apply IH in Hloop as (Hrest & Hr & Hmono & Hall).
  assert (restoredExpressions s1 = restoredExpressions st ∧
          (∀ up', is_Some (expressions st !! up') → is_Some (expressions s1 !! up')) ∧
          is_Some (expressions s1 !! up)) as (Hrest1 & Hmono1 & Hup).
  { destruct Hcase as [[Hs ->]|[(_ & e & _ & _ & ->)|[[=] _]]].
    - split_and!; [done|done|]. unfold sameExpression in Hs.
      by destruct (expressions st !! up).
    - simpl. split_and!; [done| |by rewrite lookup_insert_eq].
      intros up' Hup'. rewrite lookup_insert. by case_decide. }
  split_and!; [congruence|auto|auto|].
  intros Hok it' [->|Hin]%elem_of_cons; [|by apply Hall].
  exists up. auto.
Qed.

Lemma newExpressionInfo_restored (info : ExpressionInfo) :
  newExpressionInfo (expression info)
    (if negb (string_empty (comment info)) then Some (comment info) else None)
  = info.
Proof.
  destruct info as [e c]. unfold newExpressionInfo. simpl. f_equal.
  destruct (string_empty c) eqn:Hc; simpl; [|done].
  by apply string_empty_true in Hc.
Qed.

Lemma validateExpression_ext s s' p e :
  expressions s = expressions s' → validator s = validator s' →
  validateExpression s p e = validateExpression s' p e.
Proof. intros He Hv. unfold validateExpression. by rewrite He, Hv. Qed.

Lemma setValue_installs path e c st usePath :
  canonicalPath path = inr usePath → readable usePath →
  sameExpression (Some e) (expressions st !! usePath) = false →
  validateExpression st usePath e = inr "" →
  setValue path (Some e) c st = (inr tt, installed st usePath e c).
Proof.
  intros Hc (prop & ptype & Hp & Hr) Hs Hv.
  destruct (setValue path (Some e) c st) as [r st'] eqn:Hset.
  pose proof Hset as [(err & -> & ->)|(-> & up & Hc' & _ & Hcase)]%setValue_inv.
  - exfalso. revert Hset. unfold setValue; unfold_M. rewrite Hc, Hp, Hr, Hs, Hv. simpl.
    unfold atomicChange, scoped, bind, modify.
    destruct (dynamic_cast (getContainer W)) as [par|];
      [destruct (expressions st !! usePath) as [info|]|];
      rewrite ?removeBackLinks_spec, ?addBackLinks_spec; discriminate.
  - assert (up = usePath) as -> by congruence.
    destruct Hcase as [[Hs' _]|[(_ & e' & [= <-] & _ & ->)|[[=] _]]];
      [congruence|done].
Qed.

(** The calls made when the bindings [l], none of them on a bound path, are
    installed one after the other by [setValue]: for each its own atomic
    scope, the back-links of its expression and the change of its path. *)
Definition restoredEvents (l : list (Path * ExpressionInfo)) : list Event :=
  flat_map (λ x : Path * ExpressionInfo,
              [AtomicChangeBegin]
                ++ backLinkEvents AddBackLink docObj (Some (expression x.2))
                ++ [ExpressionChanged x.1; AtomicChangeEnd]) l.

(** The staged bindings in the order [onDocumentRestored] visits them, each
    with the canonical form [ups] gives for its path. *)
Definition stagedAt (ups : list Path) (st : EngineState)
  : list (Path * ExpressionInfo) :=
  zip ups (map_to_list (restoredExpressions st)).*2.

(** The engine as [validateExpression] sees it once the bindings [l] have
    been installed. *)
Definition withInstalled (l : list (Path * ExpressionInfo)) (st : EngineState)
  : EngineState :=
  set_expressions (stage (expressions st) l) st.

(** The loop of [onDocumentRestored] over staged bindings whose canonical
    paths are distinct and not bound: it runs to its end exactly when each
    binding in turn can be read and passes [validateExpression] against the
    bindings installed before it, and then all of them are bound. *)
Lemma drain_fresh (l : list (Path * ExpressionInfo)) :
  ∀ ups st r st',
    Forall2 (λ it up, canonicalPath it.1 = inr up) l ups → NoDup ups →
    (∀ up, up ∈ ups → expressions st !! up = None) →
    forM l (λ it, setValue it.1 (Some (expression it.2))
                    (if negb (string_empty (comment it.2))
                     then Some (comment it.2) else None)) st = (r, st') →
    (r = inr tt ↔
     ∀ k up info, zip ups l.*2 !! k = Some (up, info) →
       readable up ∧
       validateExpression (withInstalled (take k (zip ups l.*2)) st) up
         (expression info) = inr "") ∧
    (r = inr tt →
     expressions st' = stage (expressions st) (zip ups l.*2) ∧
     trace st' = trace st ++ restoredEvents (zip ups l.*2)).
Proof.
  induction l as [|it l IH]; intros ups st r st' HF Hnd Hfree.
  { apply Forall2_nil_inv_l in HF as ->. simpl. intros [= <- <-]. split.
    - split; [|done]. intros _ k up info Hk. by rewrite lookup_nil in Hk.
    - intros _. by rewrite app_nil_r. }
  apply Forall2_cons_inv_l in HF as (up & ups' & Hc & HF & ->).
  apply NoDup_cons in Hnd as [Hup Hnd].
  assert (expressions st !! up = None) as Hnone by (apply Hfree; by left).
  assert (sameExpression (Some (expression it.2)) (expressions st !! up) = false)
    as Hs by (by rewrite Hnone).
  assert (withInstalled [] st = st) as Hst0 by (by destruct st).
  simpl. unfold bind at 1.
  destruct (setValue it.1 _ _ st) as [r1 s1] eqn:Hset.
  pose proof Hset as [(err & -> & ->)|(-> & up0 & Hc0 & Hread & Hcase)]%setValue_inv.
  { intros [= <- <-]. split; [|done]. split; [done|]. intros Hall.
    destruct (Hall 0 up it.2) as [Hr Hv]; [done|].
    simpl in Hv. rewrite Hst0 in Hv.
    rewrite (setValue_installs _ _ _ _ up Hc Hr Hs Hv) in Hset. done. }
  assert (up0 = up) as -> by congruence.
  destruct Hcase as [[Hs' _]|[(_ & e & [= <-] & Hv & ->)|[[=] _]]];
    [congruence|].
  intros Hloop.
  destruct (IH ups' (installed st up (expression it.2)
                       (if negb (string_empty (comment it.2))
                        then Some (comment it.2) else None)) r st' HF Hnd)
    as [Hiff Hres]; [|exact Hloop|].
  { simpl. intros up' Hup'.
    rewrite lookup_insert_ne by (by intros <-). apply Hfree. by right. }
  assert (∀ k p e',
            validateExpression
              (withInstalled (take k (zip ups' l.*2))
                 (installed st up (expression it.2)
                    (if negb (string_empty (comment it.2))
                     then Some (comment it.2) else None))) p e'
            = validateExpression
                (withInstalled (take (S k) (zip (up :: ups') (it :: l).*2)) st)
                p e')
    as Hext.
  { intros k p e'. apply validateExpression_ext; [|done]. simpl.
    by rewrite newExpressionInfo_restored. }
  split.
  - rewrite Hiff. split.
    + intros Hall [|k] up' info Hk.
      * injection Hk as <- <-. simpl. by rewrite Hst0.
      * rewrite <- Hext. by apply Hall.
    + intros Hall k up' info Hk. rewrite Hext. by apply (Hall (S k)).
  - intros Hr. destruct (Hres Hr) as [He Ht]. split.
    + rewrite He. simpl. by rewrite newExpressionInfo_restored.
    + rewrite Ht. simpl. rewrite Hnone. simpl.
      assert (backLinkEvents RemoveBackLink docObj None = []) as ->
        by (unfold backLinkEvents; by destruct docObj).
      rewrite <- !app_assoc. simpl. by rewrite <- !app_assoc.
Qed.

Lemma onDocumentRestored_fresh st r st' ups :
  Forall2 (λ it up, canonicalPath it.1 = inr up)
    (map_to_list (restoredExpressions st)) ups →
  NoDup ups → (∀ up, up ∈ ups → expressions st !! up = None) →
  onDocumentRestored st = (r, st') →
  (r = inr tt ↔
   ∀ k up info, stagedAt ups st !! k = Some (up, info) →
     readable up ∧
     validateExpression (withInstalled (take k (stagedAt ups st)) st) up
       (expression info) = inr "") ∧
  (r = inr tt →
   expressions st' = stage (expressions st) (stagedAt ups st) ∧
   trace st'
   = trace st ++ [AtomicChangeBegin] ++ restoredEvents (stagedAt ups st)
       ++ [AtomicChangeEnd] ∧
   ∀ p info, restoredExpressions st !! p = Some info →
             ∃ up, canonicalPath p = inr up ∧ expressions st' !! up = Some info).
Proof.
  intros HF Hnd Hfree.
  unfold onDocumentRestored, atomicChange, scoped, bind, get.
  destruct (forM _ _ (emit AtomicChangeBegin st)) as [r1 s1] eqn:Hloop.
  intros [= <- <-].
  apply (drain_fresh _ ups) in Hloop as [Hiff Hres]; [|done|done|done].
  unfold stagedAt. split.
  - rewrite Hiff. split; intros Hall k up info Hk;
      destruct (Hall k up info Hk) as [Hr Hv]; (split; [done|]);
      rewrite <- Hv; by apply validateExpression_ext.
  - intros Hr. destruct (Hres Hr) as [He Ht]. simpl in *. split_and!; [done| |].
    + rewrite Ht. by rewrite <- !app_assoc.
    + intros p info [k Hk]%elem_of_map_to_list%list_elem_of_lookup.
      destruct (Forall2_lookup_l _ _ _ k _ HF Hk) as (up & Hup & Hc).
      exists up. split; [done|]. rewrite He.
      assert (length (map_to_list (restoredExpressions st)).*2 = length ups) as Hlen.
      { rewrite length_fmap. by apply Forall2_length in HF. }
      apply stage_lookup.
      * rewrite fst_zip by lia. done.
      * rewrite fst_zip by lia. done.
      * apply list_elem_of_lookup. exists k. apply lookup_zip_with_Some.
        exists up, info. split_and!; [done|done|].
        by rewrite list_lookup_fmap, Hk.
Qed.

(** C9. [Restore] changes neither the live store nor the calls made on the
    document; on an element announcing [N] expressions followed by [N]
    entries that parse, it consumes exactly these and stages them, the later
    of two entries with one path winning, so that [N] entries with distinct
    paths give [N] staged bindings. [onDocumentRestored] passes every staged
    binding to [setValue]: the staging store is left as it is, the live
    store stays among the states [setValue] can reach, and after a run
    without exception the canonical path of every staged binding is bound.
    When the canonical paths of the staged bindings are distinct and not
    yet bound, as after a restore into an engine without bindings, the run
    ends without exception exactly when every staged binding in turn can be
    read and passes [validateExpression] against the bindings installed
    before it; every staged binding is then bound at the canonical form of
    its path with its expression and its comment, and the calls made are,
    inside one atomic scope, those of one installing [setValue] per staged
    binding: its atomic scope, the back-links of its expression registered,
    its change signalled. *)
Theorem Restore_stages_bindings :
  (∀ reader st r st',
     Restore reader st = (r, st') →
     expressions st' = expressions st ∧ trace st' = trace st) ∧
  (∀ es parsed rest st,
     Forall2 (λ x y, parseEntry x = inr y) es parsed →
     ∃ st',
       Restore (EngineElement (Z.of_nat (length es)) :: (toElement <$> es) ++ rest) st
       = (inr rest, st') ∧
       restoredExpressions st' = stage ∅ parsed ∧
       expressions st' = expressions st ∧
       (NoDup parsed.*1 →
        size (restoredExpressions st') = length es ∧
        ∀ p info, (p, info) ∈ parsed → restoredExpressions st' !! p = Some info)) ∧
  (∀ st r st',
     onDocumentRestored st = (r, st') →
     restoredExpressions st' = restoredExpressions st ∧
     (reachable st → reachable st') ∧
     (r = inr tt →
      ∀ p info, restoredExpressions st !! p = Some info →
                ∃ up, canonicalPath p = inr up ∧ is_Some (expressions st' !! up))) ∧
  (∀ st r st' ups,
     Forall2 (λ it up, canonicalPath it.1 = inr up)
       (map_to_list (restoredExpressions st)) ups →
     NoDup ups → (∀ up, up ∈ ups → expressions st !! up = None) →
     onDocumentRestored st = (r, st') →
     (r = inr tt ↔
      ∀ k up info, stagedAt ups st !! k = Some (up, info) →
        readable up ∧
        validateExpression (withInstalled (take k (stagedAt ups st)) st) up
          (expression info) = inr "") ∧
     (r = inr tt →
      expressions st' = stage (expressions st) (stagedAt ups st) ∧
      trace st'
      = trace st ++ [AtomicChangeBegin] ++ restoredEvents (stagedAt ups st)
          ++ [AtomicChangeEnd] ∧
      ∀ p info, restoredExpressions st !! p = Some info →
                ∃ up, canonicalPath p = inr up ∧
                      expressions st' !! up = Some info)).
Proof.
  split_and!.
  - intros reader st r st'. unfold Restore, bind, lift, modify.
    destruct (readEngineElement reader) as [err|[count reader1]];
      [by intros [= _ <-]|].
    intros Hl. apply restoreLoop_frame in Hl as (He & _ & _ & _ & Ht). done.
  - intros es parsed rest st Hp. unfold Restore, bind, lift, modify. simpl.
    rewrite Nat2Z.id. rewrite (restoreLoop_entries es parsed rest _ Hp).
    eexists. split; [done|]. simpl. split_and!; [done|done|].
    intros Hnd. destruct (stage_lookup parsed ∅ Hnd) as [Hsz Hl].
    { intros p _. apply lookup_empty. }
    split; [|done]. rewrite Hsz, map_size_empty. simpl.
    by rewrite (Forall2_length _ _ _ Hp).
  - intros st r st'. unfold onDocumentRestored, atomicChange, scoped, bind, get.
    destruct (forM _ _ (emit AtomicChangeBegin st)) as [r1 s1] eqn:Hloop.
    intros [= <- <-]. apply drain_loop in Hloop as (Hrest & Hreach & _ & Hall).
    simpl in *. split_and!; [done| |].
    + intros Hr. eapply reachable_frame; [apply Hreach|done].
      by eapply reachable_frame.
    + intros Hok p info Hp. apply (Hall Hok (p, info)).
      by apply elem_of_map_to_list.
  - apply onDocumentRestored_fresh.
Qed.

(** ** Further properties of the engine *)

(** [numExpressions] (lines 280-283). *)
Definition numExpressions (st : EngineState) : nat := size (expressions st).

(** *** setValue and getPathValue together *)

(** X1. After a successful [setValue] with a non-null expression,
    [getPathValue] on the same path finds a binding holding that very
    expression. Its comment is the one passed (empty for a null comment),
    except when the expression was already the stored object: the call then
    changed nothing and the old comment is still there. *)
Theorem setValue_then_getPathValue (path : Path) (e : Expr) (c : option string)
    (st st' : EngineState) :
  setValue path (Some e) c st = (inr tt, st') →
  ∃ usePath info,
    canonicalPath path = inr usePath ∧
    getPathValue path st' = inr (Some info) ∧ expression info = e ∧
    (if sameExpression (Some e) (expressions st !! usePath)
     then expressions st !! usePath = Some info
     else comment info = default "" c).
Proof.
  intros [(? & [=] & _)|(_ & up & Hc & _ & Hcase)]%setValue_inv.
  unfold getPathValue. rewrite Hc. simpl.
  destruct Hcase as [[Hs ->]|[(Hs & e' & [= <-] & _ & ->)|[[=] _]]].
  - destruct (expressions st !! up) as [info|] eqn:Hit; [|done].
    exists up, info. rewrite Hit. simpl in Hs. rewrite Hs.
    apply bool_decide_eq_true in Hs. done.
  - exists up, (newExpressionInfo e c). unfold sameExpression in Hs.
    rewrite Hs. simpl. by rewrite lookup_insert_eq.
Qed.

(** X2. After a successful [setValue] with a null expression,
    [getPathValue] on the same path finds nothing; the call succeeds
    whether or not the path was bound, and signals the change of the
    canonical path inside one atomic scope in both cases. *)
Theorem setValue_null_then_getPathValue (path : Path) (c : option string)
    (st st' : EngineState) :
  setValue path None c st = (inr tt, st') →
  ∃ usePath,
    canonicalPath path = inr usePath ∧
    getPathValue path st' = inr None ∧
    expressions st' = delete usePath (expressions st) ∧
    ∃ evs, trace st' = trace st ++ [AtomicChangeBegin] ++ evs
                         ++ [ExpressionChanged usePath; AtomicChangeEnd].
Proof.
  intros [(? & [=] & _)|(_ & up & Hc & _ & Hcase)]%setValue_inv.
  destruct Hcase as [[Hs _]|[(_ & e' & [=] & _)|[_ ->]]]; [done|].
  exists up. unfold getPathValue. rewrite Hc. simpl.
  rewrite lookup_delete_eq. split_and!; try done. eauto.
Qed.

(** X3. Whatever [setValue] does, it leaves alone every binding other than
    the one of the canonical path, the staged bindings, the running flag,
    the validator and the values of the document, and it only adds to the
    calls already made. *)
Theorem setValue_frame (path : Path) (expr : option Expr) (c : option string)
    (st st' : EngineState) (r : result unit) :
  setValue path expr c st = (r, st') →
  restoredExpressions st' = restoredExpressions st ∧
  running st' = running st ∧ validator st' = validator st ∧
  host st' = host st ∧ (∃ evs, trace st' = trace st ++ evs) ∧
  ∀ usePath k, canonicalPath path = inr usePath → k ≠ usePath →
               expressions st' !! k = expressions st !! k.
Proof.
  intros [(? & _ & ->)|(_ & up & Hc & _ & Hcase)]%setValue_inv.
  { split_and!; try done. exists []. by rewrite app_nil_r. }
  destruct Hcase as [[_ ->]|[(_ & e & _ & _ & ->)|[_ ->]]]; simpl.
  - split_and!; try done. exists []. by rewrite app_nil_r.
  - split_and!; try done; [eauto|]. intros usePath k Hu Hk.
    rewrite lookup_insert_ne; [done|congruence].
  - split_and!; try done; [eauto|]. intros usePath k Hu Hk.
    rewrite lookup_delete_ne; [done|congruence].
Qed.

(** X4. When [setValue] raises, for whatever reason (unowned engine,
    unresolved path, unreadable property, validation), the whole state is
    what it was before the call. *)
Theorem setValue_raise_unchanged (path : Path) (expr : option Expr)
    (c : option string) (st st' : EngineState) (err : exn) :
  setValue path expr c st = (inl err, st') → st' = st.
Proof.
  intros [(? & _ & ->)|([=] & _)]%setValue_inv. done.
Qed.

Lemma setValue_null_ok path c st usePath :
  canonicalPath path = inr usePath → readable usePath →
  setValue path None c st = (inr tt, erased st usePath).
Proof.
  intros Hc (prop & ptype & Hp & Hr).
  destruct (setValue path None c st) as [r st'] eqn:Hset.
  pose proof Hset as [(err & -> & ->)|(-> & up & Hc' & _ & Hcase)]%setValue_inv.
  - exfalso. revert Hset. unfold setValue; unfold_M. rewrite Hc, Hp, Hr. simpl.
    unfold atomicChange, scoped, bind, modify.
    destruct (dynamic_cast (getContainer W)) as [par|];
      [destruct (expressions st !! usePath) as [info|]|];
      rewrite ?removeBackLinks_spec; discriminate.
  - assert (up = usePath) as -> by congruence.
    by destruct Hcase as [[[=] _]|[(_ & e' & [=] & _)|[_ ->]]].
Qed.

(** X5. Binding a path that had no binding and then erasing it gives back
    the store, and the back-links withdrawn by the second call are those
    the first registered: the same objects, in the same order, none of them
    the owner. *)
Theorem setValue_install_erase (path usePath : Path) (e : Expr)
    (c : option string) (st st1 : EngineState) :
  canonicalPath path = inr usePath → expressions st !! usePath = None →
  setValue path (Some e) c st = (inr tt, st1) →
  ∃ st2,
    setValue path None None st1 = (inr tt, st2) ∧
    expressions st2 = expressions st ∧
    trace st2
    = trace st ++ [AtomicChangeBegin]
        ++ backLinkEvents AddBackLink docObj (Some e)
        ++ [ExpressionChanged usePath; AtomicChangeEnd; AtomicChangeBegin]
        ++ backLinkEvents RemoveBackLink docObj (Some e)
        ++ [ExpressionChanged usePath; AtomicChangeEnd] ∧
    ∀ o parent, AddBackLink o parent ∈ backLinkEvents AddBackLink docObj (Some e) →
                docObj = Some parent ∧ o ≠ parent ∧ Some o ∈ getDepObjects W e.
Proof.
  intros Hc Hnone [(? & [=] & _)|(_ & up & Hc' & Hread & Hcase)]%setValue_inv.
  assert (up = usePath) as -> by congruence.
  rewrite Hnone in Hcase. simpl in Hcase.
  destruct Hcase as [[[=] _]|[(_ & e' & [= <-] & _ & ->)|[[=] _]]].
  exists (erased (installed st usePath e c) usePath).
  split_and!; [by apply setValue_null_ok| | |].
  - simpl. rewrite delete_insert_eq. by apply delete_id.
  - simpl. rewrite Hnone, lookup_insert_eq. simpl.
    assert (backLinkEvents RemoveBackLink docObj None = []) as ->
      by (unfold backLinkEvents; by destruct docObj).
    simpl. rewrite <- !app_assoc. simpl. by rewrite <- !app_assoc.
  - unfold backLinkEvents. destruct docObj as [par|]; intros o parent Hin;
      [|by apply not_elem_of_nil in Hin].
    apply list_elem_of_omap in Hin as (d & Hd & Hev).
    destruct d as [o'|]; [|done]. case_bool_decide; [|done].
    injection Hev as <- <-. done.
Qed.

(** X6. How [setValue] changes the number of bindings: one more when it
    binds a path that had none, one less when it erases a bound path, the
    same number otherwise. *)
Theorem setValue_numExpressions (path usePath : Path) (expr : option Expr)
    (c : option string) (st st' : EngineState) :
  canonicalPath path = inr usePath →
  setValue path expr c st = (inr tt, st') →
  numExpressions st'
  = match expr, expressions st !! usePath with
    | Some _, None => S (numExpressions st)
    | None, Some _ => pred (numExpressions st)
    | _, _ => numExpressions st
    end.
Proof.
  intros Hc [(? & [=] & _)|(_ & up & Hc' & _ & Hcase)]%setValue_inv.
  assert (up = usePath) as -> by congruence. unfold numExpressions.
  destruct Hcase as [[Hs ->]|[(_ & e & -> & _ & ->)|[-> ->]]]; simpl.
  - unfold sameExpression in Hs. by repeat case_match.
  - destruct (expressions st !! usePath) eqn:Hit.
    + by apply map_size_insert_Some.
    + by apply map_size_insert_None.
  - destruct (expressions st !! usePath) eqn:Hit.
    + by erewrite map_size_delete_Some.
    + by rewrite delete_id.
Qed.

(** *** The dependency graph and the evaluation order *)

(** The loop of [buildGraph] throws only under a filter, and only for a
    binding whose path resolves to no property. *)
Lemma buildGraph_loop_error output l :
  ∀ gs err,
    result_foldl (buildGraphStep output) gs l = inl err →
    (0 ≤ output)%Z ∧ err = RuntimeError "Path does not resolve to a property." ∧
    ∃ it, it ∈ l ∧ oid_getProperty W it.1 = None.
Proof.
  induction l as [|it l IH]; intros gs err; simpl; [done|].
  destruct (buildGraphStep output gs it) as [e|gs1] eqn:Hstep; simpl.
  - intros [= <-]. revert Hstep. unfold buildGraphStep.
    case_bool_decide as Hout; [|done].
    destruct (oid_getProperty W it.1) as [[prop ptype]|] eqn:Hp.
    + by case_bool_decide.
    + intros [= <-]. split_and!; [done|done|]. exists it. split; [by left|done].
  - intros (Ho & He & it' & Hin & Hp)%IH. split_and!; [done|done|].
    exists it'. split; [by right|done].
Qed.

Lemma buildGraph_loop_unresolved output l :
  ∀ gs, (0 ≤ output)%Z → (∃ it, it ∈ l ∧ oid_getProperty W it.1 = None) →
    result_foldl (buildGraphStep output) gs l
    = inl (RuntimeError "Path does not resolve to a property.").
Proof.
  induction l as [|it l IH]; intros gs Hout (it' & Hin & Hp); simpl.
  { by apply not_elem_of_nil in Hin. }
  unfold buildGraphStep at 1. rewrite bool_decide_true by done.
  destruct (oid_getProperty W it.1) as [[prop ptype]|] eqn:Hit.
  - apply elem_of_cons in Hin as [->|Hin]; [congruence|].
    case_bool_decide; simpl; apply IH; eauto.
  - done.
Qed.

(** Every exception of [buildGraph]: an unresolved binding under a filter,
    or a cycle, reported with the name of a bound path that lies on it. *)
Lemma buildGraph_inl_cases exprs output err :
  buildGraph exprs output = inl err →
  ((0 ≤ output)%Z ∧ err = RuntimeError "Path does not resolve to a property." ∧
   ∃ p, is_Some (exprs !! p) ∧ oid_getProperty W p = None) ∨
  (∃ p, is_Some (exprs !! p) ∧ tc (dep_edge exprs) p p ∧
        err = RuntimeError
                (oid_toString W p +:+ " reference creates a cyclic dependency.")).
Proof.
  unfold buildGraph.
  destruct (result_foldl _ _ _) as [e|[[nodes rev] edges]] eqn:Hloop; simpl.
  { intros [= <-]. left.
    apply buildGraph_loop_error in Hloop as (Hout & -> & [p info] & Hin & Hp).
    split_and!; [done|done|]. exists p. split; [|done].
    apply elem_of_map_to_list in Hin. eauto. }
  pose proof (buildGraph_loop output _ [] ∅ ∅ [] _ graph_inv_empty Hloop) as Hinv.
  simpl in Hinv. unfold Graph.cycle_detector.
  destruct (Graph.back_edges _) as [|[u w] B] eqn:HB; [done|].
  intros [= <-]. right.
  pose proof (Graph.depth_first_search_inv _ (makeGraph_wf rev edges)) as [_ _ Hb].
  destruct (Hb u w) as [_ Htc]; [rewrite HB; by left|].
  destruct (graph_inv_tc_paths _ _ _ _ u u Hinv Htc) as (p & q & Hp & Hq & Hpq).
  assert (q = p) as -> by (by apply (gi_nodes _ _ _ _ Hinv p u Hp)).
  assert (∃ info, (p, info) ∈ filter (λ it, selected output it = true)
                               (map_to_list exprs)) as [info Hin].
  { inversion Hpq as [? ? (info & Hin & _)|? ? ? (info & Hin & _) _]; eauto. }
  exists p. split_and!.
  - apply list_elem_of_filter in Hin as [_ Hin%elem_of_map_to_list]. eauto.
  - eapply tc_mono; [|done]. intros a b (i & [_ Ha]%list_elem_of_filter & Hb').
    exists i. split; [|done]. by apply elem_of_map_to_list.
  - unfold cyclicMessage. rewrite Nat2Z.id.
    assert (rev !! u = Some p) as ->; [|done].
    apply (gi_rev _ _ _ _ Hinv). split; [done|].
    apply list_elem_of_fmap. by exists (p, info).
Qed.

(** X7. Whatever [buildGraph] throws is a [RuntimeError], of two kinds only:
    under an output filter, a bound path that resolves to no property; and,
    with or without a filter, a cycle, whose diagnostic starts with the name
    of a bound path that lies on a cycle of the dependency graph. *)
Theorem buildGraph_diagnostic (exprs : gmap Path ExpressionInfo) (output : Z)
    (err : exn) :
  buildGraph exprs output = inl err →
  ((0 ≤ output)%Z ∧ err = RuntimeError "Path does not resolve to a property." ∧
   ∃ p, is_Some (exprs !! p) ∧ oid_getProperty W p = None) ∨
  (∃ p, is_Some (exprs !! p) ∧ tc (dep_edge exprs) p p ∧
        err = RuntimeError
                (oid_toString W p +:+ " reference creates a cyclic dependency.")).
Proof. apply buildGraph_inl_cases. Qed.

(** X8. Under an output filter, a single bound path that resolves to no
    property makes [buildGraph] throw, whatever the other bindings are and
    in whatever order the store is visited; without a filter such a binding
    is no obstacle. *)
Theorem buildGraph_filter_unresolved (exprs : gmap Path ExpressionInfo)
    (output : Z) (p : Path) :
  is_Some (exprs !! p) → oid_getProperty W p = None →
  ((0 ≤ output)%Z →
   buildGraph exprs output
   = inl (RuntimeError "Path does not resolve to a property.")) ∧
  ((output < 0)%Z → acyclic_store exprs →
   ∃ revNodes g, buildGraph exprs output = inr (revNodes, g)).
Proof.
  intros [info Hp] Hnone. split.
  - intros Hout. unfold buildGraph.
    rewrite buildGraph_loop_unresolved; [done|done|].
    exists (p, info). split; [|done]. by apply elem_of_map_to_list.
  - apply buildGraph_acyclic.
Qed.

Lemma computeEvaluationOrder_inl output st err :
  computeEvaluationOrder output st = inl err → ∃ msg, err = RuntimeError msg.
Proof.
  unfold computeEvaluationOrder.
  destruct (buildGraph _ _) as [e|[rev g]] eqn:Hb; simpl.
  - intros [= <-].
    apply buildGraph_inl_cases in Hb as [(_ & -> & _)|(p & _ & _ & ->)]; eauto.
  - apply buildGraph_inr in Hb as (nodes & edges & _ & -> & Hg).
    by rewrite (Graph.topological_sort_acyclic _ (makeGraph_wf _ _) Hg).
Qed.

Lemma computeEvaluationOrder_cyclic st :
  ¬ acyclic_store (expressions st) →
  ∃ msg, computeEvaluationOrder default_output st = inl (RuntimeError msg).
Proof.
  intros Hcyc.
  destruct (computeEvaluationOrder default_output st) as [err|order] eqn:Ho.
  - apply computeEvaluationOrder_inl in Ho as [msg ->]. eauto.
  - destruct Hcyc. revert Ho. unfold computeEvaluationOrder.
    destruct (buildGraph _ _) as [e|[rev g]] eqn:Hb; [done|].
    intros _. by eapply buildGraph_store_acyclic.
Qed.

(** X9. [computeEvaluationOrder] throws nothing but a [RuntimeError]: the
    [not_a_dag] of the topological sort never escapes, because [buildGraph]
    has thrown before on any graph with a cycle. Without a filter it returns
    an order exactly when the dependency graph of the bindings has no
    cycle. *)
Theorem computeEvaluationOrder_total (st : EngineState) :
  (∀ output err, computeEvaluationOrder output st = inl err →
                 ∃ msg, err = RuntimeError msg) ∧
  ((∃ order, computeEvaluationOrder default_output st = inr order)
   ↔ acyclic_store (expressions st)).
Proof.
  split; [intros output err; apply computeEvaluationOrder_inl|]. split.
  - intros [order Ho]. revert Ho. unfold computeEvaluationOrder.
    destruct (buildGraph _ _) as [e|[rev g]] eqn:Hb; [done|].
    intros _. by eapply buildGraph_store_acyclic.
  - apply computeEvaluationOrder_acyclic.
Qed.

(** *** More on execute *)

Lemma execute_loop_frame owner order :
  ∀ st r st',
    forM order (executeStep owner) st = (r, st') →
    expressions st' = expressions st ∧
    restoredExpressions st' = restoredExpressions st ∧
    running st' = running st ∧ validator st' = validator st ∧
    ∃ ws, trace st' = trace st ++ writeEvents ws ∧
          (∀ p, p ∈ ws.*1 → p ∈ order) ∧
          ∀ p, p ∈ ws.*1 →
               ∃ prop ptype, oid_getProperty W p = Some (prop, ptype) ∧
                             dynamic_cast (prop_getContainer W prop) = Some owner.
Proof.
  induction order as [|p order IH]; intros st r st'; simpl.
  { intros [= <- <-]. split_and!; try done. exists []. simpl.
    rewrite app_nil_r. split_and!; [done| |]; intros p Hp;
      by apply not_elem_of_nil in Hp. }
  unfold bind. destruct (executeStep owner p st) as [r1 st1] eqn:Hstep.
  pose proof Hstep as [(err & -> & ->)|(-> & v & h & ->)]%executeStep_inv.
  - intros [= <- <-]. split_and!; try done. exists []. simpl.
    rewrite app_nil_r. split_and!; [done| |]; intros q Hq;
      by apply not_elem_of_nil in Hq.
  - intros (He & Hre & Hru & Hva & ws & Ht & Hin & Hown)%IH. simpl in *.
    split_and!; try done. exists ((p, v) :: ws). simpl. split_and!.
    + rewrite Ht. by rewrite <- app_assoc.
    + intros q [->|Hq]%elem_of_cons; [by left|right; by apply Hin].
    + intros q [->|Hq]%elem_of_cons; [|by apply Hown].
      revert Hstep. unfold executeStep.
      destruct (oid_getProperty W p) as [[prop ptype]|]; [|done].
      case_bool_decide as Hne; [done|]. intros _. exists prop, ptype.
      split; [done|]. by destruct (decide (dynamic_cast (prop_getContainer W prop) = Some owner)).
Qed.

(** X10. [execute] touches nothing of the engine: the bindings, the staged
    bindings, the validator and, once it has returned or thrown, the running
    flag are what they were. Its only calls on the document are writes, and
    every property it writes belongs to the document object that owns the
    engine. *)
Theorem execute_frame (output : Z) (st st' : EngineState) (r : result unit) :
  execute output st = (r, st') →
  expressions st' = expressions st ∧
  restoredExpressions st' = restoredExpressions st ∧
  validator st' = validator st ∧ running st' = running st ∧
  ∃ ws, trace st' = trace st ++ writeEvents ws ∧
        ∀ p, p ∈ ws.*1 →
             ∃ prop ptype, oid_getProperty W p = Some (prop, ptype) ∧
                           dynamic_cast (prop_getContainer W prop) = docObj.
Proof.
  assert (∃ ws : list (Path * Value),
            trace st = trace st ++ writeEvents ws ∧
            ∀ p, p ∈ ws.*1 →
                 ∃ prop ptype, oid_getProperty W p = Some (prop, ptype) ∧
                               dynamic_cast (prop_getContainer W prop) = docObj)
    as Hnone.
  { exists []. simpl. rewrite app_nil_r. split; [done|]. intros p Hp.
    by apply not_elem_of_nil in Hp. }
  unfold execute. destruct docObj as [owner|] eqn:Howner;
    [|by intros [= <- <-]].
  unfold bind, get, ret, scoped, lift.
  destruct (running st) eqn:Hrun; [by intros [= <- <-]|].
  destruct (computeEvaluationOrder output (set_running true st)) as [err|order].
  { intros [= <- <-]. by destruct st. }
  destruct (forM order (executeStep owner) (set_running true st)) as [r1 st1] eqn:Hloop.
  intros [= <- <-].
  apply execute_loop_frame in Hloop as (He & Hre & _ & Hva & ws & Ht & _ & Hown).
  simpl in *. split_and!; try done. by exists ws.
Qed.

(** X11. Under an output filter, [execute] writes only properties on the
    chosen side of the filter: output properties for a positive [output],
    the others for [output] zero. *)
Theorem execute_filter (output : Z) (st st' : EngineState) (r : result unit) :
  (0 ≤ output)%Z → execute output st = (r, st') →
  ∃ ws, trace st' = trace st ++ writeEvents ws ∧
        ∀ p, p ∈ ws.*1 →
             ∃ prop ptype, oid_getProperty W p = Some (prop, ptype) ∧
                           is_output prop = bool_decide (0 < output)%Z.
Proof.
  intros Hout (ws & Ht & _ & Hin & _)%execute_order_filtered.
  exists ws. split; [done|]. intros p Hp.
  apply Hin, elem_of_keys in Hp as [info [Hsel _]%list_elem_of_filter].
  revert Hsel. unfold selected. rewrite bool_decide_true by done. simpl.
  destruct (oid_getProperty W p) as [[prop ptype]|]; [|done].
  intros Hsel%bool_decide_eq_true. by exists prop, ptype.
Qed.

(** X12. [execute] on bindings whose dependency graph has a cycle throws a
    [RuntimeError] before it evaluates anything and leaves the whole state
    as it was, the running flag included. An engine that no document object
    owns throws at once, whatever its bindings. *)
Theorem execute_cyclic (st : EngineState) :
  running st = false → ¬ acyclic_store (expressions st) →
  ∃ msg, execute default_output st = (inl (RuntimeError msg), st).
Proof.
  intros Hrun Hcyc. unfold execute. destruct docObj as [owner|]; [|eauto].
  unfold bind, get, ret, scoped, lift. rewrite Hrun.
  destruct (computeEvaluationOrder_cyclic (set_running true st)) as [msg Hmsg];
    [done|].
  rewrite Hmsg. exists msg. destruct st; simpl in *. by rewrite Hrun.
Qed.

(** *** validateExpression *)

Lemma cyclicReference_None inList deps :
  cyclicReference inList deps = None ↔ ∀ o, Some o ∈ deps → o ∉ inList.
Proof.
  induction deps as [|d deps IH]; simpl.
  { split; [|done]. intros _ o Ho. by apply not_elem_of_nil in Ho. }
  destruct d as [o'|]; simpl.
  - case_bool_decide as Hin.
    + split; [done|]. intros Hall. exfalso. apply (Hall o'); [by left|done].
    + rewrite IH. split.
      * intros Hall o [[= ->]|Ho]%elem_of_cons; [done|by apply Hall].
      * intros Hall o Ho. apply Hall. by right.
  - rewrite IH. split.
    + intros Hall o [[=]|Ho]%elem_of_cons. by apply Hall.
    + intros Hall o Ho. apply Hall. by right.
Qed.

Lemma cyclicReference_Some inList deps msg :
  cyclicReference inList deps = Some msg → msg ≠ "".
Proof.
  induction deps as [|d deps IH]; simpl; [done|].
  destruct (inListCount inList d); [|done]. by intros [= <-].
Qed.

(** X13. [validateExpression] accepts an expression for a path (returns the
    empty string) exactly when the path canonicalizes, the validator, if
    there is one, returns the empty string, the object of the canonical path
    exists, none of the objects the expression depends on is in the in-list
    of that object, and the bindings with a copy of the expression put at
    the canonical path have no dependency cycle. *)
Theorem validateExpression_accepts (st : EngineState) (path : Path) (e : Expr) :
  validateExpression st path e = inr ""
  ↔ ∃ usePath pathDocObj,
      canonicalPath path = inr usePath ∧
      (∀ f, validator st = Some f → f usePath e = "") ∧
      oid_getDocumentObject W usePath = Some pathDocObj ∧
      (∀ o, Some o ∈ getDepObjects W e → o ∉ getInListEx W pathDocObj) ∧
      acyclic_store (withExpression (expressions st) usePath (expr_copy W e)).
Proof.
  unfold validateExpression. split.
  - destruct (canonicalPath path) as [err|usePath]; [done|]. simpl.
    destruct (string_empty _) eqn:He; simpl; [|intros [= Hv]; by rewrite Hv in He].
    destruct (oid_getDocumentObject W usePath) as [pathDocObj|] eqn:Hd; [|done].
    destruct (cyclicReference _ _) as [msg|] eqn:Hcr.
    { intros [= ->]. by apply cyclicReference_Some in Hcr. }
    destruct (buildGraph _ _) as [[]|[rev g]] eqn:Hb; try done.
    { intros [= ->]. apply buildGraph_inl in Hb as (msg & [= <-] & Hmsg); done. }
    intros _. exists usePath, pathDocObj. split_and!; [done| |done| |].
    + intros f Hf. rewrite Hf in He. by apply string_empty_true.
    + by apply cyclicReference_None.
    + by eapply buildGraph_store_acyclic.
  - intros (usePath & pathDocObj & -> & Hval & Hd & Hin & Hac). simpl.
    rewrite Hd.
    assert (string_empty match validator st with
                         | Some f => f usePath e
                         | None => ""
                         end = true) as ->.
    { apply string_empty_true. destruct (validator st) as [f|]; [|done].
      by apply Hval. }
    simpl. apply cyclicReference_None in Hin as ->.
    destruct (buildGraph_acyclic _ default_output ltac:(done) Hac) as (rev & g & ->).
    done.
Qed.

(** *** renameExpressions in general *)

Lemma canonicalPaths_fold paths :
  ∀ acc cp : gmap Path Path,
    result_foldl (λ (m : gmap Path Path) (i : Path * Path),
                    result_bind (canonicalPath i.1) (λ c, inr (<[c := i.2]> m)))
      acc paths = inr cp →
    ∀ c b, cp !! c = Some b →
           acc !! c = Some b ∨ ∃ i, i ∈ paths ∧ canonicalPath i.1 = inr c ∧ i.2 = b.
Proof.
  induction paths as [|i paths IH]; intros acc cp; simpl.
  { intros [= <-]. auto. }
  destruct (canonicalPath i.1) as [err|c0] eqn:Hc; [done|]. simpl.
  intros Hl c b Hcb. destruct (IH _ _ Hl c b Hcb) as [Hacc|(j & Hj & Hcj & Hb)].
  - rewrite lookup_insert in Hacc. case_decide as Heq; [|by left].
    injection Hacc as <-. subst c0. right. exists i. split; [by left|done].
  - right. exists j. split; [by right|done].
Qed.

Lemma canonicalPaths_fold_inl paths :
  ∀ (acc : gmap Path Path) err,
    result_foldl (λ (m : gmap Path Path) (i : Path * Path),
                    result_bind (canonicalPath i.1) (λ c, inr (<[c := i.2]> m)))
      acc paths = inl err →
    ∃ i, i ∈ paths ∧ canonicalPath i.1 = inl err.
Proof.
  induction paths as [|i paths IH]; intros acc err; simpl; [done|].
  destruct (canonicalPath i.1) as [e|c0] eqn:Hc; simpl.
  - intros [= <-]. exists i. split; [by left|done].
  - intros (j & Hj & Hcj)%IH. exists j. split; [by right|done].
Qed.

Lemma canonicalPaths_fold_total paths :
  (∀ i, i ∈ paths → ∃ c, canonicalPath i.1 = inr c) →
  ∀ acc : gmap Path Path,
    ∃ cp, result_foldl (λ (m : gmap Path Path) (i : Path * Path),
                          result_bind (canonicalPath i.1) (λ c, inr (<[c := i.2]> m)))
            acc paths = inr cp.
Proof.
  induction paths as [|i paths IH]; intros Hall acc; simpl; [eauto|].
  destruct (Hall i) as [c ->]; [by left|]. simpl. apply IH.
  intros j Hj. apply Hall. by right.
Qed.

Lemma renameStep_default cp (m : gmap Path ExpressionInfo) i :
  renameStep cp m i = <[default i.1 (cp !! i.1) := i.2]> m.
Proof. unfold renameStep. by destruct (cp !! i.1). Qed.

Lemma renameStep_fold cp l :
  ∀ acc : gmap Path ExpressionInfo,
    (∀ q info, foldl (renameStep cp) acc l !! q = Some info →
               acc !! q = Some info ∨
               ∃ p, (p, info) ∈ l ∧ q = default p (cp !! p)) ∧
    (∀ q, is_Some (acc !! q) → is_Some (foldl (renameStep cp) acc l !! q)) ∧
    (∀ p info, (p, info) ∈ l →
               is_Some (foldl (renameStep cp) acc l !! default p (cp !! p))) ∧
    size (foldl (renameStep cp) acc l) ≤ size acc + length l.
Proof.
  induction l as [|[p0 i0] l IH]; intros acc; simpl.
  { split_and!; [auto|done| |lia]. intros p info Hin.
    by apply not_elem_of_nil in Hin. }
  destruct (IH (renameStep cp acc (p0, i0))) as (H1 & H2 & H3 & H4).
  rewrite renameStep_default in *. simpl in *. split_and!.
  - intros q info Hq. destruct (H1 q info Hq) as [Hacc|(p & Hp & ->)].
    + rewrite lookup_insert in Hacc. case_decide as Heq; [|by left].
      injection Hacc as <-. right. exists p0. split; [by left|done].
    + right. exists p. split; [by right|done].
  - intros q Hq. apply H2. rewrite lookup_insert. by case_decide.
  - intros p info [[= -> ->]|Hin]%elem_of_cons; [|by eapply H3].
    apply H2. by rewrite lookup_insert_eq.
  - etrans; [exact H4|]. rewrite map_size_insert.
    destruct (acc !! _); simpl; lia.
Qed.

Lemma stage_notin parsed :
  ∀ (m : gmap Path ExpressionInfo) p,
    p ∉ parsed.*1 → stage m parsed !! p = m !! p.
Proof.
  induction parsed as [|[p1 i1] parsed IH]; intros m p Hp; simpl; [done|].
  simpl in Hp. apply not_elem_of_cons in Hp as [Hne Hp].
  rewrite IH by done. by rewrite lookup_insert_ne.
Qed.

(** Inserting the entries of a store one by one gives the store. *)
Lemma stage_map_to_list (m : gmap Path ExpressionInfo) :
  stage ∅ (map_to_list m) = m.
Proof.
  apply map_eq. intros k. destruct (m !! k) as [v|] eqn:Hk.
  - destruct (stage_lookup (map_to_list m) ∅) as [_ Hl].
    + apply NoDup_fst_map_to_list.
    + intros p _. apply lookup_empty.
    + apply Hl. by apply elem_of_map_to_list.
  - rewrite stage_notin; [apply lookup_empty|].
    intros [v Hin%elem_of_map_to_list]%elem_of_keys. congruence.
Qed.

Lemma renameStep_fold_id cp l :
  (∀ i, i ∈ l → cp !! i.1 = None) →
  ∀ acc : gmap Path ExpressionInfo, foldl (renameStep cp) acc l = stage acc l.
Proof.
  induction l as [|i l IH]; intros Hall acc; simpl; [done|].
  rewrite renameStep_default, (Hall i) by (by left). simpl.
  apply IH. intros j Hj. apply Hall. by right.
Qed.

(** X14. [renameExpressions] either throws, when some key of the map does
    not canonicalize, and then changes nothing; or it returns, and then the
    new store holds old bindings only, each kept under its key or moved to
    the target the map gives for that key, every old key having its image
    bound, so that bindings can be lost (two keys with one image) but none
    is invented. It signals aboutToSetValue, the change of every key of the
    new store, and hasSetValue, and neither validates nor touches any
    back-link. *)
Theorem renameExpressions_spec (paths : list (Path * Path))
    (st st' : EngineState) (r : result unit) :
  renameExpressions paths st = (r, st') →
  restoredExpressions st' = restoredExpressions st ∧
  running st' = running st ∧ validator st' = validator st ∧
  host st' = host st ∧
  match r with
  | inl err => st' = st ∧ ∃ i, i ∈ paths ∧ canonicalPath i.1 = inl err
  | inr _ =>
      trace st'
      = trace st ++ [AboutToSetValue]
          ++ ((λ i, ExpressionChanged i.1) <$> map_to_list (expressions st'))
          ++ [HasSetValue] ∧
      numExpressions st' ≤ numExpressions st ∧
      ∃ target : Path → Path,
        (∀ p, target p = p ∨
              ∃ i, i ∈ paths ∧ canonicalPath i.1 = inr p ∧ target p = i.2) ∧
        (∀ q info, expressions st' !! q = Some info →
                   ∃ p, expressions st !! p = Some info ∧ q = target p) ∧
        (∀ p, is_Some (expressions st !! p) →
              is_Some (expressions st' !! target p))
  end.
Proof.
  unfold renameExpressions, bind, lift, get.
  destruct (result_foldl _ _ paths) as [err|cp] eqn:Hcp.
  { intros [= <- <-]. split_and!; try done.
    by apply canonicalPaths_fold_inl in Hcp. }
  simpl. rewrite forM_emit. unfold modify. intros [= <- <-]. simpl.
  destruct (renameStep_fold cp (map_to_list (expressions st)) ∅)
    as (H1 & _ & H3 & H4).
  split_and!; try done.
  - rewrite <- !app_assoc. done.
  - unfold numExpressions. simpl. rewrite map_size_empty in H4.
    by rewrite length_map_to_list in H4.
  - exists (λ p, default p (cp !! p)). split_and!.
    + intros p. destruct (cp !! p) as [b|] eqn:Hb; simpl; [|by left].
      destruct (canonicalPaths_fold _ _ _ Hcp p b Hb) as [Hacc|(i & Hi & Hci & Heq)].
      * by rewrite lookup_empty in Hacc.
      * right. by exists i.
    + intros q info Hq. destruct (H1 q info Hq) as [Hacc|(p & Hp & ->)].
      * by rewrite lookup_empty in Hacc.
      * exists p. split; [|done]. by apply elem_of_map_to_list.
    + intros p [info Hp]. apply (H3 p info). by apply elem_of_map_to_list.
Qed.

(** X15. Renaming paths none of which is bound leaves the store as it is:
    when every key of the map canonicalizes to a path without a binding,
    [renameExpressions] returns and the bindings are exactly the old ones. *)
Theorem renameExpressions_unbound (paths : list (Path * Path))
    (st : EngineState) :
  (∀ i, i ∈ paths →
        ∃ c, canonicalPath i.1 = inr c ∧ expressions st !! c = None) →
  ∃ st', renameExpressions paths st = (inr tt, st') ∧
         expressions st' = expressions st.
Proof.
  intros Hall. unfold renameExpressions, bind, lift, get.
  destruct (canonicalPaths_fold_total paths) with (acc := (∅ : gmap Path Path))
    as [cp Hcp].
  { intros i Hi. destruct (Hall i Hi) as (c & Hc & _). eauto. }
  rewrite Hcp. simpl. rewrite forM_emit. unfold modify.
  eexists. split; [done|]. simpl.
  rewrite renameStep_fold_id; [apply stage_map_to_list|].
  intros [p info] Hin%elem_of_map_to_list. simpl.
  destruct (cp !! p) as [b|] eqn:Hb; [|done].
  destruct (canonicalPaths_fold _ _ _ Hcp p b Hb) as [Hacc|(i & Hi & Hci & _)].
  - by rewrite lookup_empty in Hacc.
  - destruct (Hall i Hi) as (c & Hc & Hnone). congruence.
Qed.

(** *** breakDependency and the objects depended on *)

(** What a call leaves alone when all it can do is erase bindings. *)
Definition only_erases (s s' : EngineState) : Prop :=
  expressions s' ⊆ expressions s ∧
  restoredExpressions s' = restoredExpressions s ∧
  running s' = running s ∧ validator s' = validator s ∧ host s' = host s.

Lemma only_erases_refl s : only_erases s s.
Proof. by unfold only_erases. Qed.

Lemma only_erases_trans s1 s2 s3 :
  only_erases s1 s2 → only_erases s2 s3 → only_erases s1 s3.
Proof.
  unfold only_erases. intros (? & ? & ? & ? & ?) (? & ? & ? & ? & ?).
  split_and!; [by etrans|congruence..].
Qed.

Lemma forM_only_erases {A : Type} (f : A → M unit) (l : list A) :
  (∀ a s r s', f a s = (r, s') → only_erases s s') →
  ∀ s r s', forM l f s = (r, s') → only_erases s s'.
Proof.
  intros Hf. induction l as [|a l IH]; intros s r s'; simpl.
  { intros [= _ <-]. apply only_erases_refl. }
  unfold bind. destruct (f a s) as [r1 s1] eqn:Hstep. apply Hf in Hstep.
  destruct r1 as [err|[]]; [by intros [= _ <-]|].
  intros Hl%IH. by eapply only_erases_trans.
Qed.

Lemma setValue_null_only_erases id c s r s' :
  setValue id None c s = (r, s') → only_erases s s'.
Proof.
  intros [(? & _ & ->)|(_ & up & Hc & _ & Hcase)]%setValue_inv;
    [apply only_erases_refl|].
  destruct Hcase as [[_ ->]|[(_ & e & [=] & _)|[_ ->]]];
    [apply only_erases_refl|].
  unfold only_erases. simpl. split_and!; try done. apply delete_subseteq.
Qed.

Lemma elem_of_getDocumentObjectDeps o st :
  o ∈ getDocumentObjectDeps st
  ↔ ∃ owner p info,
      docObj = Some owner ∧ o ≠ owner ∧ expressions st !! p = Some info ∧
      Some o ∈ getDepObjects W (expression info).
Proof.
  unfold getDocumentObjectDeps. destruct docObj as [owner|]; split.
  - intros ([p info] & Hin & Hd)%list_elem_of_In%in_flat_map.
    apply list_elem_of_In in Hin, Hd. apply elem_of_map_to_list in Hin.
    apply list_elem_of_omap in Hd as ([o'|] & Hd & Ho); [|done].
    case_bool_decide; [|done]. injection Ho as <-.
    by exists owner, p, info.
  - intros (owner' & p & info & [= <-] & Hne & Hp & Hd).
    apply list_elem_of_In, in_flat_map. exists (p, info). split.
    + by apply list_elem_of_In, elem_of_map_to_list.
    + apply list_elem_of_In, list_elem_of_omap. exists (Some o).
      split; [done|]. by rewrite bool_decide_true.
  - by intros ?%not_elem_of_nil.
  - by intros (? & ? & ? & [=] & _).
Qed.

(** X16. [breakDependency] can only erase: whatever objects it is given and
    however it ends, every binding of the store afterwards is a binding of
    the store before, with its expression and comment, and the staged
    bindings, the running flag, the validator and the values of the document
    are untouched. *)
Theorem breakDependency_only_erases (objs : list Obj) (st st' : EngineState)
    (r : result unit) :
  breakDependency objs st = (r, st') →
  expressions st' ⊆ expressions st ∧
  restoredExpressions st' = restoredExpressions st ∧
  running st' = running st ∧ validator st' = validator st ∧
  host st' = host st.
Proof.
  unfold breakDependency, bind at 1, get. apply forM_only_erases.
  intros obj s r1 s1. destruct (bool_decide _).
  - unfold bind, get. apply forM_only_erases. intros id s2 r2 s3.
    apply setValue_null_only_erases.
  - intros [= _ <-]. apply only_erases_refl.
Qed.

(** X17. [breakDependency] does nothing at all, no call and no change, for
    objects that are the owner of the engine or that no bound expression
    depends on. *)
Theorem breakDependency_unrelated (objs : list Obj) (st : EngineState) :
  (∀ o, o ∈ objs →
        docObj = Some o ∨
        ∀ p info, expressions st !! p = Some info →
                  Some o ∉ getDepObjects W (expression info)) →
  breakDependency objs st = (inr tt, st).
Proof.
  intros Hall. unfold breakDependency, bind at 1, get.
  assert (∀ o, o ∈ objs → o ∉ getDocumentObjectDeps st) as Hout.
  { intros o Ho (owner & p & info & Hown & Hne & Hp & Hd)%elem_of_getDocumentObjectDeps.
    destruct (Hall o Ho) as [Hself|Hfree]; [congruence|].
    by apply (Hfree p info). }
  clear Hall. generalize dependent (getDocumentObjectDeps st). intros depSet Hout.
  generalize st.
  induction objs as [|o objs IH]; intros s; simpl; [done|].
  unfold bind at 1. rewrite bool_decide_false by (apply Hout; by left).
  unfold ret. apply IH. intros o' Ho'. apply Hout. by right.
Qed.

(** *** Copy and Paste (lines 114-163) *)

(** The entry built from an entry by [Copy] and [Paste]: a copy of the
    expression, with the comment, which as a [c_str()] is never null. *)
Definition copyInfo (info : ExpressionInfo) : ExpressionInfo :=
  newExpressionInfo (expr_copy W (expression info)) (Some (comment info)).

(** [Copy] returns a new engine, which no container owns; only its bindings
    and its validator are read afterwards, by [Paste]. *)
Definition Copy (st : EngineState) : EngineState :=
  set_validator (validator st)
    (set_expressions
       (foldl (λ m (it : Path * ExpressionInfo), <[it.1 := copyInfo it.2]> m) ∅
          (map_to_list (expressions st)))
       (newEngine (host st))).

(** [from] is the state of the engine pasted from, another object than the
    engine pasted into. *)
Definition Paste (from : EngineState) : M unit :=
  atomicChange (
    let parent := dynamic_cast (getContainer W) in
    match parent with
    | Some par =>
        let* st := get in
        forM (map_to_list (expressions st))
          (λ v, removeBackLinks par (expression v.2))
    | None => ret tt
    end ;;
    modify (set_expressions ∅) ;;
    forM (map_to_list (expressions from)) (λ it,
      modify (λ s, set_expressions (<[it.1 := copyInfo it.2]> (expressions s)) s) ;;
      match parent with
      | Some par => addBackLinks par (expression it.2)
      | None => ret tt
      end ;;
      modify (emit (ExpressionChanged it.1))) ;;
    modify (set_validator (validator from))).

(** The calls [Paste] makes for the bindings it drops and for those it
    takes over. *)
Definition droppedEvents (l : list (Path * ExpressionInfo)) : list Event :=
  flat_map (λ v, backLinkEvents RemoveBackLink docObj (Some (expression v.2))) l.

Definition pastedEvents (l : list (Path * ExpressionInfo)) : list Event :=
  flat_map (λ it, backLinkEvents AddBackLink docObj (Some (expression it.2))
                    ++ [ExpressionChanged it.1]) l.

Lemma emits_app evs1 evs2 st : emits evs2 (emits evs1 st) = emits (evs1 ++ evs2) st.
Proof. destruct st; unfold emits; simpl. by rewrite <- app_assoc. Qed.

Lemma stage_copy (f : ExpressionInfo → ExpressionInfo) (l : list (Path * ExpressionInfo)) :
  ∀ acc : gmap Path ExpressionInfo,
    foldl (λ m (it : Path * ExpressionInfo), <[it.1 := f it.2]> m) acc l
    = stage acc ((λ it, (it.1, f it.2)) <$> l).
Proof. induction l as [|it l IH]; intros acc; simpl; [done|]. apply IH. Qed.

Lemma stage_fmap (f : ExpressionInfo → ExpressionInfo) (m : gmap Path ExpressionInfo) :
  stage ∅ ((λ it, (it.1, f it.2)) <$> map_to_list m) = f <$> m.
Proof.
  assert (((λ it : Path * ExpressionInfo, (it.1, f it.2)) <$> map_to_list m).*1
          = (map_to_list m).*1) as Hkeys.
  { rewrite <- list_fmap_compose. by apply list_fmap_ext. }
  apply map_eq. intros k. rewrite lookup_fmap. destruct (m !! k) as [v|] eqn:Hk; simpl.
  - destruct (stage_lookup ((λ it, (it.1, f it.2)) <$> map_to_list m) ∅) as [_ Hl].
    + rewrite Hkeys. apply NoDup_fst_map_to_list.
    + intros p _. apply lookup_empty.
    + apply Hl. apply list_elem_of_fmap. exists (k, v). split; [done|].
      by apply elem_of_map_to_list.
  - rewrite stage_notin; [apply lookup_empty|]. rewrite Hkeys.
    intros [v Hin%elem_of_map_to_list]%elem_of_keys. congruence.
Qed.

Lemma Copy_expressions st : expressions (Copy st) = copyInfo <$> expressions st.
Proof. unfold Copy. simpl. by rewrite stage_copy, stage_fmap. Qed.

Lemma Paste_drop par l :
  docObj = Some par →
  ∀ st, forM l (λ v : Path * ExpressionInfo, removeBackLinks par (expression v.2)) st
        = (inr tt, emits (droppedEvents l) st).
Proof.
  intros Hpar. unfold droppedEvents. rewrite Hpar.
  induction l as [|v l IH]; intros st; simpl.
  { unfold ret. by rewrite emits_nil. }
  unfold bind. rewrite removeBackLinks_spec, IH. by rewrite emits_app.
Qed.

Lemma Paste_take l :
  ∀ st,
    forM l (λ it : Path * ExpressionInfo,
      modify (λ s, set_expressions (<[it.1 := copyInfo it.2]> (expressions s)) s) ;;
      match dynamic_cast (getContainer W) with
      | Some par => addBackLinks par (expression it.2)
      | None => ret tt
      end ;;
      modify (emit (ExpressionChanged it.1))) st
    = (inr tt,
       emits (pastedEvents l)
         (set_expressions
            (foldl (λ m (it : Path * ExpressionInfo), <[it.1 := copyInfo it.2]> m)
               (expressions st) l) st)).
Proof.
  unfold pastedEvents, docObj.
  induction l as [|it l IH]; intros st; simpl.
  { unfold ret. rewrite emits_nil. by destruct st. }
  unfold bind at 1 2 3, modify at 1 2.
  destruct (dynamic_cast (getContainer W)) as [par|] eqn:Hpar.
  - rewrite addBackLinks_spec, IH. f_equal.
    destruct st; unfold emits, emit, set_expressions; simpl.
    f_equal. by rewrite <- !app_assoc.
  - unfold ret. rewrite IH. f_equal.
    destruct st; unfold emits, emit, set_expressions; simpl.
    f_equal. by rewrite <- !app_assoc.
Qed.

Lemma Paste_dropAll st :
  match dynamic_cast (getContainer W) with
  | Some par =>
      let* st0 := get in
      forM (map_to_list (expressions st0))
        (λ v, removeBackLinks par (expression v.2))
  | None => ret tt
  end st
  = (inr tt, emits (droppedEvents (map_to_list (expressions st))) st).
Proof.
  destruct (dynamic_cast (getContainer W)) as [par|] eqn:Hpar.
  - unfold bind, get. by rewrite (Paste_drop par).
  - unfold ret, droppedEvents, docObj. rewrite Hpar. simpl.
    assert (flat_map (λ _ : Path * ExpressionInfo, @nil Event)
              (map_to_list (expressions st)) = []) as ->.
    { by induction (map_to_list (expressions st)). }
    by rewrite emits_nil.
Qed.

Lemma Paste_run from st :
  Paste from st
  = (inr tt,
     mkEngineState (copyInfo <$> expressions from) (restoredExpressions st)
       (running st) (validator from) (host st)
       (trace st ++ [AtomicChangeBegin]
          ++ droppedEvents (map_to_list (expressions st))
          ++ pastedEvents (map_to_list (expressions from))
          ++ [AtomicChangeEnd])).
Proof.
  unfold Paste, atomicChange, scoped.
  unfold bind at 1. rewrite Paste_dropAll.
  unfold bind at 1. unfold modify at 1.
  unfold bind at 1. rewrite Paste_take. unfold modify. simpl.
  rewrite stage_copy, stage_fmap. f_equal.
  destruct st; unfold emits, emit, set_expressions, set_validator; simpl.
  f_equal. by rewrite <- !app_assoc.
Qed.

(** X18. [Paste] always returns. Afterwards the bindings are the copies of
    the bindings of the engine pasted from, under the same keys and with the
    same comments, whatever was bound before, and the validator is that of
    the source; nothing is validated. Inside one atomic scope it withdraws
    the back-links of every old binding, then for each new binding registers
    its back-links and signals its change. *)
Theorem Paste_spec (from st : EngineState) :
  ∃ st',
    Paste from st = (inr tt, st') ∧
    expressions st' = copyInfo <$> expressions from ∧
    validator st' = validator from ∧
    restoredExpressions st' = restoredExpressions st ∧
    running st' = running st ∧ host st' = host st ∧
    trace st'
    = trace st ++ [AtomicChangeBegin]
        ++ droppedEvents (map_to_list (expressions st))
        ++ pastedEvents (map_to_list (expressions from))
        ++ [AtomicChangeEnd].
Proof. eexists. split; [apply Paste_run|]. by split_and!. Qed.

Section copies.

Hypothesis getDeps_copy : ∀ e, getDeps W (expr_copy W e) = getDeps W e.

(** X19. Pasting a copy of an engine gives an engine with the same keys, the
    same number of bindings, the same comments and the same validator, each
    expression being a copy of a copy of the original; and, a copy having
    the dependencies of its original, with a dependency graph that has a
    cycle exactly when the original has one. *)
Theorem Paste_Copy (src dst : EngineState) :
  ∃ dst',
    Paste (Copy src) dst = (inr tt, dst') ∧
    validator dst' = validator src ∧
    numExpressions dst' = numExpressions src ∧
    (∀ p, expressions dst' !! p
          = (λ info, mkExpressionInfo
                       (expr_copy W (expr_copy W (expression info)))
                       (comment info)) <$> expressions src !! p) ∧
    (acyclic_store (expressions dst') ↔ acyclic_store (expressions src)).
Proof.
  eexists. split; [apply Paste_run|]. cbn [expressions validator].
  rewrite Copy_expressions.
  assert (∀ p, (copyInfo <$> (copyInfo <$> expressions src)) !! p
               = (λ info, mkExpressionInfo
                            (expr_copy W (expr_copy W (expression info)))
                            (comment info)) <$> expressions src !! p) as Hl.
  { intros p. rewrite !lookup_fmap. by destruct (expressions src !! p). }
  split_and!; [done| |done|].
  - unfold numExpressions. simpl. by rewrite !map_size_fmap.
  - split; apply acyclic_store_same_deps; intros p info'.
    + intros Hp. rewrite Hl, Hp. eexists. split; [done|]. simpl.
      unfold canonicalDeps, depIdentifiers. by rewrite !getDeps_copy.
    + rewrite Hl. destruct (expressions src !! p) as [info|]; [|done].
      intros [= <-]. exists info. split; [done|]. simpl.
      unfold canonicalDeps, depIdentifiers. by rewrite !getDeps_copy.
Qed.

End copies.

(** *** More on onDocumentRestored *)

Lemma drain_provenance (l : list (Path * ExpressionInfo)) :
  ∀ st r st',
    forM l (λ it, setValue it.1 (Some (expression it.2))
                    (if negb (string_empty (comment it.2))
                     then Some (comment it.2) else None)) st = (r, st') →
    (∃ evs, trace st' = trace st ++ evs) ∧
    ∀ up info, expressions st' !! up = Some info →
               expressions st !! up = Some info ∨
               ∃ p, (p, info) ∈ l ∧ canonicalPath p = inr up.
Proof.
  induction l as [|[p i] l IH]; intros st r st'; simpl.
  { intros [= <- <-]. split; [|auto]. exists []. by rewrite app_nil_r. }
  unfold bind. destruct (setValue p _ _ st) as [r1 s1] eqn:Hset.
  assert ((∃ evs, trace s1 = trace st ++ evs) ∧
          ∀ up info, expressions s1 !! up = Some info →
                     expressions st !! up = Some info ∨
                     (info = i ∧ canonicalPath p = inr up)) as [[evs1 Ht1] He1].
  { apply setValue_inv in Hset as [(err & -> & ->)|(-> & up & Hc & _ & Hcase)].
    { split; [|auto]. exists []. by rewrite app_nil_r. }
    destruct Hcase as [[_ ->]|[(_ & e & [= <-] & _ & ->)|[[=] _]]].
    - split; [|auto]. exists []. by rewrite app_nil_r.
    - simpl. split; [eauto|]. intros up' info.
      rewrite newExpressionInfo_restored, lookup_insert.
      case_decide as Heq; [|auto]. intros [= <-]. subst up'. auto. }
  destruct r1 as [err|[]].
  { intros [= <- <-]. split; [eauto|]. intros up info Hl.
    destruct (He1 up info Hl) as [?|[-> ?]]; [auto|].
    right. exists p. split; [by left|done]. }
  intros [[evs Ht] He]%IH. split.
  { exists (evs1 ++ evs). by rewrite Ht, Ht1, <- app_assoc. }
  intros up info Hl. destruct (He up info Hl) as [Hs1|(p' & Hin & Hc)].
  - destruct (He1 up info Hs1) as [?|[-> ?]]; [auto|].
    right. exists p. split; [by left|done].
  - right. exists p'. split; [by right|done].
Qed.

(** X21. Whether [onDocumentRestored] returns or a staged binding is
    refused, all its calls lie inside one atomic scope that is closed at the
    end, and every binding of the store afterwards is either a binding the
    store had or a staged binding, expression and comment, bound at the
    canonical form of its staged path; a staged binding with an empty
    comment, passed on with a null comment, is bound with the empty
    comment. *)
Theorem onDocumentRestored_provenance (st st' : EngineState) (r : result unit) :
  onDocumentRestored st = (r, st') →
  (∃ evs, trace st' = trace st ++ [AtomicChangeBegin] ++ evs ++ [AtomicChangeEnd]) ∧
  ∀ up info, expressions st' !! up = Some info →
             expressions st !! up = Some info ∨
             ∃ p, restoredExpressions st !! p = Some info ∧
                  canonicalPath p = inr up.
Proof.
  unfold onDocumentRestored, atomicChange, scoped, bind, get.
  destruct (forM _ _ (emit AtomicChangeBegin st)) as [r1 s1] eqn:Hloop.
  intros [= <- <-]. apply drain_provenance in Hloop as [[evs Ht] He].
  simpl in *. split.
  - exists evs. rewrite Ht. by rewrite <- !app_assoc.
  - intros up info Hl. destruct (He up info Hl) as [?|(p & Hin & Hc)]; [auto|].
    right. exists p. split; [|done]. by apply elem_of_map_to_list.
Qed.

(** *** The back-links registered and the objects depended on *)

(** The objects, other than the owner, one expression depends on: those
    for which [setValue] and [Paste] register and withdraw a back-link, and
    which [getDocumentObjectDeps] collects. *)
Definition ownedDeps (owner : Obj) (e : Expr) : list Obj :=
  omap (λ d : option Obj,
          match d with
          | Some o => if bool_decide (o ≠ owner) then Some o else None
          | None => None
          end) (getDepObjects W e).

Definition storeDeps (owner : Obj) (m : gmap Path ExpressionInfo) : list Obj :=
  flat_map (λ v : Path * ExpressionInfo, ownedDeps owner (expression v.2))
    (map_to_list m).

Definition occurrences (o : Obj) (l : list Obj) : Z :=
  Z.of_nat (length (filter (λ x, x = o) l)).

(** The back-links to the owner that [o] holds after a sequence of calls:
    one more for each [_addBackLink], one less for each [_removeBackLink]. *)
Definition backLinkDelta (o : Obj) (ev : Event) : Z :=
  match ev with
  | AddBackLink o' _ => if decide (o' = o) then 1 else 0
  | RemoveBackLink o' _ => if decide (o' = o) then (-1) else 0
  | _ => 0
  end.

Definition registered (o : Obj) (evs : list Event) : Z :=
  foldr (λ ev n, (backLinkDelta o ev + n)%Z) 0%Z evs.

(** Every object holds as many back-links to the owner as there are
    occurrences of it among the dependencies of the bindings. *)
Definition balanced (st : EngineState) : Prop :=
  ∀ o, registered o (trace st) = occurrences o (getDocumentObjectDeps st).

Lemma occurrences_app o l1 l2 :
  occurrences o (l1 ++ l2) = (occurrences o l1 + occurrences o l2)%Z.
Proof. unfold occurrences. rewrite filter_app, length_app. lia. Qed.

Lemma occurrences_perm o l1 l2 : l1 ≡ₚ l2 → occurrences o l1 = occurrences o l2.
Proof. unfold occurrences. by intros ->. Qed.

Lemma registered_app o evs1 evs2 :
  registered o (evs1 ++ evs2) = (registered o evs1 + registered o evs2)%Z.
Proof.
  unfold registered. induction evs1 as [|ev evs1 IH]; simpl; [done|].
  rewrite IH. lia.
Qed.

Lemma registered_cons o ev evs :
  registered o (ev :: evs) = (backLinkDelta o ev + registered o evs)%Z.
Proof. done. Qed.

Lemma backLinkEvents_owned (mk : Obj → Obj → Event) par e :
  backLinkEvents mk (Some par) (Some e) = (λ o, mk o par) <$> ownedDeps par e.
Proof.
  unfold backLinkEvents, ownedDeps.
  induction (getDepObjects W e) as [|[o'|] ds IH]; csimpl; [done| |done].
  case_bool_decide; csimpl; by rewrite IH.
Qed.

Lemma registered_add o par e :
  registered o (backLinkEvents AddBackLink (Some par) (Some e))
  = occurrences o (ownedDeps par e).
Proof.
  rewrite backLinkEvents_owned. unfold occurrences.
  induction (ownedDeps par e) as [|o' ds IH]; csimpl; [done|].
  rewrite filter_cons, IH. case_decide; simpl; lia.
Qed.

Lemma registered_remove o par e :
  registered o (backLinkEvents RemoveBackLink (Some par) (Some e))
  = (- occurrences o (ownedDeps par e))%Z.
Proof.
  rewrite backLinkEvents_owned. unfold occurrences.
  induction (ownedDeps par e) as [|o' ds IH]; csimpl; [done|].
  rewrite filter_cons, IH. case_decide; simpl; lia.
Qed.

Lemma storeDeps_insert owner (m : gmap Path ExpressionInfo) k v :
  storeDeps owner (<[k := v]> m)
  ≡ₚ ownedDeps owner (expression v) ++ storeDeps owner (delete k m).
Proof.
  rewrite <- insert_delete_eq. unfold storeDeps.
  rewrite map_to_list_insert by apply lookup_delete_eq. done.
Qed.

Lemma storeDeps_lookup owner (m : gmap Path ExpressionInfo) k :
  storeDeps owner m
  ≡ₚ match m !! k with
     | Some old => ownedDeps owner (expression old)
     | None => []
     end ++ storeDeps owner (delete k m).
Proof.
  destruct (m !! k) as [old|] eqn:Hk.
  - unfold storeDeps. by rewrite <- (map_to_list_delete m k old Hk) at 1.
  - by rewrite delete_id.
Qed.

Lemma getDocumentObjectDeps_store st :
  getDocumentObjectDeps st
  = match docObj with
    | Some owner => storeDeps owner (expressions st)
    | None => []
    end.
Proof. done. Qed.

Lemma newEngine_balanced h : balanced (newEngine h).
Proof.
  intros o. rewrite getDocumentObjectDeps_store. simpl.
  destruct docObj; [|done]. unfold storeDeps. by rewrite map_to_list_empty.
Qed.

Lemma setValue_balanced path expr c st r st' :
  balanced st → setValue path expr c st = (r, st') → balanced st'.
Proof.
  intros Hbal [(? & _ & ->)|(_ & up & Hc & _ & Hcase)]%setValue_inv; [done|].
  assert (∀ o, registered o (backLinkEvents RemoveBackLink docObj
                               (expression <$> expressions st !! up))
               = (- match docObj with
                    | Some owner =>
                        occurrences o
                          match expressions st !! up with
                          | Some old => ownedDeps owner (expression old)
                          | None => []
                          end
                    | None => 0
                    end)%Z) as Hrem.
  { intros o. destruct docObj as [par|]; [|done].
    destruct (expressions st !! up) as [old|]; simpl; [|done].
    apply registered_remove. }
  assert (∀ o e, registered o (backLinkEvents AddBackLink docObj (Some e))
                 = match docObj with
                   | Some owner => occurrences o (ownedDeps owner e)
                   | None => 0%Z
                   end) as Hadd.
  { intros o e. destruct docObj as [par|]; [|done]. apply registered_add. }
  destruct Hcase as [[_ ->]|[(_ & e & _ & _ & ->)|[_ ->]]]; [done| |];
    intros o; specialize (Hbal o); rewrite getDocumentObjectDeps_store in *;
    simpl; rewrite registered_app, registered_cons, !registered_app, Hrem, ?Hadd;
    simpl;
    destruct docObj as [par|]; try lia.
  - rewrite (occurrences_perm _ _ _ (storeDeps_insert par _ up _)).
    rewrite (occurrences_perm _ _ _ (storeDeps_lookup par _ up)) in Hbal.
    rewrite occurrences_app in *. simpl. lia.
  - rewrite (occurrences_perm _ _ _ (storeDeps_lookup par _ up)) in Hbal.
    rewrite occurrences_app in *. lia.
Qed.

Lemma forM_preserves {A : Type} (P : EngineState → Prop) (f : A → M unit)
    (l : list A) :
  (∀ a s r s', P s → f a s = (r, s') → P s') →
  ∀ s r s', P s → forM l f s = (r, s') → P s'.
Proof.
  intros Hf. induction l as [|a l IH]; intros s r s' Hs; simpl.
  { by intros [= _ <-]. }
  unfold bind. destruct (f a s) as [r1 s1] eqn:Hstep.
  apply Hf in Hstep; [|done].
  destruct r1 as [err|[]]; [by intros [= _ <-]|]. by apply IH.
Qed.

(** X22. The back-links are kept in step with the bindings. In a new engine,
    and after any call of [setValue] or [breakDependency] on a state where
    this holds, whatever the call returns or throws, every object holds
    exactly as many back-links to the owner of the engine as it has
    occurrences in what [getDocumentObjectDeps] collects. *)
Theorem backLinks_balanced :
  (∀ h, balanced (newEngine h)) ∧
  (∀ path expr c st r st',
     balanced st → setValue path expr c st = (r, st') → balanced st') ∧
  (∀ objs st r st',
     balanced st → breakDependency objs st = (r, st') → balanced st').
Proof.
  split_and!.
  - apply newEngine_balanced.
  - apply setValue_balanced.
  - intros objs st r st' Hbal. unfold breakDependency, bind at 1, get.
    apply forM_preserves; [|done].
    intros obj s r1 s1 Hs. destruct (bool_decide _).
    + unfold bind, get. apply forM_preserves; [|done].
      intros id s2 r2 s3. apply setValue_balanced.
    + by intros [= _ <-].
Qed.

Lemma flat_map_fmap {A B C : Type} (f : B → list C) (g : A → B) (l : list A) :
  flat_map f (g <$> l) = flat_map (λ a, f (g a)) l.
Proof. induction l as [|a l IH]; csimpl; [done|]. by f_equal. Qed.

Lemma registered_dropped o par l :
  docObj = Some par →
  registered o (droppedEvents l)
  = (- occurrences o (flat_map (λ v : Path * ExpressionInfo,
                                  ownedDeps par (expression v.2)) l))%Z.
Proof.
  intros Hpar. unfold droppedEvents. rewrite Hpar.
  induction l as [|v l IH]; [done|]. cbn [flat_map].
  rewrite registered_app, occurrences_app, IH, registered_remove. lia.
Qed.

Lemma registered_pasted o l :
  registered o (pastedEvents l)
  = match docObj with
    | Some par =>
        occurrences o (flat_map (λ v : Path * ExpressionInfo,
                                   ownedDeps par (expression v.2)) l)
    | None => 0%Z
    end.
Proof.
  unfold pastedEvents. destruct docObj as [par|].
  - induction l as [|v l IH]; [done|]. cbn [flat_map].
    rewrite <- app_assoc, !registered_app, occurrences_app, IH, registered_add.
    rewrite registered_cons. simpl. lia.
  - induction l as [|v l IH]; [done|]. cbn [flat_map].
    rewrite registered_app, IH. done.
Qed.

Section copied_objects.

Hypothesis getDepObjects_copy :
  ∀ e, getDepObjects W (expr_copy W e) = getDepObjects W e.

(** X23. [Paste] keeps the back-links in step with the bindings, provided a
    copy of an expression depends on the objects its original depends on:
    the links withdrawn are those of the bindings dropped, the links
    registered those of the bindings taken over. *)
Theorem Paste_balanced (from st : EngineState) :
  balanced st → balanced (Paste from st).2.
Proof.
  intros Hbal o. specialize (Hbal o). rewrite Paste_run.
  rewrite getDocumentObjectDeps_store in *. cbn [snd trace expressions].
  rewrite !registered_app, registered_pasted.
  change (registered o [AtomicChangeBegin]) with 0%Z.
  change (registered o [AtomicChangeEnd]) with 0%Z.
  destruct docObj as [par|] eqn:Hpar.
  - rewrite (registered_dropped o par) by done.
    unfold storeDeps in *. rewrite map_to_list_fmap, flat_map_fmap. simpl.
    assert (∀ l : list (Path * ExpressionInfo),
              flat_map (λ a, ownedDeps par (expr_copy W (expression a.2))) l
              = flat_map (λ v, ownedDeps par (expression v.2)) l) as ->.
    { intros l. apply flat_map_ext. intros a. unfold ownedDeps.
      by rewrite getDepObjects_copy. }
    lia.
  - assert (registered o (droppedEvents (map_to_list (expressions st))) = 0%Z) as ->.
    { unfold droppedEvents. rewrite Hpar. simpl.
      by induction (map_to_list (expressions st)). }
    lia.
Qed.

End copied_objects.

(** *** Save (lines 165-178) *)

Section persistence.

(** [Expression::toString] and [Property::encodeAttribute], and the
    decoding the reader applies to the attribute values it hands out. *)
Variable expr_toString : Expr → string.
Variable encodeAttribute : string → string.
Variable decodeAttribute : string → string.

(** The [<Expression/>] element written for one binding; the attribute
    [comment] is written for a non-empty comment only. *)
Definition saveExpression (it : Path * ExpressionInfo) : XMLElement :=
  ExpressionElement (encodeAttribute (oid_toString W it.1))
    (encodeAttribute (expr_toString (expression it.2)))
    (if negb (string_empty (comment it.2))
     then Some (encodeAttribute (comment it.2)) else None).

(** What [Save] writes: the opening element with the number of bindings,
    then one element per binding, in the order of the store; the attribute
    values are as written, that is encoded. *)
Definition Save (st : EngineState) : list XMLElement :=
  EngineElement (Z.of_nat (size (expressions st)))
  :: (saveExpression <$> map_to_list (expressions st)).

(** Modelled from the spec: reading back what was written, the reader
    decodes the attribute values. *)
Definition readWritten (written : list XMLElement) : XMLReader :=
  (λ el, match el with
         | ExpressionElement p e c =>
             ExpressionElement (decodeAttribute p) (decodeAttribute e)
               (decodeAttribute <$> c)
         | _ => el
         end) <$> written.

(** X20. [Restore] reads back what [Save] wrote: when decoding undoes
    encoding, every bound path is parsed back from its text and the text of
    every bound expression is parsed, into the expression [reparse] gives,
    [Restore] consumes exactly the elements written and the staged bindings
    have the keys and the comments of the bindings saved, the expression of
    each being the one parsed from the saved text; a binding saved without a
    comment attribute, its comment being empty, comes back with the empty
    comment. *)
Theorem Save_Restore (reparse : Expr → Expr) (st st0 : EngineState)
    (rest : XMLReader) :
  (∀ s, decodeAttribute (encodeAttribute s) = s) →
  (∀ p info, expressions st !! p = Some info →
             oid_parse W docObj (oid_toString W p) = inr p ∧
             expr_parse W docObj (expr_toString (expression info))
             = inr (reparse (expression info))) →
  ∃ st1,
    Restore (readWritten (Save st) ++ rest) st0 = (inr rest, st1) ∧
    restoredExpressions st1
    = (λ info, mkExpressionInfo (reparse (expression info)) (comment info))
        <$> expressions st ∧
    expressions st1 = expressions st0 ∧ trace st1 = trace st0.
Proof.
  intros Hdec Hparse.
  set (reread := λ info : ExpressionInfo,
                   mkExpressionInfo (reparse (expression info)) (comment info)).
  set (es := (λ it : Path * ExpressionInfo,
                (oid_toString W it.1, expr_toString (expression it.2),
                 if negb (string_empty (comment it.2))
                 then Some (comment it.2) else None))
             <$> map_to_list (expressions st)).
  assert (readWritten (Save st)
          = EngineElement (Z.of_nat (length es)) :: (toElement <$> es)) as ->.
  { unfold readWritten, Save, es. simpl.
    rewrite length_fmap, length_map_to_list. f_equal.
    rewrite <- !list_fmap_compose. apply list_fmap_ext. intros _ [p info] _.
    unfold saveExpression, toElement. simpl. rewrite !Hdec.
    destruct (negb (string_empty (comment info))); simpl; by rewrite ?Hdec. }
  assert (Forall2 (λ x y, parseEntry x = inr y) es
            ((λ it : Path * ExpressionInfo, (it.1, reread it.2))
               <$> map_to_list (expressions st))) as Hes.
  { unfold es. apply Forall2_fmap, Forall_Forall2_diag, Forall_forall.
    intros [p info] Hin%elem_of_map_to_list.
    destruct (Hparse p info Hin) as [Hp He]. unfold parseEntry. simpl.
    unfold docObj in Hp, He. rewrite Hp. simpl. rewrite He. simpl.
    f_equal. f_equal. destruct info as [e c]. unfold newExpressionInfo, reread.
    simpl. f_equal. destruct (string_empty c) eqn:Hc; simpl; [|done].
    by apply string_empty_true in Hc. }
  unfold Restore, bind, lift, modify. simpl. rewrite Nat2Z.id.
  rewrite (restoreLoop_entries es _ rest _ Hes).
  eexists. split; [done|]. simpl. split_and!; [|done|done].
  apply stage_fmap.
Qed.

End persistence.

End Engine.

(** ** A document to run the engine on

    One document object [Owner] carrying the engine and the properties
    [A], [B], [C], [X] ([X] flagged as output) and [Bad], whose value cannot
    be read; a second object [Other] with the property [Value]. The path
    [Owner.A] is the long form of [A]. *)

Module Sample.

Inductive obj : Type := Owner | Other.

#[global] Instance obj_eq_dec : EqDecision obj.
Proof. solve_decision. Defined.

Inductive property : Type :=
  | PropA | PropB | PropC | PropX | PropBad | PropValue.

Inductive expr : Type :=
  | Num (z : Z)
  | Var (p : string)
  | Ref (o : obj)
  | Add (a b : expr)
  | Sub (a b : expr)
  | Mul (a b : expr).

#[global] Instance expr_eq_dec : EqDecision expr.
Proof. solve_decision. Defined.

Definition getProperty (p : string) : option (property * Z) :=
  if decide (p = "A") then Some (PropA, 0%Z)
  else if decide (p = "Owner.A") then Some (PropA, 0%Z)
  else if decide (p = "B") then Some (PropB, 0%Z)
  else if decide (p = "C") then Some (PropC, 0%Z)
  else if decide (p = "X") then Some (PropX, 0%Z)
  else if decide (p = "Bad") then Some (PropBad, 0%Z)
  else if decide (p = "Other.Value") then Some (PropValue, 0%Z)
  else None.

Definition canonical (p : string) : string :=
  if decide (p = "Owner.A") then "A" else p.

Definition container (p : property) : option obj :=
  match p with
  | PropValue => Some Other
  | _ => Some Owner
  end.

Definition documentObject (p : string) : option obj :=
  match getProperty p with
  | Some (prop, _) => container prop
  | None => None
  end.

Definition propertyName (p : string) : string :=
  if decide (p = "Other.Value") then "Value" else canonical p.

(** The identifiers an expression mentions, each with its owner and the
    name of its property; a reference to a whole object has no property
    name. *)
Fixpoint identifiers (e : expr) : list (obj * string * string) :=
  match e with
  | Num _ => []
  | Var p => [(default Owner (documentObject p), propertyName p, p)]
  | Ref o => [(o, "", match o with Owner => "Owner" | Other => "Other" end)]
  | Add a b | Sub a b | Mul a b => identifiers a ++ identifiers b
  end.

Definition insertProperty (name p : string)
    (props : list (string * list string)) : list (string * list string) :=
  if bool_decide (name ∈ props.*1)
  then (λ e : string * list string,
          if decide (e.1 = name) then (e.1, e.2 ++ [p]) else e) <$> props
  else props ++ [(name, [p])].

Definition insertDep (deps : list (obj * list (string * list string)))
    (i : obj * string * string) : list (obj * list (string * list string)) :=
  let '(o, name, p) := i in
  if bool_decide (o ∈ deps.*1)
  then (λ e : obj * list (string * list string),
          if decide (e.1 = o) then (e.1, insertProperty name p e.2) else e) <$> deps
  else deps ++ [(o, [(name, [p])])].

Definition deps (e : expr) : list (obj * list (string * list string)) :=
  foldl insertDep [] (identifiers e).

Definition depObjects (e : expr) : list (option obj) :=
  (λ d : obj * list (string * list string), Some d.1) <$> deps e.

Fixpoint eval (e : expr) (h : gmap string Z) : result Z :=
  match e with
  | Num z => inr z
  | Var p =>
      match h !! canonical p with
      | Some z => inr z
      | None => inl (HostError "unresolved reference")
      end
  | Ref _ => inl (HostError "not a value")
  | Add a b => result_bind (eval a h) (λ x, result_bind (eval b h) (λ y, inr (x + y)%Z))
  | Sub a b => result_bind (eval a h) (λ x, result_bind (eval b h) (λ y, inr (x - y)%Z))
  | Mul a b => result_bind (eval a h) (λ x, result_bind (eval b h) (λ y, inr (x * y)%Z))
  end.

Definition parseExpression (s : string) : result expr :=
  if decide (s = "B + 1") then inr (Add (Var "B") (Num 1))
  else if decide (s = "C * 2") then inr (Mul (Var "C") (Num 2))
  else if decide (s = "A - 1") then inr (Sub (Var "A") (Num 1))
  else if decide (s = "Other.Value") then inr (Var "Other.Value")
  else inl (HostError "syntax error").

Definition world : Collaborators :=
  {| getContainer := Some Owner;
     isDocumentObject := λ _, true;
     oid_getProperty := getProperty;
     oid_canonicalPath := canonical;
     oid_resolveErrorString := λ p, "Cannot resolve " +:+ p;
     oid_toString := λ p, p;
     oid_getDocumentObject := documentObject;
     oid_parse := λ _ s, inr s;
     oid_default := "";
     prop_getContainer := container;
     prop_isExpressionEngine := λ _, false;
     prop_testStatusOutput := λ p, match p with PropX => true | _ => false end;
     prop_getType := λ _, 0%Z;
     Prop_Output := 8%Z;
     prop_getPathValue := λ prop _,
       match prop with
       | PropBad => inl (HostError "no value")
       | _ => inr tt
       end;
     prop_setPathValue := λ _ p (v : Z) (h : gmap string Z), inr (<[p := v]> h);
     getInListEx := λ _, [];
     getNameInDocument := λ o, Some match o with Owner => "Owner" | Other => "Other" end;
     getDocumentName := λ _, "Doc";
     getDeps := deps;
     getDepObjects := depObjects;
     expr_copy := λ e, e;
     expr_eval := eval;
     expr_parse := λ _, parseExpression |}.

Definition state : Type :=
  EngineState (Path := string) (Obj := obj) (Expr := expr) (Value := Z)
    (Host := gmap string Z).

(** [A = B + 1] and [B = C * 2] bound on a document where [C] is 3. *)
Definition exprA : expr := Add (Var "B") (Num 1).
Definition exprB : expr := Mul (Var "C") (Num 2).

Definition boundA : state :=
  (setValue world "A" (Some exprA) None (newEngine {["C" := 3%Z]})).2.

Definition chain : state := (setValue world "B" (Some exprB) None boundA).2.

(** The expression that would close the cycle [A → B → C → A]. *)
Definition exprC : expr := Sub (Var "Owner.A") (Num 1).

Definition executed : state := (execute world default_output chain).2.

(** [chain] once a validator that rejects everything has been installed. *)
Definition rejecting : state :=
  (setValidator (Some (λ _ _, "rejected")) chain).2.

(** [A = B + 1] once the binding has been moved to [B]. *)
Definition looped : state := (renameExpressions world [("A", "B")] boundA).2.

(** [chain] once the binding of [A] has been moved to [Bad]. *)
Definition renamed : state := (renameExpressions world [("A", "Bad")] chain).2.

(** [X] bound to the value of the other object. *)
Definition linked : state :=
  (setValue world "X" (Some (Var "Other.Value")) None
     (newEngine {["Other.Value" := 3%Z]})).2.

(** [A] depends on the unbound [C]; [B] is bound to a constant. *)
Definition mixed : state :=
  (setValue world "B" (Some (Num 5)) None
     (setValue world "A" (Some (Add (Var "C") (Num 1))) None
        (newEngine {["C" := 3%Z]})).2).2.

(** [chain] on a document where [C] has no value. *)
Definition stale : state := set_host ∅ chain.

(** The persisted form of [chain]. *)
Definition saved : XMLReader :=
  [EngineElement 2; ExpressionElement "A" "B + 1" None;
   ExpressionElement "B" "C * 2" (Some "twice C"); OtherElement "Properties"].

(** [A] bound with a comment, through the long form of its path. *)
Definition noted : state :=
  (setValue world "Owner.A" (Some exprA) (Some "one more")
     (newEngine {["C" := 3%Z]})).2.

(** Bindings that [setValue] would not have installed: [A = B + 1] together
    with [B = A - 1]. *)
Definition knotted : state :=
  set_expressions
    {["A" := mkExpressionInfo exprA "";
      "B" := mkExpressionInfo (Sub (Var "A") (Num 1)) ""]}
    (newEngine {["C" := 3%Z]}).

(** A binding whose path resolves to no property. *)
Definition dangling : state :=
  set_expressions {["Nowhere" := mkExpressionInfo (Num 1) ""]} (newEngine ∅).

(** The chain with the output property [X] bound to [C + 1]. *)
Definition outputs : state :=
  (setValue world "X" (Some (Add (Var "C") (Num 1))) None chain).2.

(** [linked] once the property of the other object has a binding too. *)
Definition entangled : state :=
  (setValue world "Other.Value" (Some (Num 1)) None linked).2.

(** [C] bound, with a comment, to an expression that names [A] by the long
    form of its path. *)
Definition aliased : state :=
  (setValue world "C" (Some exprC) (Some "one less") linked).2.

(** The bindings of [saved], staged. *)
Definition staged : state := (Restore world saved (newEngine {["C" := 3%Z]})).2.

(** The persisted form of the chain with [X] bound to the value of the
    other object, and its bindings staged. *)
Definition savedAll : XMLReader :=
  [EngineElement 3; ExpressionElement "A" "B + 1" None;
   ExpressionElement "B" "C * 2" (Some "twice C");
   ExpressionElement "X" "Other.Value" None; OtherElement "Properties"].

Definition stagedAll : state :=
  (Restore world savedAll (newEngine {["C" := 3%Z]})).2.

(** The text of some expressions; properties of the owner are printed by
    their short names. *)
Definition toString (e : expr) : string :=
  if decide (e = exprA) then "B + 1"
  else if decide (e = exprB) then "C * 2"
  else if decide (e = exprC) then "A - 1"
  else if decide (e = Sub (Var "A") (Num 1)) then "A - 1"
  else if decide (e = Var "Other.Value") then "Other.Value"
  else "?".

(** The expression read back from the text of an expression. *)
Definition reread (e : expr) : expr :=
  match parseExpression (toString e) with
  | inr e' => e'
  | inl _ => e
  end.

(** An encoding of attribute values and its decoding. *)
Definition encode (s : string) : string := "~" +:+ s.

Definition decode (s : string) : string :=
  match s with
  | String _ s' => s'
  | EmptyString => EmptyString
  end.

Lemma world_canonicalPath_idem (p q : string) :
  canonicalPath world p = inr q → canonicalPath world q = inr q.
Proof.
  assert (∀ name : string,
            canonicalPath world name = inr (canonical name) →
            canonicalPath world (canonical name) = inr (canonical name) →
            p = name → canonicalPath world p = inr q → canonicalPath world q = inr q)
    as Hcase.
  { intros name Hn Hc -> Hq. rewrite Hn in Hq. by injection Hq as <-. }
  destruct (decide (p = "A")) as [Hp|?]; [by apply (Hcase "A")|].
  destruct (decide (p = "Owner.A")) as [Hp|?]; [by apply (Hcase "Owner.A")|].
  destruct (decide (p = "B")) as [Hp|?]; [by apply (Hcase "B")|].
  destruct (decide (p = "C")) as [Hp|?]; [by apply (Hcase "C")|].
  destruct (decide (p = "X")) as [Hp|?]; [by apply (Hcase "X")|].
  destruct (decide (p = "Bad")) as [Hp|?]; [by apply (Hcase "Bad")|].
  destruct (decide (p = "Other.Value")) as [Hp|?]; [by apply (Hcase "Other.Value")|].
  unfold canonicalPath, docObj. simpl. unfold getProperty.
  by rewrite !decide_False by done.
Qed.

Lemma world_getDeps_copy (e : expr) :
  getDeps world (expr_copy world e) = getDeps world e.
Proof. reflexivity. Qed.

Lemma chain_reachable : reachable world chain.
Proof.
  eapply reachable_setValue; [eapply reachable_setValue; [apply reachable_new|]|];
    apply surjective_pairing.
Qed.

(** The scenario of the linear chain: [execute] writes [B = 6], then
    [A = 7]. *)
Example chain_execute :
  execute world default_output chain = (inr tt, executed) ∧
  trace executed = trace chain ++ [SetPathValue "B" 6%Z; SetPathValue "A" 7%Z] ∧
  host executed = {["C" := 3%Z; "B" := 6%Z; "A" := 7%Z]} ∧
  running executed = false.
Proof. vm_compute. done. Qed.

Lemma mixed_reachable : reachable world mixed.
Proof.
  eapply reachable_setValue; [eapply reachable_setValue; [apply reachable_new|]|];
    apply surjective_pairing.
Qed.

(** C3 fails on the code: with [A] bound to [C + 1] and [B] bound to the
    constant 5, bindings installed by [setValue] and without cycle,
    [execute] returns normally having evaluated and written [A] only; the
    bound path [B] is not in the evaluation order and gets no value.
    [buildGraph] creates the graph with [revNodes.size()] vertices, one per
    bound path, while the nodes are numbered over bound paths and
    dependencies alike, and [add_edge] grows the graph only to the endpoints
    of edges: visited in the order [A], [B], the store numbers [A], [C],
    [B] as 0, 1, 2, the graph has the vertices 0 and 1, and the topological
    sort never meets the node of [B]. *)
Theorem execute_skips_isolated_binding :
  reachable world mixed ∧ acyclic_store world (expressions mixed) ∧
  running mixed = false ∧
  map_to_list (expressions mixed)
  = [("A", mkExpressionInfo (Add (Var "C") (Num 1)) "");
     ("B", mkExpressionInfo (Num 5) "")] ∧
  computeEvaluationOrder world default_output mixed = inr ["A"] ∧
  (execute world default_output mixed).1 = inr tt ∧
  trace (execute world default_output mixed).2
  = trace mixed ++ [SetPathValue "A" 4%Z] ∧
  host (execute world default_output mixed).2 = {["C" := 3%Z; "A" := 4%Z]}.
Proof.
  split; [exact mixed_reachable|]. split.
  { exact (reachable_acyclic world world_canonicalPath_idem world_getDeps_copy
             mixed mixed_reachable). }
  vm_compute. split_and!; reflexivity.
Qed.

(** The structures of one binding whose expression mentions a property of
    the other object and the other object as a whole: the whole-object
    entry, filed under the empty name, adds nothing. *)
Example buildGraphStructures_whole_object :
  getDeps world (Add (Var "Other.Value") (Ref Other))
  = [(Other, [("Value", ["Other.Value"]); ("", ["Other"])])] ∧
  buildGraphStructures world "X" (Add (Var "Other.Value") (Ref Other)) (∅, ∅, [])
  = ({["X" := 0; "Other.Value" := 1]}, {[0 := "X"]}, [(0, 1)]).
Proof. split; reflexivity. Qed.

(** C1, at the chain: the bindings have no cycle, and binding [C] to
    [A - 1] is refused. *)
Lemma setValue_keeps_acyclic_witness :
  reachable world chain ∧ acyclic_store world (expressions chain) ∧
  ∃ err, setValue world "C" (Some exprC) None chain = (inl err, chain).
Proof.
  destruct (setValue_keeps_acyclic world world_canonicalPath_idem
              world_getDeps_copy chain chain_reachable) as [Hac Hcyc].
  split_and!; [exact chain_reachable|exact Hac|].
  apply (Hcyc "C" "C" exprC None); [reflexivity|].
  intros Hno. apply (Hno "A").
  assert (∀ (m : gmap string ExpressionInfo) p q info,
            m !! p = Some info → q ∈ canonicalDeps world (expression info) →
            dep_edge world m p q) as Hedge.
  { intros m p q info Hp Hq. by exists info. }
  eapply tc_l; [|eapply tc_l; [|apply tc_once]].
  - apply (Hedge _ "A" "B" (mkExpressionInfo exprA "")); [reflexivity|].
    vm_compute. left.
  - apply (Hedge _ "B" "C" (mkExpressionInfo exprB "")); [reflexivity|].
    vm_compute. left.
  - apply (Hedge _ "C" "A" (mkExpressionInfo exprC "")); [reflexivity|].
    vm_compute. left.
Defined.

(** C2, at the chain: the cycle through [C] is reported and nothing
    changes. *)
Lemma setValue_validation_failed_witness :
  validateExpression world chain "C" exprC
  = inr "B reference creates a cyclic dependency." ∧
  setValue world "C" (Some exprC) None chain
  = (inl (RuntimeError "B reference creates a cyclic dependency."), chain).
Proof.
  split; [reflexivity|].
  apply (setValue_validation_failed world "C" "C" exprC None chain);
    [reflexivity|reflexivity| |reflexivity|reflexivity|discriminate].
  exists PropC, 0%Z. split; reflexivity.
Defined.

(** C2 as stated fails: once a validator rejects the expression stored at
    [A], [validateExpression] returns a diagnostic for it, yet passing the
    stored object again returns normally. The same happens without a
    validator once [renameExpressions] has moved [B + 1] under [B]. *)
Lemma setValue_stored_not_validated :
  (expressions rejecting !! "A" = Some (mkExpressionInfo exprA "") ∧
   validateExpression world rejecting "A" exprA = inr "rejected" ∧
   setValue world "A" (Some exprA) None rejecting = (inr tt, rejecting)) ∧
  (expressions looped !! "B" = Some (mkExpressionInfo exprA "") ∧
   validateExpression world looped "B" exprA
   = inr "B reference creates a cyclic dependency." ∧
   setValue world "B" (Some exprA) None looped = (inr tt, looped)).
Proof. split_and!; reflexivity. Qed.

(** The order of the writes at the chain: [B = 6] before [A = 7]. *)
Lemma execute_order_witness :
  execute world default_output chain = (inr tt, executed) ∧
  trace executed = trace chain ++ writeEvents [("B", 6%Z); ("A", 7%Z)] ∧
  ∃ ws : list (string * Z),
    trace executed = trace chain ++ writeEvents ws ∧ NoDup ws.*1 ∧
    (∀ l1 u l2 v,
       ws.*1 = l1 ++ u :: l2 →
       dep_edge world (expressions chain) u v →
       is_Some (expressions chain !! v) → v ∈ l1).
Proof.
  assert (execute world default_output chain = (inr tt, executed)) as Hex
    by reflexivity.
  split_and!; [exact Hex|reflexivity|].
  destruct (execute_order world chain (inr tt) executed Hex)
    as (ws & Ht & Hnd & _ & Hord & _).
  exists ws. split_and!; [exact Ht|exact Hnd|exact Hord].
Defined.

(** C5 fails on the code: [X] depends on [Other], and after
    [breakDependency [Other]] the binding of [X] is still there, with its
    back-link; the only call made was [setValue("Other.Value", null)]. *)
Theorem breakDependency_keeps_binding :
  Other ∈ getDocumentObjectDeps world linked ∧
  getPathsToDocumentObject world Other linked = ["Other.Value"] ∧
  (breakDependency world [Other] linked).1 = inr tt ∧
  expressions (breakDependency world [Other] linked).2
  = {["X" := mkExpressionInfo (Var "Other.Value") ""]} ∧
  trace (breakDependency world [Other] linked).2
  = trace linked
    ++ [AtomicChangeBegin; ExpressionChanged "Other.Value"; AtomicChangeEnd].
Proof. vm_compute. split_and!; try done. left. Qed.

(** C6, at the chain: [A] renamed to [X] and back. *)
Lemma renameExpressions_round_trip_witness :
  canonicalPath world "A" = inr "A" ∧ canonicalPath world "X" = inr "X" ∧
  expressions chain !! "X" = None ∧
  ∃ st1 st2,
    renameExpressions world [("A", "X")] chain = (inr tt, st1) ∧
    renameExpressions world [("X", "A")] st1 = (inr tt, st2) ∧
    expressions st2 = expressions chain.
Proof.
  split_and!; [reflexivity|reflexivity|reflexivity|].
  apply (renameExpressions_round_trip world "A" "X" chain); reflexivity.
Defined.

(** C7, at the chain: the stored expression of [A] passed again under the
    long form of the path. *)
Lemma setValue_identical_witness :
  canonicalPath world "Owner.A" = inr "A" ∧
  expressions chain !! "A" = Some (mkExpressionInfo exprA "") ∧
  setValue world "Owner.A" (Some exprA) None chain = (inr tt, chain).
Proof.
  split_and!; [reflexivity|reflexivity|].
  destruct (setValue_identical world "Owner.A" "A" (mkExpressionInfo exprA "")
              None chain) as (Hst & Hret & _); [reflexivity|reflexivity|].
  simpl in Hst, Hret. rewrite (surjective_pairing (setValue _ _ _ _ _)).
  rewrite Hst, Hret; [reflexivity|].
  exists PropA, 0%Z. split; reflexivity.
Defined.

(** C7 as stated fails: [Bad] is bound to the very object passed, but its
    value cannot be read, so [setValue] raises instead of returning. *)
Lemma setValue_identical_unreadable :
  canonicalPath world "Bad" = inr "Bad" ∧
  expressions renamed !! "Bad" = Some (mkExpressionInfo exprA "") ∧
  setValue world "Bad" (Some exprA) None renamed
  = (inl (HostError "no value"), renamed).
Proof. split_and!; reflexivity. Qed.

(** C4, at the chain: while it executes, while it does not, and when the
    evaluation of [B] throws because [C] has no value. *)
Lemma execute_reentrancy_witness :
  execute world default_output (set_running true chain)
  = (inr tt, set_running true chain) ∧
  running (execute world default_output chain).2 = false ∧
  (execute world default_output stale).1 = inl (HostError "unresolved reference") ∧
  running (execute world default_output stale).2 = false.
Proof.
  destruct (execute_reentrancy world default_output (set_running true chain))
    as [Hnested _].
  destruct (execute_reentrancy world default_output chain) as [_ Hplain].
  destruct (execute_reentrancy world default_output stale) as [_ Hthrown].
  split_and!;
    [apply Hnested; [by exists Owner|reflexivity]|apply Hplain; reflexivity
    |reflexivity|apply Hthrown; reflexivity].
Defined.

(** C9, on the persisted form of three bindings: [Restore] stages them and
    leaves the store empty; [onDocumentRestored] then binds each with its
    expression and its comment, in its own atomic scope, and registers the
    back-link of [X] to the other object. *)
Lemma Restore_stages_bindings_witness :
  (∃ st',
     Restore world savedAll (newEngine {["C" := 3%Z]})
     = (inr [OtherElement "Properties"], st') ∧
     restoredExpressions st'
     = {["A" := mkExpressionInfo exprA ""; "B" := mkExpressionInfo exprB "twice C";
         "X" := mkExpressionInfo (Var "Other.Value") ""]} ∧
     expressions st' = ∅) ∧
  (onDocumentRestored world stagedAll).1 = inr tt ∧
  expressions (onDocumentRestored world stagedAll).2
  = {["A" := mkExpressionInfo exprA ""; "B" := mkExpressionInfo exprB "twice C";
      "X" := mkExpressionInfo (Var "Other.Value") ""]} ∧
  trace (onDocumentRestored world stagedAll).2
  = [AtomicChangeBegin;
     AtomicChangeBegin; ExpressionChanged "A"; AtomicChangeEnd;
     AtomicChangeBegin; ExpressionChanged "B"; AtomicChangeEnd;
     AtomicChangeBegin; AddBackLink Other Owner; ExpressionChanged "X";
     AtomicChangeEnd;
     AtomicChangeEnd].
Proof.
  destruct (Restore_stages_bindings world) as (_ & Hstage & _ & Hdrain).
  split.
  - destruct (Hstage [("A", "B + 1", None); ("B", "C * 2", Some "twice C");
                      ("X", "Other.Value", None)]
                [("A", mkExpressionInfo exprA ""); ("B", mkExpressionInfo exprB "twice C");
                 ("X", mkExpressionInfo (Var "Other.Value") "")]
                [OtherElement "Properties"] (newEngine {["C" := 3%Z]}))
      as (st' & Hr & Hs & He & _).
    { repeat constructor. }
    exists st'. split_and!; [exact Hr| |exact He].
    rewrite Hs. reflexivity.
  - destruct (Hdrain stagedAll (inr tt) (onDocumentRestored world stagedAll).2
                ["A"; "B"; "X"])
      as [_ Hok].
    + vm_compute. repeat constructor.
    + repeat (apply NoDup_cons; split; [|]); [| |apply not_elem_of_nil|apply NoDup_nil_2].
      * intros [[=]|[[=]|Hin%not_elem_of_nil]%elem_of_cons]%elem_of_cons. done.
      * intros [[=]|Hin%not_elem_of_nil]%elem_of_cons. done.
    + intros up Hup. repeat (apply elem_of_cons in Hup as [->|Hup]; [reflexivity|]).
      by apply not_elem_of_nil in Hup.
    + reflexivity.
    + destruct (Hok eq_refl) as (He & Ht & _).
      split_and!; [reflexivity|rewrite He; reflexivity|rewrite Ht; reflexivity].
Defined.

(** C10, on the document: an unknown path raises, a known unbound one is
    absent. *)
Lemma getPathValue_not_total_witness :
  (∃ msg, getPathValue world "Nowhere" chain = inl (RuntimeError msg)) ∧
  getPathValue world "C" chain = inr None.
Proof.
  destruct (getPathValue_not_total world "Nowhere" chain) as [Hraise _].
  split; [apply Hraise; by right|reflexivity].
Defined.

Lemma knotted_cyclic : ¬ acyclic_store world (expressions knotted).
Proof.
  intros Hno. apply (Hno "A").
  assert (∀ (m : gmap string ExpressionInfo) p q info,
            m !! p = Some info → q ∈ canonicalDeps world (expression info) →
            dep_edge world m p q) as Hedge.
  { intros m p q info Hp Hq. by exists info. }
  eapply tc_l; [|apply tc_once].
  - apply (Hedge _ "A" "B" (mkExpressionInfo exprA "")); [reflexivity|].
    vm_compute. left.
  - apply (Hedge _ "B" "A" (mkExpressionInfo (Sub (Var "A") (Num 1)) ""));
      [reflexivity|].
    vm_compute. left.
Qed.

(** X1, on the document: [A] bound with a comment through [Owner.A] is
    found again through [Owner.A]. *)
Lemma setValue_then_getPathValue_witness :
  setValue world "Owner.A" (Some exprA) (Some "one more")
    (newEngine {["C" := 3%Z]}) = (inr tt, noted) ∧
  ∃ info, getPathValue world "Owner.A" noted = inr (Some info) ∧
          expression info = exprA ∧ comment info = "one more".
Proof.
  split; [reflexivity|].
  destruct (setValue_then_getPathValue world "Owner.A" exprA (Some "one more")
              (newEngine {["C" := 3%Z]}) noted)
    as (up & info & Hc & Hg & He & Hcase); [reflexivity|].
  exists info. split_and!; [exact Hg|exact He|].
  vm_compute in Hc. injection Hc as <-. exact Hcase.
Defined.

(** X2, at the chain: [A] erased. *)
Lemma setValue_null_then_getPathValue_witness :
  (setValue world "A" None None chain).1 = inr tt ∧
  getPathValue world "A" (setValue world "A" None None chain).2 = inr None ∧
  expressions (setValue world "A" None None chain).2
  = delete "A" (expressions chain).
Proof.
  split; [reflexivity|].
  destruct (setValue_null_then_getPathValue world "A" None chain
              (setValue world "A" None None chain).2)
    as (up & Hc & Hg & He & _); [reflexivity|].
  vm_compute in Hc. injection Hc as <-. split; [exact Hg|exact He].
Defined.

(** X3, at the chain: binding [B] leaves the binding of [A] and the
    document alone. *)
Lemma setValue_frame_witness :
  setValue world "B" (Some exprB) None boundA = (inr tt, chain) ∧
  expressions chain !! "A" = expressions boundA !! "A" ∧
  host chain = host boundA ∧ validator chain = validator boundA.
Proof.
  split; [reflexivity|].
  destruct (setValue_frame world "B" (Some exprB) None boundA chain (inr tt))
    as (_ & _ & Hv & Hh & _ & He); [reflexivity|].
  split_and!; [|exact Hh|exact Hv].
  apply (He "B" "A"); [reflexivity|discriminate].
Defined.

(** X4, at the chain: the refused binding of [C]. *)
Lemma setValue_raise_unchanged_witness :
  (setValue world "C" (Some exprC) None chain).1
  = inl (RuntimeError "B reference creates a cyclic dependency.") ∧
  (setValue world "C" (Some exprC) None chain).2 = chain.
Proof.
  split; [reflexivity|].
  apply (setValue_raise_unchanged world "C" (Some exprC) None chain _
           (RuntimeError "B reference creates a cyclic dependency.")).
  reflexivity.
Defined.

(** X5, on the document: [X] bound to the value of the other object, then
    erased. *)
Lemma setValue_install_erase_witness :
  ∃ st2,
    setValue world "X" None None linked = (inr tt, st2) ∧
    expressions st2 = ∅ ∧
    trace st2
    = [AtomicChangeBegin; AddBackLink Other Owner; ExpressionChanged "X";
       AtomicChangeEnd; AtomicChangeBegin; RemoveBackLink Other Owner;
       ExpressionChanged "X"; AtomicChangeEnd].
Proof.
  destruct (setValue_install_erase world "X" "X" (Var "Other.Value") None
              (newEngine {["Other.Value" := 3%Z]}) linked)
    as (st2 & Hset & He & Ht & _); [reflexivity..|].
  exists st2. split_and!; [exact Hset|exact He|]. rewrite Ht. reflexivity.
Defined.

(** X6, at the chain: binding [B] beside [A]. *)
Lemma setValue_numExpressions_witness :
  setValue world "B" (Some exprB) None boundA = (inr tt, chain) ∧
  numExpressions chain = 2.
Proof.
  split; [reflexivity|].
  rewrite (setValue_numExpressions world "B" "B" (Some exprB) None boundA chain);
    reflexivity.
Defined.

(** X7, on the knot: the diagnostic names [B], which lies on the cycle. *)
Lemma buildGraph_diagnostic_witness :
  buildGraph world (expressions knotted) default_output
  = inl (RuntimeError "B reference creates a cyclic dependency.") ∧
  ∃ p, is_Some (expressions knotted !! p) ∧
       tc (dep_edge world (expressions knotted)) p p.
Proof.
  split; [reflexivity|].
  destruct (buildGraph_diagnostic world (expressions knotted) default_output
              (RuntimeError "B reference creates a cyclic dependency."))
    as [(Hout & _)|(p & Hp & Htc & _)]; [reflexivity|done|].
  exists p. split; [exact Hp|exact Htc].
Defined.

(** X8, on a binding of a path without property. *)
Lemma buildGraph_filter_unresolved_witness :
  buildGraph world (expressions dangling) 0
  = inl (RuntimeError "Path does not resolve to a property.") ∧
  ∃ revNodes g, buildGraph world (expressions dangling) default_output
                = inr (revNodes, g).
Proof.
  split.
  - destruct (buildGraph_filter_unresolved world (expressions dangling) 0 "Nowhere")
      as [Hin _]; [by eexists|reflexivity|].
    apply Hin. done.
  - eexists _, _. reflexivity.
Defined.

(** X10, at the chain. *)
Lemma execute_frame_witness :
  execute world default_output chain = (inr tt, executed) ∧
  expressions executed = expressions chain ∧
  running executed = running chain ∧
  ∃ ws : list (string * Z), trace executed = trace chain ++ writeEvents ws.
Proof.
  split; [reflexivity|].
  destruct (execute_frame world default_output chain executed (inr tt))
    as (He & _ & _ & Hr & ws & Ht & _); [reflexivity|].
  split_and!; [exact He|exact Hr|]. exists ws. exact Ht.
Defined.

(** X11, on the chain with [X] bound: with a positive [output] only [X] is
    written. *)
Lemma execute_filter_witness :
  trace (execute world 1 outputs).2 = trace outputs ++ [SetPathValue "X" 4%Z] ∧
  ∃ ws : list (string * Z),
    trace (execute world 1 outputs).2 = trace outputs ++ writeEvents ws ∧
    ∀ p, p ∈ ws.*1 →
         ∃ prop ptype, getProperty p = Some (prop, ptype) ∧
                       is_output world prop = true.
Proof.
  split; [reflexivity|].
  destruct (execute_filter world 1 outputs (execute world 1 outputs).2
              (execute world 1 outputs).1)
    as (ws & Ht & Hall); [done|apply surjective_pairing|].
  exists ws. split; [exact Ht|exact Hall].
Defined.

(** X12, on the knot. *)
Lemma execute_cyclic_witness :
  running knotted = false ∧
  ∃ msg, execute world default_output knotted = (inl (RuntimeError msg), knotted).
Proof.
  split; [reflexivity|].
  apply (execute_cyclic world knotted); [reflexivity|exact knotted_cyclic].
Defined.

(** X14, at the chain: renaming [A] to the bound [B] loses a binding. *)
Lemma renameExpressions_spec_witness :
  (renameExpressions world [("A", "B")] chain).1 = inr tt ∧
  numExpressions (renameExpressions world [("A", "B")] chain).2
  ≤ numExpressions chain ∧
  numExpressions (renameExpressions world [("A", "B")] chain).2 = 1 ∧
  host (renameExpressions world [("A", "B")] chain).2 = host chain.
Proof.
  split; [reflexivity|].
  destruct (renameExpressions_spec world [("A", "B")] chain
              (renameExpressions world [("A", "B")] chain).2 (inr tt))
    as (_ & _ & _ & Hh & _ & Hn & _); [reflexivity|].
  split_and!; [exact Hn|reflexivity|exact Hh].
Defined.

(** X15, at the chain: [C] is not bound. *)
Lemma renameExpressions_unbound_witness :
  ∃ st', renameExpressions world [("C", "X")] chain = (inr tt, st') ∧
         expressions st' = expressions chain.
Proof.
  apply (renameExpressions_unbound world [("C", "X")] chain).
  intros i Hi. apply list_elem_of_singleton in Hi as ->.
  exists "C". split; reflexivity.
Defined.

(** X16, on the document: the binding of [Other.Value] is erased, that of
    [X] stays. *)
Lemma breakDependency_only_erases_witness :
  (breakDependency world [Other] entangled).1 = inr tt ∧
  map_to_list (expressions (breakDependency world [Other] entangled).2)
  = [("X", mkExpressionInfo (Var "Other.Value") "")] ∧
  expressions (breakDependency world [Other] entangled).2 ⊆ expressions entangled ∧
  host (breakDependency world [Other] entangled).2 = host entangled.
Proof.
  split; [reflexivity|]. split; [reflexivity|].
  destruct (breakDependency_only_erases world [Other] entangled
              (breakDependency world [Other] entangled).2
              (breakDependency world [Other] entangled).1)
    as (Hsub & _ & _ & _ & Hh); [apply surjective_pairing|].
  split; [exact Hsub|exact Hh].
Defined.

(** X17, at the chain, whose expressions depend on the owner only. *)
Lemma breakDependency_unrelated_witness :
  breakDependency world [Owner; Other] chain = (inr tt, chain).
Proof.
  apply (breakDependency_unrelated world [Owner; Other] chain).
  intros o [->|Ho]%elem_of_cons; [by left|right].
  apply list_elem_of_singleton in Ho as ->.
  intros p info Hp%elem_of_map_to_list. vm_compute in Hp.
  apply elem_of_cons in Hp as [[= -> ->]|Hp];
    [|apply list_elem_of_singleton in Hp as [= -> ->]];
    vm_compute; intros Hin;
    apply elem_of_cons in Hin as [[=]|Hin]; by apply not_elem_of_nil in Hin.
Defined.

(** X19, pasting a copy of the chain into a new engine. *)
Lemma Paste_Copy_witness :
  ∃ dst',
    Paste world (Copy world chain) (newEngine ∅) = (inr tt, dst') ∧
    numExpressions dst' = 2 ∧ acyclic_store world (expressions dst').
Proof.
  destruct (Paste_Copy world world_getDeps_copy chain (newEngine ∅))
    as (dst' & Hp & _ & Hn & _ & Hac).
  exists dst'. split_and!; [exact Hp|by rewrite Hn|].
  apply Hac.
  exact (reachable_acyclic world world_canonicalPath_idem world_getDeps_copy
           chain chain_reachable).
Defined.

(** X20, on two bindings: the expression of [C] comes back as the parser
    reads its text, with the short name of [A], under the same key and with
    the same comment. *)
Lemma Save_Restore_witness :
  expressions aliased
  = {["C" := mkExpressionInfo (Sub (Var "Owner.A") (Num 1)) "one less";
      "X" := mkExpressionInfo (Var "Other.Value") ""]} ∧
  ∃ st1,
    Restore world
      (readWritten decode (Save world toString encode aliased)
         ++ [OtherElement "Properties"]) (newEngine ∅)
    = (inr [OtherElement "Properties"], st1) ∧
    restoredExpressions st1
    = {["C" := mkExpressionInfo (Sub (Var "A") (Num 1)) "one less";
        "X" := mkExpressionInfo (Var "Other.Value") ""]}.
Proof.
  split; [reflexivity|].
  destruct (Save_Restore world toString encode decode reread aliased
              (newEngine ∅) [OtherElement "Properties"])
    as (st1 & Hr & Hs & _).
  - reflexivity.
  - intros p info Hp%elem_of_map_to_list. vm_compute in Hp.
    apply elem_of_cons in Hp as [[= -> ->]|Hp];
      [|apply list_elem_of_singleton in Hp as [= -> ->]];
      split; reflexivity.
  - exists st1. split; [exact Hr|]. rewrite Hs. reflexivity.
Defined.

(** X21, on the staged bindings of [saved]. *)
Lemma onDocumentRestored_provenance_witness :
  (onDocumentRestored world staged).1 = inr tt ∧
  expressions (onDocumentRestored world staged).2
  = {["A" := mkExpressionInfo exprA "";
      "B" := mkExpressionInfo exprB "twice C"]} ∧
  ∃ evs, trace (onDocumentRestored world staged).2
         = trace staged ++ [AtomicChangeBegin] ++ evs ++ [AtomicChangeEnd].
Proof.
  split; [reflexivity|]. split; [reflexivity|].
  destruct (onDocumentRestored_provenance world staged
              (onDocumentRestored world staged).2
              (onDocumentRestored world staged).1)
    as [Ht _]; [apply surjective_pairing|].
  exact Ht.
Defined.

Lemma chain_balanced : balanced world chain.
Proof.
  eapply setValue_balanced; [eapply setValue_balanced; [apply newEngine_balanced|]|];
    apply surjective_pairing.
Qed.

(** X23, pasting [X = Other.Value] over the chain: the other object holds
    one back-link. *)
Lemma Paste_balanced_witness :
  registered Other (trace (Paste world linked chain).2) = 1%Z ∧
  registered Other (trace (Paste world linked chain).2)
  = occurrences Other (getDocumentObjectDeps world (Paste world linked chain).2).
Proof.
  split; [reflexivity|].
  apply (Paste_balanced world (λ e, eq_refl) linked chain chain_balanced).
Defined.

End Sample.
